(** * Bible database repair: a shallow embedding of
      [scripts/repair_bible_database.py]

    The development follows the script top-down: the Python values that
    come out of [json.loads], the static tables, the SQLite store with the
    schema that [scripts/build_bible_database.py] creates, the two CDN
    fetch functions, and [repair_translation] with its retry loops.
    The builders follow: [extract_verse_text], [fetch_bible_text] and
    [download_translation] of [scripts/build_bible_database.py], and
    [fetch_chapter] of [scripts/build_bible_simple.py], run on the same
    store.

    Modelling conventions.
    - JSON numbers are integers ([Z]); the fractional numbers, infinities
      and NaN that [json.loads] also accepts are left out.
    - A store operation can be hit by an [sqlite3.OperationalError]; the
      environment's choice is a schedule of pending faults carried by the
      database state, one entry consumed per store operation.
    - A value is bound by the [sqlite3] adapter ([bool] as an integer)
      and stored after conversion to the affinity of its column; the
      conversions that depend on the text of a number are those of the
      engine that the database state carries.
    - Every computation returns its result (a value or the raised
      exception), the database it leaves behind and the events it emitted:
      store operations, HTTP requests, sleeps and printed lines.  An
      exception keeps the effects that happened before it. *)

From Stdlib Require Import ZArith List String Ascii Bool Lia QArith.
From Stdlib Require Import Floats.SpecFloat.
From Stdlib Require Import Sorting.Permutation Sorting.Sorted.
From Stdlib Require Import Numbers.DecimalString.
Import ListNotations.

Local Open Scope string_scope.
Local Open Scope Z_scope.
Local Open Scope list_scope.

(* ===================================================================== *)
(** ** Python values *)

(** What [json.loads] can return. *)
#[local] Set Warnings "-register-all".
Inductive json : Type :=
| JNull
| JBool (b : bool)
| JNum (z : Z)
| JStr (s : string)
| JArr (items : list json)
| JObj (fields : list (string * json)).
#[local] Set Warnings "register-all".

(** [bool(v)]: the test behind [if v] and [not v]. *)
Definition truthy (v : json) : bool :=
  match v with
  | JNull => false
  | JBool b => b
  | JNum z => negb (z =? 0)
  | JStr s => negb (s =? "")%string
  | JArr items => match items with [] => false | _ :: _ => true end
  | JObj fields => match fields with [] => false | _ :: _ => true end
  end.

(** [hash(v)] succeeds: lists and dicts are unhashable. *)
Definition hashable (v : json) : bool :=
  match v with
  | JArr _ | JObj _ => false
  | _ => true
  end.

(** [iter(v)]: the sequence a [for] loop walks, [None] for a [TypeError].
    A dict yields its keys and a string its characters. *)
Fixpoint chars (s : string) : list json :=
  match s with
  | EmptyString => []
  | String c rest => JStr (String c EmptyString) :: chars rest
  end.

Definition py_iter (v : json) : option (list json) :=
  match v with
  | JArr items => Some items
  | JObj fields => Some (map (fun kv => JStr (fst kv)) fields)
  | JStr s => Some (chars s)
  | JNull | JBool _ | JNum _ => None
  end.

(** Dictionaries are association lists; the first binding of a key wins. *)
Fixpoint lookup {A : Type} (k : string) (d : list (string * A)) : option A :=
  match d with
  | [] => None
  | (k', v) :: rest => if (k =? k')%string then Some v else lookup k rest
  end.

(** [d.get(k, default)] *)
Definition dict_get {A : Type} (d : list (string * A)) (k : string) (default : A) : A :=
  match lookup k d with
  | Some v => v
  | None => default
  end.

(** [needle in haystack] on strings. *)
Fixpoint starts_with (p s : string) : bool :=
  match p, s with
  | EmptyString, _ => true
  | String a p', String b s' => Ascii.eqb a b && starts_with p' s'
  | String _ _, EmptyString => false
  end.

Fixpoint contains (needle haystack : string) : bool :=
  starts_with needle haystack ||
  match haystack with
  | EmptyString => false
  | String _ rest => contains needle rest
  end.

(** [range(a, a + n)] *)
Definition range (a : Z) (n : Z) : list Z :=
  map (fun i => a + Z.of_nat i) (seq 0 (Z.to_nat n)).

(* ===================================================================== *)
(** ** Static tables *)

Definition TRANSLATIONS : list (string * string) :=
  [ ("KJV", "en-kjv"); ("ASV", "en-asv"); ("WEB", "en-web") ].

Definition BOOK_NAMES : list (string * string) :=
  [ ("Genesis", "genesis"); ("Exodus", "exodus"); ("Leviticus", "leviticus");
    ("Numbers", "numbers"); ("Deuteronomy", "deuteronomy"); ("Joshua", "joshua");
    ("Judges", "judges"); ("Ruth", "ruth"); ("1 Samuel", "1-samuel");
    ("2 Samuel", "2-samuel"); ("1 Kings", "1-kings"); ("2 Kings", "2-kings");
    ("1 Chronicles", "1-chronicles"); ("2 Chronicles", "2-chronicles");
    ("Ezra", "ezra"); ("Nehemiah", "nehemiah"); ("Esther", "esther");
    ("Job", "job"); ("Psalms", "psalms"); ("Proverbs", "proverbs");
    ("Ecclesiastes", "ecclesiastes"); ("Song of Solomon", "song-of-solomon");
    ("Isaiah", "isaiah"); ("Jeremiah", "jeremiah"); ("Lamentations", "lamentations");
    ("Ezekiel", "ezekiel"); ("Daniel", "daniel"); ("Hosea", "hosea");
    ("Joel", "joel"); ("Amos", "amos"); ("Obadiah", "obadiah");
    ("Jonah", "jonah"); ("Micah", "micah"); ("Nahum", "nahum");
    ("Habakkuk", "habakkuk"); ("Zephaniah", "zephaniah"); ("Haggai", "haggai");
    ("Zechariah", "zechariah"); ("Malachi", "malachi");
    ("Matthew", "matthew"); ("Mark", "mark"); ("Luke", "luke"); ("John", "john");
    ("Acts", "acts"); ("Romans", "romans"); ("1 Corinthians", "1-corinthians");
    ("2 Corinthians", "2-corinthians"); ("Galatians", "galatians");
    ("Ephesians", "ephesians"); ("Philippians", "philippians");
    ("Colossians", "colossians"); ("1 Thessalonians", "1-thessalonians");
    ("2 Thessalonians", "2-thessalonians"); ("1 Timothy", "1-timothy");
    ("2 Timothy", "2-timothy"); ("Titus", "titus"); ("Philemon", "philemon");
    ("Hebrews", "hebrews"); ("James", "james"); ("1 Peter", "1-peter");
    ("2 Peter", "2-peter"); ("1 John", "1-john"); ("2 John", "2-john");
    ("3 John", "3-john"); ("Jude", "jude"); ("Revelation", "revelation") ].

Definition VERSE_COUNTS : list (string * Z) :=
  [ ("Genesis", 1533); ("Exodus", 1213); ("Leviticus", 859); ("Numbers", 1288);
    ("Deuteronomy", 959); ("Joshua", 658); ("Judges", 618); ("Ruth", 85);
    ("1 Samuel", 810); ("2 Samuel", 695); ("1 Kings", 816); ("2 Kings", 719);
    ("1 Chronicles", 942); ("2 Chronicles", 822); ("Ezra", 280); ("Nehemiah", 406);
    ("Esther", 167); ("Job", 1070); ("Psalms", 2461); ("Proverbs", 915);
    ("Ecclesiastes", 222); ("Song of Solomon", 117); ("Isaiah", 1292);
    ("Jeremiah", 1364); ("Lamentations", 154); ("Ezekiel", 1273); ("Daniel", 357);
    ("Hosea", 197); ("Joel", 73); ("Amos", 146); ("Obadiah", 21); ("Jonah", 48);
    ("Micah", 105); ("Nahum", 47); ("Habakkuk", 56); ("Zephaniah", 53);
    ("Haggai", 38); ("Zechariah", 211); ("Malachi", 55);
    ("Matthew", 1071); ("Mark", 678); ("Luke", 1151); ("John", 879);
    ("Acts", 1007); ("Romans", 433); ("1 Corinthians", 437); ("2 Corinthians", 257);
    ("Galatians", 149); ("Ephesians", 155); ("Philippians", 104); ("Colossians", 95);
    ("1 Thessalonians", 89); ("2 Thessalonians", 47); ("1 Timothy", 113);
    ("2 Timothy", 83); ("Titus", 46); ("Philemon", 25); ("Hebrews", 303);
    ("James", 108); ("1 Peter", 105); ("2 Peter", 61); ("1 John", 105);
    ("2 John", 13); ("3 John", 14); ("Jude", 25); ("Revelation", 404) ].

Definition CHAPTERS : list (string * Z) :=
  [ ("Genesis", 50); ("Exodus", 40); ("Leviticus", 27); ("Numbers", 36);
    ("Deuteronomy", 34); ("Joshua", 24); ("Judges", 21); ("Ruth", 4);
    ("1 Samuel", 31); ("2 Samuel", 24); ("1 Kings", 22); ("2 Kings", 25);
    ("1 Chronicles", 29); ("2 Chronicles", 36); ("Ezra", 10); ("Nehemiah", 13);
    ("Esther", 10); ("Job", 42); ("Psalms", 150); ("Proverbs", 31);
    ("Ecclesiastes", 12); ("Song of Solomon", 8); ("Isaiah", 66);
    ("Jeremiah", 52); ("Lamentations", 5); ("Ezekiel", 48); ("Daniel", 12);
    ("Hosea", 14); ("Joel", 3); ("Amos", 9); ("Obadiah", 1); ("Jonah", 4);
    ("Micah", 7); ("Nahum", 3); ("Habakkuk", 3); ("Zephaniah", 3);
    ("Haggai", 2); ("Zechariah", 14); ("Malachi", 4);
    ("Matthew", 28); ("Mark", 16); ("Luke", 24); ("John", 21);
    ("Acts", 28); ("Romans", 16); ("1 Corinthians", 16); ("2 Corinthians", 13);
    ("Galatians", 6); ("Ephesians", 6); ("Philippians", 4); ("Colossians", 4);
    ("1 Thessalonians", 5); ("2 Thessalonians", 3); ("1 Timothy", 6);
    ("2 Timothy", 4); ("Titus", 3); ("Philemon", 1); ("Hebrews", 13);
    ("James", 5); ("1 Peter", 5); ("2 Peter", 3); ("1 John", 5);
    ("2 John", 1); ("3 John", 1); ("Jude", 1); ("Revelation", 22) ].

(* ===================================================================== *)
(** ** The completeness test [len(existing) >= expected_total * 0.95]

    [expected_total * 0.95] is a binary64 product: the integer is converted
    to a float and multiplied by the double nearest to 0.95, with rounding
    to nearest even.  The comparison of the integer [len(existing)] with
    that float is exact in Python. *)

Definition prec64 : Z := 53.
Definition emax64 : Z := 1024.

(** [float(z)] *)
Definition float_of_int (z : Z) : spec_float :=
  binary_normalize prec64 emax64 z 0 false.

(** The literal [0.95], that is [0x1.e666666666666p-1]. *)
Definition float_0_95 : spec_float :=
  S754_finite false 8556839292003942%positive (-53).

(** [n >= f] for an integer [n] and a float [f]. *)
Definition int_ge_float (n : Z) (f : spec_float) : bool :=
  match f with
  | S754_zero _ => 0 <=? n
  | S754_infinity s => s
  | S754_nan => false
  | S754_finite s m e =>
      let v := cond_Zopp s (Zpos m) in
      if 0 <=? e then v * 2 ^ e <=? n else v <=? n * 2 ^ (- e)
  end.

(** [expected_total * 0.95] *)
Definition threshold (expected_total : Z) : spec_float :=
  SFmul prec64 emax64 (float_of_int expected_total) float_0_95.

(** Line 163. *)
Definition is_complete (existing_count expected_total : Z) : bool :=
  int_ge_float existing_count (threshold expected_total).

Example is_complete_ruth_80 : is_complete 80 85 = false.
Proof. reflexivity. Qed.

Example is_complete_ruth_81 : is_complete 81 85 = true.
Proof. reflexivity. Qed.

(* ===================================================================== *)
(** ** The store

    [create_database] declares
    [verses(id, translation_id, book_id, chapter, verse, text)], every
    column [NOT NULL], [id] an autoincremented surrogate key, and
    [books(id INTEGER PRIMARY KEY, name, ...)].  The surrogate [id] is the
    position of a row in the list. *)

(** A value held by a column: [NULL], an [INTEGER], a [REAL] or a [TEXT]. *)
Inductive sqlval : Type :=
| SNull
| SInt (z : Z)
| SReal (f : spec_float)
| SText (s : string).

Record row : Type := mkRow {
  r_translation : string;
  r_book : Z;
  r_chapter : Z;
  r_verse : sqlval;
  r_text : sqlval
}.

(** An index created by [CREATE [UNIQUE] INDEX name ON verses(columns)]. *)
Record index : Type := mkIndex {
  idx_name : string;
  idx_columns : list string;
  idx_unique : bool
}.

(** Line 253 of [build_bible_database.py]:
    [CREATE INDEX idx_verses_lookup ON verses(translation_id, book_id, chapter, verse)].
    The table declaration itself has no [UNIQUE] clause. *)
Definition verses_indexes : list index :=
  [ mkIndex "idx_verses_lookup"
      ["translation_id"; "book_id"; "chapter"; "verse"] false ].

Definition full_key : list string :=
  ["translation_id"; "book_id"; "chapter"; "verse"].

Definition same_columns (a b : list string) : bool :=
  if list_eq_dec string_dec a b then true else false.

(** Does the schema enforce uniqueness of the full unit key? *)
Definition key_is_unique : bool :=
  existsb (fun i => idx_unique i && same_columns (idx_columns i) full_key)
    verses_indexes.

Definition spec_float_eqb (f g : spec_float) : bool :=
  match f, g with
  | S754_zero s, S754_zero s' => Bool.eqb s s'
  | S754_infinity s, S754_infinity s' => Bool.eqb s s'
  | S754_nan, S754_nan => true
  | S754_finite s m e, S754_finite s' m' e' =>
      Bool.eqb s s' && (m =? m')%positive && (e =? e')
  | _, _ => false
  end.

Definition sqlval_eqb (a b : sqlval) : bool :=
  match a, b with
  | SNull, SNull => true
  | SInt x, SInt y => x =? y
  | SReal f, SReal g => spec_float_eqb f g
  | SText x, SText y => (x =? y)%string
  | _, _ => false
  end.

Definition same_key (a b : row) : bool :=
  (r_translation a =? r_translation b)%string && (r_book a =? r_book b) &&
  (r_chapter a =? r_chapter b) && sqlval_eqb (r_verse a) (r_verse b).

Definition is_null (v : sqlval) : bool :=
  match v with SNull => true | _ => false end.

(** What the schema leaves to the engine.  [create_database] declares
    [verse INTEGER] and [text TEXT], and SQLite converts a value to the
    affinity of its column when it stores it: in an [INTEGER] column a
    text that is a well-formed integer or real literal becomes a number,
    and a [REAL] with an integer value becomes an [INTEGER]; in a [TEXT]
    column a number becomes its text.  Which texts SQLite reads as which
    number, which [REAL]s it keeps as integers and how it writes a [REAL]
    belongs to the engine. *)
Inductive number : Type :=
| Integer (z : Z)
| Real (f : spec_float).

Record sqlite : Type := mkSqlite {
  numeric_text : string -> option number;   (* the number stored for a text *)
  integer_real : spec_float -> number;      (* the number stored for a REAL *)
  real_text : spec_float -> string          (* the text stored for a REAL *)
}.

Definition number_value (n : number) : sqlval :=
  match n with
  | Integer z => SInt z
  | Real f => SReal f
  end.

(** The value stored by a column of [INTEGER] affinity. *)
Definition integer_affinity (e : sqlite) (v : sqlval) : sqlval :=
  match v with
  | SNull => SNull
  | SInt z => SInt z
  | SReal f => number_value (integer_real e f)
  | SText s =>
      match numeric_text e s with
      | Some n => number_value n
      | None => SText s
      end
  end.

(** The decimal text of an integer. *)
Definition decimal (z : Z) : string := NilZero.string_of_int (Z.to_int z).

(** The value stored by a column of [TEXT] affinity. *)
Definition text_affinity (e : sqlite) (v : sqlval) : sqlval :=
  match v with
  | SNull => SNull
  | SInt z => SText (decimal z)
  | SReal f => SText (real_text e f)
  | SText s => SText s
  end.

(** The row of [verses] that an [INSERT] of the bound values [r] stores. *)
Definition stored (e : sqlite) (r : row) : row :=
  mkRow (r_translation r) (r_book r) (r_chapter r)
    (integer_affinity e (r_verse r)) (text_affinity e (r_text r)).

Record db : Type := mkDb {
  books : list (Z * string);        (* the books table: id, name *)
  verses : list row;                (* the verses table as this connection sees it *)
  durable : list row;               (* the rows made durable by the last commit *)
  faults : list (option string);    (* pending OperationalError messages *)
  engine : sqlite                   (* the conversions of the engine *)
}.

Inductive exn : Type :=
| IntegrityError
| OperationalError (msg : string)
| InterfaceError          (* a parameter of an unsupported type *)
| OverflowError           (* an integer outside the 64-bit range *)
| TypeError
| AttributeError.

(** Lines printed by [repair_translation]. *)
Inductive log_line : Type :=
| LogUnknownTranslation (translation_id : string)
| LogUnknownBook (book_name : string)
| LogComplete (book_name : string) (existing_count : Z)
| LogRepairing (book_name : string) (existing_count expected_total : Z)
| LogCommitLocked
| LogAdded (book_added : Z)
| LogSummary (translation_id : string) (total_added total_missing : Z).

Inductive event : Type :=
| EvSelectBooks (failure : option exn)
| EvScan (translation_id : string) (book_id : Z) (failure : option exn)
| EvInsert (r : row) (failure : option exn)
| EvCommit (failure : option exn)
| EvFetchChapter (translation_code book_api : string) (chapter : Z)
| EvFetchVerse (translation_code book_api : string) (chapter verse : Z)
| EvSleep (milliseconds : Z)
| EvPrint (line : log_line).

(* ===================================================================== *)
(** ** Computations: state, exceptions and emitted events *)

Inductive result (A : Type) : Type :=
| Ok (a : A)
| Raise (e : exn).
Arguments Ok {A} a.
Arguments Raise {A} e.

Record outcome (A : Type) : Type := mkOutcome {
  res : result A;
  final : db;
  out : list event
}.
Arguments mkOutcome {A} res final out.
Arguments res {A} o.
Arguments final {A} o.
Arguments out {A} o.

Definition M (A : Type) : Type := db -> outcome A.

Definition ret {A : Type} (a : A) : M A :=
  fun d => mkOutcome (Ok a) d [].

Definition raise {A : Type} (e : exn) : M A :=
  fun d => mkOutcome (Raise e) d [].

Definition bind {A B : Type} (c : M A) (k : A -> M B) : M B :=
  fun d =>
    let o := c d in
    match res o with
    | Ok a => let o' := k a (final o) in
              mkOutcome (res o') (final o') (out o ++ out o')
    | Raise e => mkOutcome (Raise e) (final o) (out o)
    end.

(** [try: c  except ...: handler] where the handler sees every exception
    and re-raises the ones no clause matches. *)
Definition try_except {A : Type} (c : M A) (handler : exn -> M A) : M A :=
  fun d =>
    let o := c d in
    match res o with
    | Ok a => o
    | Raise e => let o' := handler e (final o) in
                 mkOutcome (res o') (final o') (out o ++ out o')
    end.

Definition emit (e : event) : M unit :=
  fun d => mkOutcome (Ok tt) d [e].

Declare Scope py_scope.
Delimit Scope py_scope with py.
Notation "x <- c ;; k" := (bind c (fun x => k))
  (at level 61, c at next level, right associativity) : py_scope.
Notation "c ;; k" := (bind c (fun _ => k))
  (at level 61, right associativity) : py_scope.
Local Open Scope py_scope.

Definition sleep (milliseconds : Z) : M unit := emit (EvSleep milliseconds).
Definition print (line : log_line) : M unit := emit (EvPrint line).

(** The same store under another fault schedule. *)
Definition with_faults (d : db) (schedule : list (option string)) : db :=
  mkDb (books d) (verses d) (durable d) schedule (engine d).

(** The next entry of the fault schedule; an exhausted schedule has no
    fault left. *)
Definition next_fault (d : db) : option string * db :=
  match faults d with
  | [] => (None, d)
  | f :: rest => (f, with_faults d rest)
  end.

(** The two successful writes. *)
Definition appended (r : row) (d : db) : db :=
  mkDb (books d) (verses d ++ [r]) (durable d) (faults d) (engine d).

Definition committed (d : db) : db :=
  mkDb (books d) (verses d) (verses d) (faults d) (engine d).

(** [ORDER BY id] *)
Fixpoint insert_by_id (b : Z * string) (sorted : list (Z * string)) : list (Z * string) :=
  match sorted with
  | [] => [b]
  | b' :: rest => if fst b <=? fst b' then b :: sorted else b' :: insert_by_id b rest
  end.

Definition order_by_id (l : list (Z * string)) : list (Z * string) :=
  fold_right insert_by_id [] l.

(** [SELECT id, name FROM books ORDER BY id] *)
Definition select_books : M (list (Z * string)) :=
  fun d =>
    let (f, d') := next_fault d in
    match f with
    | Some msg => mkOutcome (Raise (OperationalError msg)) d'
                    [EvSelectBooks (Some (OperationalError msg))]
    | None => mkOutcome (Ok (order_by_id (books d'))) d' [EvSelectBooks None]
    end.

(** [SELECT chapter, verse FROM verses WHERE translation_id = ? AND book_id = ?] *)
Definition select_chapter_verse (translation_id : string) (book_id : Z)
  : M (list (Z * sqlval)) :=
  fun d =>
    let (f, d') := next_fault d in
    match f with
    | Some msg => mkOutcome (Raise (OperationalError msg)) d'
                    [EvScan translation_id book_id (Some (OperationalError msg))]
    | None =>
        mkOutcome
          (Ok (map (fun r => (r_chapter r, r_verse r))
                 (filter (fun r => (r_translation r =? translation_id)%string
                                   && (r_book r =? book_id))
                    (verses d'))))
          d' [EvScan translation_id book_id None]
    end.

(** How the [sqlite3] adapter binds a Python value to a statement. *)
Definition bind_param (v : json) : result sqlval :=
  match v with
  | JNull => Ok SNull
  | JBool b => Ok (SInt (if b then 1 else 0))
  | JNum z => if (- 2 ^ 63 <=? z) && (z <? 2 ^ 63) then Ok (SInt z) else Raise OverflowError
  | JStr s => Ok (SText s)
  | JArr _ | JObj _ => Raise InterfaceError
  end.

(** The constraint a new row of [verses] can violate under the schema:
    a [NOT NULL] column ([translation_id], [book_id] and [chapter] are
    never null here) or a unique index on the key.  Foreign keys are not
    enforced, the scripts never turn the pragma on. *)
Definition violates_constraint (r : row) (table : list row) : bool :=
  is_null (r_verse r) || is_null (r_text r) ||
  (key_is_unique && existsb (same_key r) table).

(** [INSERT INTO verses (translation_id, book_id, chapter, verse, text) VALUES (?, ?, ?, ?, ?)]
    with the bound values [bound].  The values are converted to the
    affinity of their columns before the constraints are checked; the
    event carries the row as the store takes it. *)
Definition insert_row (bound : row) : M unit :=
  fun d =>
    let (f, d') := next_fault d in
    let r := stored (engine d') bound in
    match f with
    | Some msg => mkOutcome (Raise (OperationalError msg)) d'
                    [EvInsert r (Some (OperationalError msg))]
    | None =>
        if violates_constraint r (verses d')
        then mkOutcome (Raise IntegrityError) d' [EvInsert r (Some IntegrityError)]
        else mkOutcome (Ok tt) (appended r d') [EvInsert r None]
    end.

(** [cursor.execute(INSERT ..., (translation_id, book_id, chapter, verse_num, text))] *)
Definition execute_insert (translation_id : string) (book_id chapter : Z)
    (verse_num text : json) : M unit :=
  match bind_param verse_num with
  | Raise e => raise e
  | Ok verse =>
      match bind_param text with
      | Raise e => raise e
      | Ok txt => insert_row (mkRow translation_id book_id chapter verse txt)
      end
  end.

(** [conn.commit()] *)
Definition commit : M unit :=
  fun d =>
    let (f, d') := next_fault d in
    match f with
    | Some msg => mkOutcome (Raise (OperationalError msg)) d'
                    [EvCommit (Some (OperationalError msg))]
    | None => mkOutcome (Ok tt) (committed d') [EvCommit None]
    end.

(* ===================================================================== *)
(** ** The repair script *)

(** What [urlopen(...).read()] followed by [json.loads] comes to. *)
Inductive response : Type :=
| UrlError                 (* connection refused, HTTP error status, ... *)
| Timeout
| Undecodable              (* the body is not UTF-8 encoded JSON *)
| Payload (data : json).

(** The existing-state set: keys [(chapter, verse)] without repetition. *)
Definition key : Type := (Z * sqlval)%type.

Definition key_eqb (a b : key) : bool :=
  (fst a =? fst b) && sqlval_eqb (snd a) (snd b).

Fixpoint to_set (l : list key) : list key :=
  match l with
  | [] => []
  | k :: rest =>
      let s := to_set rest in
      if existsb (key_eqb k) s then s else k :: s
  end.

(** [len(existing)] *)
Definition len {A : Type} (l : list A) : Z := Z.of_nat (List.length l).

(** [n == f] for an integer [n] and a float [f]. *)
Definition int_eq_float (n : Z) (f : spec_float) : bool :=
  match f with
  | S754_zero _ => n =? 0
  | S754_finite s m e =>
      let v := cond_Zopp s (Zpos m) in
      if 0 <=? e then n =? v * 2 ^ e else n * 2 ^ (- e) =? v
  | _ => false
  end.

(** Python's [==] between a decoded value and a value read from a column. *)
Definition py_eq_stored (v : json) (s : sqlval) : bool :=
  match v, s with
  | JNull, SNull => true
  | JBool b, SInt z => (if b then 1 else 0) =? z
  | JBool b, SReal f => int_eq_float (if b then 1 else 0) f
  | JNum x, SInt z => x =? z
  | JNum x, SReal f => int_eq_float x f
  | JStr a, SText b => (a =? b)%string
  | _, _ => false
  end.

(** [(chapter, verse_num) in existing] for a hashable [verse_num]. *)
Definition in_existing (chapter : Z) (verse_num : json) (existing : list key) : bool :=
  existsb (fun k => (chapter =? fst k) && py_eq_stored verse_num (snd k)) existing.

(** Per-document repair statistics: the values of [len(existing)],
    [expected_total] and [book_added] when line 218 is reached. *)
Record book_stats : Type := mkStats {
  st_book : string;
  st_existing : Z;
  st_expected : Z;
  st_added : Z
}.

(** The counters of [repair_translation], with the statistics of the
    documents that went through repair so far. *)
Record tally : Type := mkTally {
  total_added : Z;
  total_missing : Z;
  repaired : list book_stats
}.

Section Repair.

(** The CDN, as a function of the address requested:
    [{CDN_BASE}/{translation_code}/books/{book_api}/chapters/{chapter}.json] and
    [{CDN_BASE}/{translation_code}/books/{book_api}/chapters/{chapter}/verses/{verse}.json]. *)
Variable cdn_chapter : string -> string -> Z -> response.
Variable cdn_verse : string -> string -> Z -> Z -> response.

(** Lines 100-107. *)
Definition get_existing_verses (translation_id : string) (book_id : Z)
  : M (list key) :=
  rows <- select_chapter_verse translation_id book_id ;;
  ret (to_set rows).

(** Lines 110-121.  [None] is [JNull]; every exception raised under the
    [try] is caught, among them the [AttributeError] of [data.get] when
    the decoded document is not an object. *)
Definition download_chapter (translation_code book_api : string) (chapter : Z)
  : M json :=
  emit (EvFetchChapter translation_code book_api chapter) ;;
  match cdn_chapter translation_code book_api chapter with
  | Payload (JObj data) =>
      ret (dict_get data "verses" (dict_get data "data" (JArr [])))
  | _ => ret JNull
  end.

(** Lines 124-134. *)
Definition download_verse (translation_code book_api : string) (chapter verse : Z)
  : M json :=
  emit (EvFetchVerse translation_code book_api chapter verse) ;;
  match cdn_verse translation_code book_api chapter verse with
  | Payload (JObj data) =>
      ret (dict_get data "text" (dict_get data "verse" (JStr "")))
  | _ => ret JNull
  end.

(** Lines 183-198: [for attempt in range(3)].  The pair is
    [(book_added, total_added)]. *)
Fixpoint insert_attempts (attempts : list Z) (translation_id : string)
    (book_id chapter : Z) (verse_num text : json) (counters : Z * Z)
  : M (Z * Z) :=
  match attempts with
  | [] => ret counters
  | attempt :: later =>
      try_except
        (execute_insert translation_id book_id chapter verse_num text ;;
         ret (fst counters + 1, snd counters + 1))
        (fun e =>
           match e with
           | IntegrityError => ret counters          (* already exists *)
           | OperationalError msg =>
               if contains "locked" msg && (attempt <? 2)
               then sleep 1000 ;;                    (* wait and retry *)
                    insert_attempts later translation_id book_id chapter
                      verse_num text counters
               else raise e
           | _ => raise e
           end)
  end.

(** Lines 176-198: the body of [for v in chapter_verses]. *)
Definition write_entry (translation_id : string) (book_id chapter : Z)
    (existing : list key) (v : json) (counters : Z * Z) : M (Z * Z) :=
  match v with
  | JObj fields =>
      let verse_num := dict_get fields "verse" (dict_get fields "number" (JNum 0)) in
      let text := dict_get fields "text" (JStr "") in
      if negb (truthy verse_num) || negb (truthy text) then ret counters
      else if negb (hashable verse_num) then raise TypeError
      else if negb (in_existing chapter verse_num existing)
      then insert_attempts (range 0 3) translation_id book_id chapter
             verse_num text counters
      else ret counters
  | _ => raise AttributeError                         (* [v.get] *)
  end.

Fixpoint write_entries (translation_id : string) (book_id chapter : Z)
    (existing : list key) (entries : list json) (counters : Z * Z)
  : M (Z * Z) :=
  match entries with
  | [] => ret counters
  | v :: later =>
      counters' <- write_entry translation_id book_id chapter existing v counters ;;
      write_entries translation_id book_id chapter existing later counters'
  end.

(** Lines 172-201: the body of [for chapter in range(1, num_chapters + 1)]. *)
Definition repair_chapter (translation_id translation_code : string)
    (book_id : Z) (book_api : string) (existing : list key) (chapter : Z)
    (counters : Z * Z) : M (Z * Z) :=
  chapter_verses <- download_chapter translation_code book_api chapter ;;
  counters' <-
    (if truthy chapter_verses
     then match py_iter chapter_verses with
          | Some entries =>
              write_entries translation_id book_id chapter existing entries counters
          | None => raise TypeError
          end
     else ret counters) ;;
  sleep 100 ;;                                        (* small delay between chapters *)
  ret counters'.

Fixpoint repair_chapters (translation_id translation_code : string)
    (book_id : Z) (book_api : string) (existing : list key)
    (chapters : list Z) (counters : Z * Z) : M (Z * Z) :=
  match chapters with
  | [] => ret counters
  | chapter :: later =>
      counters' <- repair_chapter translation_id translation_code book_id
                     book_api existing chapter counters ;;
      repair_chapters translation_id translation_code book_id book_api
        existing later counters'
  end.

(** Lines 204-213: [for attempt in range(5)]. *)
Fixpoint commit_attempts (attempts : list Z) : M unit :=
  match attempts with
  | [] => ret tt
  | attempt :: later =>
      try_except commit
        (fun e =>
           match e with
           | OperationalError msg =>
               if contains "locked" msg && (attempt <? 4)
               then print LogCommitLocked ;;
                    sleep 2000 ;;
                    commit_attempts later
               else raise e
           | _ => raise e
           end)
  end.

(** Lines 167-218: the rest of the loop body for a document found
    incomplete. *)
Definition repair_incomplete (translation_id translation_code : string)
    (book_id : Z) (book_name book_api : string) (existing : list key)
    (expected_total num_chapters : Z) (t : tally) : M tally :=
  print (LogRepairing book_name (len existing) expected_total) ;;
  counters <- repair_chapters translation_id translation_code book_id
                book_api existing (range 1 num_chapters)
                (0, total_added t) ;;
  let book_added := fst counters in
  commit_attempts (range 0 5) ;;
  (if book_added >? 0 then print (LogAdded book_added) else ret tt) ;;
  ret (mkTally (snd counters)
         (total_missing t
          + Z.max 0 (expected_total - len existing - book_added))
         (repaired t ++
            [mkStats book_name (len existing) expected_total book_added])).

(** Lines 154-218: the body of [for book_id, book_name in books]. *)
Definition repair_book (translation_id translation_code : string)
    (book : Z * string) (t : tally) : M tally :=
  let (book_id, book_name) := book in
  match lookup book_name BOOK_NAMES with
  | Some (String _ _ as book_api) =>
      existing <- get_existing_verses translation_id book_id ;;
      let expected_total := dict_get VERSE_COUNTS book_name 0 in
      let num_chapters := dict_get CHAPTERS book_name 0 in
      if is_complete (len existing) expected_total
      then print (LogComplete book_name (len existing)) ;;
           ret t
      else repair_incomplete translation_id translation_code book_id
             book_name book_api existing expected_total num_chapters t
  | _ =>
      print (LogUnknownBook book_name) ;;
      ret t
  end.

Fixpoint repair_books (translation_id translation_code : string)
    (todo : list (Z * string)) (t : tally) : M tally :=
  match todo with
  | [] => ret t
  | book :: later =>
      t' <- repair_book translation_id translation_code book t ;;
      repair_books translation_id translation_code later t'
  end.

(** Lines 137-220.  The script returns nothing; the final counters are
    returned here next to the summary line that prints them. *)
Definition repair_translation (translation_id : string) : M (option tally) :=
  match lookup translation_id TRANSLATIONS with
  | Some (String _ _ as translation_code) =>
      todo <- select_books ;;
      t <- repair_books translation_id translation_code todo (mkTally 0 0 []) ;;
      print (LogSummary translation_id (total_added t) (total_missing t)) ;;
      ret (Some t)
  | _ =>
      print (LogUnknownTranslation translation_id) ;;
      ret None
  end.

End Repair.

(* ===================================================================== *)
(** ** The builder, [scripts/build_bible_database.py]: text of a verse

    Strings are sequences of code points below 256. *)

(** Pure code returns a value or raises. *)
Definition rbind {A B : Type} (r : result A) (k : A -> result B) : result B :=
  match r with
  | Ok a => k a
  | Raise e => Raise e
  end.

(** [text += v]: only a string can be appended to a string. *)
Definition as_str (v : json) : result string :=
  match v with
  | JStr s => Ok s
  | _ => Raise TypeError
  end.

(** The strings of a list, one after the other. *)
Definition join (l : list string) : string := fold_right String.append "" l.

(** The keys of a dictionary, each once, in the order of their first
    binding. *)
Fixpoint dict_keys {A : Type} (d : list (string * A)) : list string :=
  match d with
  | [] => []
  | (k, _) :: rest => k :: filter (fun k' => negb (k' =? k)%string) (dict_keys rest)
  end.

(** Lines 318-329.  The loop runs over [iter(content_list)]: the items of
    a list, the characters of a string, the keys of a dict.  The
    recursive call on [item["content"]] walks the bindings of the item to
    the first one of that key. *)
Fixpoint extract_verse_text (content_list : json) : result string :=
  match content_list with
  | JArr items =>
      (fix loop (l : list json) : result string :=
         match l with
         | [] => Ok ""
         | item :: rest =>
             rbind
               match item with
               | JStr s => Ok s
               | JObj fields =>
                   rbind
                     match lookup "text" fields with
                     | Some v => as_str v
                     | None => Ok ""
                     end
                     (fun text =>
                        rbind
                          ((fix content (bindings : list (string * json))
                              : result string :=
                              match bindings with
                              | [] => Ok ""
                              | (k, v) :: more =>
                                  if ("content" =? k)%string
                                  then extract_verse_text v
                                  else content more
                              end) fields)
                          (fun nested => Ok (text ++ nested)%string))
               | _ => Ok ""
               end
               (fun first =>
                  rbind (loop rest) (fun others => Ok (first ++ others)%string))
         end) items
  | JStr s => Ok s
  | JObj fields => Ok (join (dict_keys fields))
  | JNull | JBool _ | JNum _ => Raise TypeError
  end.

(* ===================================================================== *)
(** ** The builder: the books, the chapter of the provider, the download *)

(** An entry of [BOOKS]. *)
Record book_info : Type := mkBook {
  b_id : Z;
  b_name : string;
  b_abbrev : string;
  b_testament : string;
  b_chapters : Z
}.

Definition BOOKS : list book_info :=
  [
    mkBook 1 "Genesis" "Gen" "OT" 50;
    mkBook 2 "Exodus" "Exod" "OT" 40;
    mkBook 3 "Leviticus" "Lev" "OT" 27;
    mkBook 4 "Numbers" "Num" "OT" 36;
    mkBook 5 "Deuteronomy" "Deut" "OT" 34;
    mkBook 6 "Joshua" "Josh" "OT" 24;
    mkBook 7 "Judges" "Judg" "OT" 21;
    mkBook 8 "Ruth" "Ruth" "OT" 4;
    mkBook 9 "1 Samuel" "1Sam" "OT" 31;
    mkBook 10 "2 Samuel" "2Sam" "OT" 24;
    mkBook 11 "1 Kings" "1Kgs" "OT" 22;
    mkBook 12 "2 Kings" "2Kgs" "OT" 25;
    mkBook 13 "1 Chronicles" "1Chr" "OT" 29;
    mkBook 14 "2 Chronicles" "2Chr" "OT" 36;
    mkBook 15 "Ezra" "Ezra" "OT" 10;
    mkBook 16 "Nehemiah" "Neh" "OT" 13;
    mkBook 17 "Esther" "Esth" "OT" 10;
    mkBook 18 "Job" "Job" "OT" 42;
    mkBook 19 "Psalms" "Ps" "OT" 150;
    mkBook 20 "Proverbs" "Prov" "OT" 31;
    mkBook 21 "Ecclesiastes" "Eccl" "OT" 12;
    mkBook 22 "Song of Solomon" "Song" "OT" 8;
    mkBook 23 "Isaiah" "Isa" "OT" 66;
    mkBook 24 "Jeremiah" "Jer" "OT" 52;
    mkBook 25 "Lamentations" "Lam" "OT" 5;
    mkBook 26 "Ezekiel" "Ezek" "OT" 48;
    mkBook 27 "Daniel" "Dan" "OT" 12;
    mkBook 28 "Hosea" "Hos" "OT" 14;
    mkBook 29 "Joel" "Joel" "OT" 3;
    mkBook 30 "Amos" "Amos" "OT" 9;
    mkBook 31 "Obadiah" "Obad" "OT" 1;
    mkBook 32 "Jonah" "Jonah" "OT" 4;
    mkBook 33 "Micah" "Mic" "OT" 7;
    mkBook 34 "Nahum" "Nah" "OT" 3;
    mkBook 35 "Habakkuk" "Hab" "OT" 3;
    mkBook 36 "Zephaniah" "Zeph" "OT" 3;
    mkBook 37 "Haggai" "Hag" "OT" 2;
    mkBook 38 "Zechariah" "Zech" "OT" 14;
    mkBook 39 "Malachi" "Mal" "OT" 4;
    mkBook 40 "Matthew" "Matt" "NT" 28;
    mkBook 41 "Mark" "Mark" "NT" 16;
    mkBook 42 "Luke" "Luke" "NT" 24;
    mkBook 43 "John" "John" "NT" 21;
    mkBook 44 "Acts" "Acts" "NT" 28;
    mkBook 45 "Romans" "Rom" "NT" 16;
    mkBook 46 "1 Corinthians" "1Cor" "NT" 16;
    mkBook 47 "2 Corinthians" "2Cor" "NT" 13;
    mkBook 48 "Galatians" "Gal" "NT" 6;
    mkBook 49 "Ephesians" "Eph" "NT" 6;
    mkBook 50 "Philippians" "Phil" "NT" 4;
    mkBook 51 "Colossians" "Col" "NT" 4;
    mkBook 52 "1 Thessalonians" "1Thess" "NT" 5;
    mkBook 53 "2 Thessalonians" "2Thess" "NT" 3;
    mkBook 54 "1 Timothy" "1Tim" "NT" 6;
    mkBook 55 "2 Timothy" "2Tim" "NT" 4;
    mkBook 56 "Titus" "Titus" "NT" 3;
    mkBook 57 "Philemon" "Phlm" "NT" 1;
    mkBook 58 "Hebrews" "Heb" "NT" 13;
    mkBook 59 "James" "Jas" "NT" 5;
    mkBook 60 "1 Peter" "1Pet" "NT" 5;
    mkBook 61 "2 Peter" "2Pet" "NT" 3;
    mkBook 62 "1 John" "1John" "NT" 5;
    mkBook 63 "2 John" "2John" "NT" 1;
    mkBook 64 "3 John" "3John" "NT" 1;
    mkBook 65 "Jude" "Jude" "NT" 1;
    mkBook 66 "Revelation" "Rev" "NT" 22  ].

(** [str.isspace] for one character. *)
Definition is_space (c : ascii) : bool :=
  let n := N_of_ascii c in
  ((9 <=? n) && (n <=? 13) || (28 <=? n) && (n <=? 32) || (n =? 133) || (n =? 160))%N.

(** [s.lstrip()], [s.rstrip()] and [s.strip()]. *)
Fixpoint lstrip (s : string) : string :=
  match s with
  | EmptyString => EmptyString
  | String c rest => if is_space c then lstrip rest else s
  end.

Fixpoint rstrip (s : string) : string :=
  match s with
  | EmptyString => EmptyString
  | String c rest =>
      match rstrip rest with
      | EmptyString => if is_space c then EmptyString else String c EmptyString
      | kept => String c kept
      end
  end.

Definition strip (s : string) : string := rstrip (lstrip s).

(** [s.replace(" ", "%20")] *)
Fixpoint replace_spaces (s : string) : string :=
  match s with
  | EmptyString => EmptyString
  | String c rest =>
      if Ascii.eqb c " "%char
      then String "%" (String "2" (String "0" (replace_spaces rest)))
      else String c (replace_spaces rest)
  end.

(** The body of a [try] whose [except Exception] returns a default: [None]
    stands for any exception. *)

(** [key in container] *)
Definition py_in (key : string) (container : json) : option bool :=
  match container with
  | JObj fields => Some (match lookup key fields with Some _ => true | None => false end)
  | JArr items =>
      Some (existsb (fun item => match item with
                                 | JStr s => (s =? key)%string
                                 | _ => false
                                 end) items)
  | JStr s => Some (contains key s)
  | JNull | JBool _ | JNum _ => None
  end.

(** [container[key]] for a string key. *)
Definition py_getitem (container : json) (key : string) : option json :=
  match container with
  | JObj fields => lookup key fields
  | _ => None
  end.

(** [v == s] for a string [s]. *)
Definition eq_str (v : json) (s : string) : bool :=
  match v with
  | JStr s' => (s' =? s)%string
  | _ => false
  end.

(** Lines 306-310: what one item of the chapter adds to [verses]. *)
Definition verse_entry (item : json) : option (list (json * string)) :=
  match item with
  | JObj fields =>
      if eq_str (dict_get fields "type" JNull) "verse"
      then
        let verse_num := dict_get fields "number" (JNum 0) in
        match extract_verse_text (dict_get fields "content" (JArr [])) with
        | Ok verse_text =>
            if truthy verse_num && negb (verse_text =? "")%string
            then Some [(verse_num, strip verse_text)]
            else Some []
        | Raise _ => None
        end
      else Some []
  | _ => None                                        (* [item.get] *)
  end.

Fixpoint collect_verses (items : list json) : option (list (json * string)) :=
  match items with
  | [] => Some []
  | item :: later =>
      match verse_entry item with
      | Some entry =>
          match collect_verses later with
          | Some entries => Some (entry ++ entries)
          | None => None
          end
      | None => None
      end
  end.

(** Lines 303-312: the verses of a decoded document. *)
Definition chapter_verses_of (data : json) : option (list (json * string)) :=
  match py_in "chapter" data with
  | None => None
  | Some false => Some []
  | Some true =>
      match py_getitem data "chapter" with
      | None => None
      | Some chapter =>
          match py_in "content" chapter with
          | None => None
          | Some false => Some []
          | Some true =>
              match py_getitem chapter "content" with
              | None => None
              | Some content =>
                  match py_iter content with
                  | None => None
                  | Some items => collect_verses items
                  end
              end
          end
      end
  end.

(** Lines printed by the builder. *)
Inductive build_line : Type :=
| BLogDownloading (translation_id : string)
| BLogProgress (book_name : string) (chapter chapters : Z)
| BLogBook (book_name : string) (book_verses : Z)
| BLogTotal (total_verses : Z).

(** Events of the builders: the store operations of the repair script, the
    requests to [bible.helloao.org] and to [bible-api.com], the printed
    lines. *)
Inductive build_event : Type :=
| BStore (e : event)
| BRequest (translation_source api_book_name : string) (chapter : Z)
| BFetchChapter (book_name : string) (chapter : Z) (api_id : string)
| BPrint (line : build_line).

Record build_outcome (A : Type) : Type := mkBuild {
  bres : result A;
  bfinal : db;
  bout : list build_event
}.
Arguments mkBuild {A} bres bfinal bout.
Arguments bres {A} b.
Arguments bfinal {A} b.
Arguments bout {A} b.

Definition B (A : Type) : Type := db -> build_outcome A.

Definition bret {A : Type} (a : A) : B A :=
  fun d => mkBuild (Ok a) d [].

Definition bbind {A C : Type} (c : B A) (k : A -> B C) : B C :=
  fun d =>
    let o := c d in
    match bres o with
    | Ok a => let o' := k a (bfinal o) in
              mkBuild (bres o') (bfinal o') (bout o ++ bout o')
    | Raise e => mkBuild (Raise e) (bfinal o) (bout o)
    end.

Definition bemit (e : build_event) : B unit :=
  fun d => mkBuild (Ok tt) d [e].

Definition bprint (line : build_line) : B unit := bemit (BPrint line).

(** A store operation of the repair script, run by the builder. *)
Definition lift {A : Type} (c : M A) : B A :=
  fun d => let o := c d in mkBuild (res o) (final o) (map BStore (out o)).

Declare Scope build_scope.
Delimit Scope build_scope with build.
Notation "x <- c ;; k" := (bbind c (fun x => k))
  (at level 61, c at next level, right associativity) : build_scope.
Notation "c ;; k" := (bbind c (fun _ => k))
  (at level 61, right associativity) : build_scope.

Section Builder.

(** The provider, as a function of the address requested:
    [https://bible.helloao.org/api/{translation_source}/{api_book_name}/{chapter}.json]. *)
Variable helloao : string -> string -> Z -> response.

(** Lines 285-315. *)
Definition fetch_bible_text (translation_source : string) (book_id chapter : Z)
  : B (list (json * string)) :=
  match find (fun b => b_id b =? book_id) BOOKS with
  | None => bret []
  | Some book =>
      let api_book_name := replace_spaces (b_name book) in
      (bemit (BRequest translation_source api_book_name chapter) ;;
       match helloao translation_source api_book_name chapter with
       | Payload data =>
           match chapter_verses_of data with
           | Some verses => bret verses
           | None => bret []
           end
       | _ => bret []
       end)%build
  end.

(** Lines 344-349: [for verse_num, verse_text in verses]. *)
Fixpoint insert_verses (translation_id : string) (book_id chapter : Z)
    (verses : list (json * string)) (book_verses : Z) : B Z :=
  match verses with
  | [] => bret book_verses
  | (verse_num, verse_text) :: later =>
      (lift (execute_insert translation_id book_id chapter verse_num (JStr verse_text)) ;;
       insert_verses translation_id book_id chapter later (book_verses + 1))%build
  end.

(** Lines 341-353: the body of [for chapter in range(1, book["chapters"] + 1)]. *)
Definition download_book_chapter (translation_id translation_source : string)
    (book : book_info) (chapter : Z) (book_verses : Z) : B Z :=
  (verses <- fetch_bible_text translation_source (b_id book) chapter ;;
   book_verses' <- insert_verses translation_id (b_id book) chapter verses book_verses ;;
   (if chapter mod 10 =? 0
    then bprint (BLogProgress (b_name book) chapter (b_chapters book))
    else bret tt) ;;
   bret book_verses')%build.

Fixpoint download_book_chapters (translation_id translation_source : string)
    (book : book_info) (chapters : list Z) (book_verses : Z) : B Z :=
  match chapters with
  | [] => bret book_verses
  | chapter :: later =>
      (book_verses' <- download_book_chapter translation_id translation_source
                         book chapter book_verses ;;
       download_book_chapters translation_id translation_source book later
         book_verses')%build
  end.

(** Lines 339-356: the body of [for book in BOOKS]. *)
Definition download_book (translation_id translation_source : string)
    (book : book_info) (total_verses : Z) : B Z :=
  (book_verses <- download_book_chapters translation_id translation_source book
                    (range 1 (b_chapters book)) 0 ;;
   bprint (BLogBook (b_name book) book_verses) ;;
   bret (total_verses + book_verses))%build.

Fixpoint download_books (translation_id translation_source : string)
    (todo : list book_info) (total_verses : Z) : B Z :=
  match todo with
  | [] => bret total_verses
  | book :: later =>
      (total_verses' <- download_book translation_id translation_source book
                          total_verses ;;
       download_books translation_id translation_source later total_verses')%build
  end.

(** Lines 332-360. *)
Definition download_translation (translation_id translation_source : string) : B Z :=
  (bprint (BLogDownloading translation_id) ;;
   total_verses <- download_books translation_id translation_source BOOKS 0 ;;
   lift commit ;;
   bprint (BLogTotal total_verses) ;;
   bret total_verses)%build.

End Builder.

(** [build_bible_simple.py] *)
Module Simple.

(** Line 157: the pair [(v["verse"], v["text"].strip())]. *)
Definition verse_pair (v : json) : option (json * string) :=
  match py_getitem v "verse" with
  | None => None
  | Some verse =>
      match py_getitem v "text" with
      | Some (JStr text) => Some (verse, strip text)
      | _ => None
      end
  end.

Fixpoint verse_pairs (items : list json) : option (list (json * string)) :=
  match items with
  | [] => Some []
  | v :: later =>
      match verse_pair v with
      | Some entry =>
          match verse_pairs later with
          | Some pairs => Some (entry :: pairs)
          | None => None
          end
      | None => None
      end
  end.

(** Lines 154-158. *)
Definition chapter_pairs_of (data : json) : option (list (json * string)) :=
  match py_in "verses" data with
  | None => None
  | Some false => Some []
  | Some true =>
      match py_getitem data "verses" with
      | None => None
      | Some verses =>
          match py_iter verses with
          | None => None
          | Some items => verse_pairs items
          end
      end
  end.

(** Lines 142-160.  The provider is a function of the address requested,
    [https://bible-api.com/{book_name}+{chapter}?translation={api_id}]
    with the spaces of the name replaced; [book_api] (line 145) is not
    used. *)
Definition fetch_chapter (bible_api : string -> Z -> string -> response)
    (api_id book_name : string) (chapter : Z) : B (list (json * string)) :=
  (bemit (BFetchChapter (replace_spaces book_name) chapter api_id) ;;
   match bible_api (replace_spaces book_name) chapter api_id with
   | Payload data =>
       match chapter_pairs_of data with
       | Some verses => bret verses
       | None => bret []
       end
   | _ => bret []
   end)%build.

End Simple.

(* ===================================================================== *)
(** ** Vocabulary of the statements *)

Definition is_ok {A : Type} (r : result A) : bool :=
  match r with Ok _ => true | Raise _ => false end.

Definition is_insert (e : event) : bool :=
  match e with EvInsert _ _ => true | _ => false end.

Definition is_fetch_chapter (e : event) : bool :=
  match e with EvFetchChapter _ _ _ => true | _ => false end.

Definition is_fetch_verse (e : event) : bool :=
  match e with EvFetchVerse _ _ _ _ => true | _ => false end.




(** A stored unit with a nonzero unit number and a non-empty text. *)
Definition unit_row (r : row) : Prop :=
  r_verse r <> SNull /\ r_verse r <> SInt 0 /\
  r_text r <> SNull /\ r_text r <> SText "".

(** The message of a lock error: ['locked' in str(e)]. *)
Definition is_lock (msg : string) : bool := contains "locked" msg.

(** A fault schedule without any fault. *)
Definition calm (schedule : list (option string)) : Prop :=
  Forall (fun f => f = None) schedule.

(** [existingCount / expectedCount >= 0.95] over the rationals. *)
Definition ratio_reached (existing_count expected_total : Z) : Prop :=
  (95 # 100 <= inject_Z existing_count / inject_Z expected_total)%Q.

(** A computation whose every run is related by [R]: initial database,
    emitted events, final database. *)
Definition respects {A : Type} (R : db -> list event -> db -> Prop) (c : M A) : Prop :=
  forall d, R d (out (c d)) (final (c d)).

(** A row as the store takes it when the number and the text that were
    sent count as true: the values are bound by the adapter and converted
    to the affinity of their columns. *)
Definition sent_row (e : sqlite) (r : row) : Prop :=
  exists verse_num text verse txt,
    truthy verse_num = true /\ truthy text = true /\
    bind_param verse_num = Ok verse /\ bind_param text = Ok txt /\
    r_verse r = integer_affinity e verse /\ r_text r = text_affinity e txt.

(** What a relation must allow for the writes of a chapter to respect it:
    it is closed under sequencing and admits each primitive step of the
    write path, the insertion of such rows included. *)
Record entry_safety (R : db -> list event -> db -> Prop) : Prop := mkEntrySafety {
  sf_refl : forall d, R d [] d;
  sf_trans : forall d1 t1 d2 t2 d3,
      R d1 t1 d2 -> R d2 t2 d3 -> R d1 (t1 ++ t2) d3;
  sf_sleep : forall d ms, R d [EvSleep ms] d;
  sf_insert_failed : forall d r e,
      sent_row (engine d) r -> R d [EvInsert r (Some e)] (snd (next_fault d));
  sf_insert : forall d r,
      sent_row (engine d) r -> R d [EvInsert r None] (appended r (snd (next_fault d)))
}.

(** The same for the chapter loop, which also sends chapter requests. *)
Record chapter_safety (R : db -> list event -> db -> Prop) : Prop := mkChapterSafety {
  sf_entry : entry_safety R;
  sf_fetch : forall d code api chapter, R d [EvFetchChapter code api chapter] d
}.

(** The same for the whole pass, which also prints, reads and commits. *)
Record safety (R : db -> list event -> db -> Prop) : Prop := mkSafety {
  sf_chapter : chapter_safety R;
  sf_print : forall d line, R d [EvPrint line] d;
  sf_select_books : forall d f, R d [EvSelectBooks f] (snd (next_fault d));
  sf_scan : forall d tid bid f, R d [EvScan tid bid f] (snd (next_fault d));
  sf_commit_failed : forall d e, R d [EvCommit (Some e)] (snd (next_fault d));
  sf_commit : forall d, R d [EvCommit None] (committed (snd (next_fault d)))
}.

(** The rows that the successful inserts of a trace wrote, in order. *)
Definition inserted (t : list event) : list row :=
  flat_map (fun e => match e with EvInsert r None => [r] | _ => [] end) t.

Definition prefix {A : Type} (p l : list A) : Prop := exists rest, l = p ++ rest.

(** The store only grows: the books table is left alone, the rows seen
    by the connection are the former rows followed by the rows of the
    successful inserts, and the durable rows are extended as well. *)
Definition grows (d : db) (t : list event) (d' : db) : Prop :=
  books d' = books d /\
  verses d' = verses d ++ inserted t /\
  (prefix (durable d) (verses d) ->
   prefix (durable d) (durable d') /\ prefix (durable d') (verses d')).

(** Every insert of the trace, attempted or successful, carries a row
    whose number and text were sent as values that count as true. *)
Definition event_unit (e : sqlite) (ev : event) : Prop :=
  match ev with EvInsert r _ => sent_row e r | _ => True end.

Definition writes_units (d : db) (t : list event) (d' : db) : Prop :=
  engine d' = engine d /\
  Forall (event_unit (engine d)) t /\ verses d' = verses d ++ inserted t.



(** No single-verse request is among the events. *)
Definition no_verse_fetch (d : db) (t : list event) (d' : db) : Prop :=
  existsb is_fetch_verse t = false.

(** The two fields that lines 176-177 read from an entry. *)
Definition verse_num_of (fields : list (string * json)) : json :=
  dict_get fields "verse" (dict_get fields "number" (JNum 0)).

Definition text_of (fields : list (string * json)) : json :=
  dict_get fields "text" (JStr "").


(** The same for commits: the failed attempt, the printed warning and the
    two-second wait. *)
Definition commit_retries (locks : list string) : list event :=
  flat_map (fun msg => [EvCommit (Some (OperationalError msg));
                        EvPrint LogCommitLocked; EvSleep 2000]) locks.

Definition all_locks (locks : list string) : Prop :=
  Forall (fun msg => is_lock msg = true) locks.

(** Some attempt number of the loop is at least [bound], so that a lock
    error at that attempt is raised instead of being retried. *)
Definition gives_up (bound : Z) (attempts : list Z) : bool :=
  existsb (fun attempt => bound <=? attempt) attempts.

(** The [except Exception] branch of [download_chapter] is taken: the
    request failed, timed out, or the body is not a JSON object. *)
Definition fetch_failed (r : response) : bool :=
  match r with
  | Payload (JObj _) => false
  | _ => true
  end.







(** The number of rows of the table with the key of [r]. *)
Definition key_count (r : row) (table : list row) : nat :=
  List.length (filter (same_key r) table).

(** The least integer that is at least 95% of [expected_total]. *)
Definition least_complete (expected_total : Z) : Z := (19 * expected_total + 19) / 20.

(** A check, by computation, that the binary64 product [expected_total *
    0.95] separates the integers exactly as the rational 95% does: the
    product is a positive float [m * 2^ex] with [ex < 0] that lies in the
    interval [(c - 1, c]] for [c = least_complete expected_total]. *)
Definition threshold_is_exact (expected_total : Z) : bool :=
  match threshold expected_total with
  | S754_finite false m ex =>
      (ex <? 0) &&
      ((least_complete expected_total - 1) * 2 ^ (- ex) <? Zpos m) &&
      (Zpos m <=? least_complete expected_total * 2 ^ (- ex))
  | _ => false
  end.

(** The chapter requests of a trace, in order. *)
Definition fetched (t : list event) : list event := filter is_fetch_chapter t.

(** The existing-state set that [get_existing_verses] computes from a
    table. *)
Definition scanned (translation_id : string) (book_id : Z) (table : list row)
  : list key :=
  to_set (map (fun r => (r_chapter r, r_verse r))
            (filter (fun r => (r_translation r =? translation_id)%string
                              && (r_book r =? book_id))
               table)).

(** No chapter request is among the events. *)
Definition no_chapter_fetch (d : db) (t : list event) (d' : db) : Prop :=
  fetched t = [].

(** What [download_chapter] returns for a chapter. *)
Definition chapter_payload (cdn_chapter : string -> string -> Z -> response)
    (translation_code book_api : string) (chapter : Z) : json :=
  match cdn_chapter translation_code book_api chapter with
  | Payload (JObj data) => dict_get data "verses" (dict_get data "data" (JArr []))
  | _ => JNull
  end.

(** An entry that a table leaves nothing to do for: it is an object that
    line 179 skips, or its key is among the keys of the table. *)
Definition entry_settled (translation_id : string) (book_id : Z)
    (table : list row) (chapter : Z) (v : json) : Prop :=
  exists fields,
    v = JObj fields /\
    (negb (truthy (verse_num_of fields)) || negb (truthy (text_of fields)) = true \/
     (hashable (verse_num_of fields) = true /\
      in_existing chapter (verse_num_of fields)
        (scanned translation_id book_id table) = true)).

Definition chapter_settled (cdn_chapter : string -> string -> Z -> response)
    (translation_id translation_code : string) (book_id : Z) (book_api : string)
    (table : list row) (chapter : Z) : Prop :=
  let chapter_verses := chapter_payload cdn_chapter translation_code book_api chapter in
  truthy chapter_verses = false \/
  exists entries,
    py_iter chapter_verses = Some entries /\
    Forall (entry_settled translation_id book_id table chapter) entries.

(** A document that a table leaves nothing to write for: it has no
    provider name, or the table holds enough of it to pass the
    completeness test, or every entry of every chapter is settled. *)
Definition book_settled (cdn_chapter : string -> string -> Z -> response)
    (translation_id translation_code : string) (table : list row)
    (book : Z * string) : Prop :=
  match lookup (snd book) BOOK_NAMES with
  | Some (String _ _ as book_api) =>
      is_complete (len (scanned translation_id (fst book) table))
        (dict_get VERSE_COUNTS (snd book) 0) = true \/
      Forall (chapter_settled cdn_chapter translation_id translation_code
                (fst book) book_api table)
        (range 1 (dict_get CHAPTERS (snd book) 0))
  | _ => True
  end.

(** A run that writes nothing: the tables are unchanged, no insert is
    even attempted, and without a fault in the schedule it returns
    normally. *)
Definition quiet {A : Type} (d : db) (o : outcome A) : Prop :=
  verses (final o) = verses d /\ books (final o) = books d /\
  existsb is_insert (out o) = false /\
  (calm (faults d) -> is_ok (res o) = true /\ calm (faults (final o))).

(* ===================================================================== *)
(** ** A scenario: Ruth, with 80 of its 85 verses stored *)

Definition ruth_chapters : list (Z * Z) := [(1, 22); (2, 23); (3, 18); (4, 22)].

(** The provider's chapter file: every verse of the chapter under ["data"]. *)
Definition ruth_payload (verse_count : Z) : json :=
  JObj [("data",
         JArr (map (fun v => JObj [("verse", JNum v); ("text", JStr "text of the verse")])
                 (range 1 verse_count)))].

Definition ruth_cdn (translation_code book_api : string) (chapter : Z) : response :=
  if (translation_code =? "en-kjv")%string && (book_api =? "ruth")%string
  then match find (fun cv => fst cv =? chapter) ruth_chapters with
       | Some (_, verse_count) => Payload (ruth_payload verse_count)
       | None => UrlError
       end
  else Timeout.

Definition ruth_rows (chapter first_verse verse_count : Z) : list row :=
  map (fun v => mkRow "KJV" 8 chapter (SInt v) (SText "text of the verse"))
    (range first_verse verse_count).

(** Chapters 1 to 3 in full and the first 17 verses of chapter 4. *)
Definition ruth_80 : list row :=
  ruth_rows 1 1 22 ++ ruth_rows 2 1 23 ++ ruth_rows 3 1 18 ++ ruth_rows 4 1 17.

(** The value of a text of decimal digits. *)
Fixpoint digits_value (acc : Z) (s : string) : option Z :=
  match s with
  | EmptyString => Some acc
  | String c rest =>
      let n := Z.of_N (N_of_ascii c) in
      if (48 <=? n) && (n <=? 57) then digits_value (10 * acc + (n - 48)) rest else None
  end.

(** The engine of the scenarios.  Of all texts it takes those of one to
    eighteen decimal digits for numbers, which SQLite stores in an
    [INTEGER] column as the integers they denote; the scenarios store no
    other text in that column, and no [REAL] anywhere. *)
Definition sqlite_digits : sqlite :=
  mkSqlite
    (fun s => if (1 <=? Z.of_nat (String.length s)) && (Z.of_nat (String.length s) <=? 18)
              then option_map Integer (digits_value 0 s)
              else None)
    Real
    (fun _ => "").

(** A provider whose first chapter of Ruth holds one entry, numbered with
    the text ["0"]. *)
Definition zero_cdn (translation_code book_api : string) (chapter : Z) : response :=
  if (book_api =? "ruth")%string && (chapter =? 1)
  then Payload (JObj [("data", JArr [JObj [("verse", JStr "0");
                                           ("text", JStr "The book of Ruth")]])])
  else UrlError.

Definition ruth_store (schedule : list (option string)) : db :=
  mkDb [(8, "Ruth")] ruth_80 ruth_80 schedule sqlite_digits.

(** A computation all of whose events satisfy [P], whatever the store. *)
Definition emits {A : Type} (P : event -> Prop) (c : M A) : Prop :=
  forall d, Forall P (out (c d)).

(** An insert that belongs to the partition under repair: the row carries
    the translation of the pass, the id of a book of the books table whose
    name has a provider name, and a chapter of that book. *)
Definition insert_in_partition (translation_id : string)
    (table : list (Z * string)) (e : event) : Prop :=
  match e with
  | EvInsert r _ =>
      r_translation r = translation_id /\
      exists book_name,
        In (r_book r, book_name) table /\
        lookup book_name BOOK_NAMES <> None /\
        1 <= r_chapter r <= dict_get CHAPTERS book_name 0
  | _ => True
  end.

(** The same for a row. *)
Definition row_in_partition (translation_id : string)
    (table : list (Z * string)) (r : row) : Prop :=
  insert_in_partition translation_id table (EvInsert r None).

(** The counters [(book_added, total_added)] after a computation that
    emitted [t]: both moved by the number of rows that [t] inserted. *)
Definition counted_by (before after : Z * Z) (t : list event) : Prop :=
  fst after = fst before + len (inserted t) /\
  snd after = snd before + len (inserted t).

(** What one item of a content list adds to the text (lines 309-315). *)
Definition item_text (item : json) : result string :=
  match item with
  | JStr s => Ok s
  | JObj fields =>
      rbind
        match lookup "text" fields with
        | Some v => as_str v
        | None => Ok ""
        end
        (fun text =>
           rbind
             match lookup "content" fields with
             | Some v => extract_verse_text v
             | None => Ok ""
             end
             (fun nested => Ok (text ++ nested)%string))
  | _ => Ok ""
  end.

(** The texts of two parts of a content list, put together. *)
Definition rappend (a b : result string) : result string :=
  rbind a (fun x => rbind b (fun y => Ok (x ++ y)%string)).

(** An item that the loop looks at: a string or a dict. *)
Definition is_str_or_dict (item : json) : bool :=
  match item with
  | JStr _ | JObj _ => true
  | _ => false
  end.

(** Content that [extract_verse_text] can walk: it is iterable, the
    ["text"] of each dict item is a string and the ["content"] of each
    dict item is such content again. *)
Fixpoint content_ok (content_list : json) : bool :=
  match content_list with
  | JArr items =>
      (fix all (l : list json) : bool :=
         match l with
         | [] => true
         | item :: rest =>
             match item with
             | JObj fields =>
                 match lookup "text" fields with
                 | Some (JStr _) | None => true
                 | Some _ => false
                 end &&
                 (fix content (bindings : list (string * json)) : bool :=
                    match bindings with
                    | [] => true
                    | (k, v) :: more =>
                        if ("content" =? k)%string then content_ok v else content more
                    end) fields
             | _ => true
             end && all rest
         end) items
  | JStr _ | JObj _ => true
  | JNull | JBool _ | JNum _ => false
  end.

(** The same for one item. *)
Definition item_ok (item : json) : bool :=
  match item with
  | JObj fields =>
      match lookup "text" fields with
      | Some (JStr _) | None => true
      | Some _ => false
      end &&
      match lookup "content" fields with
      | Some v => content_ok v
      | None => true
      end
  | _ => true
  end.

(** Structural induction on decoded JSON. *)
Section JsonInduction.

Variable P : json -> Prop.
Hypothesis P_null : P JNull.
Hypothesis P_bool : forall b, P (JBool b).
Hypothesis P_num : forall z, P (JNum z).
Hypothesis P_str : forall s, P (JStr s).
Hypothesis P_arr : forall items, Forall P items -> P (JArr items).
Hypothesis P_obj : forall fields, Forall (fun kv => P (snd kv)) fields -> P (JObj fields).

Fixpoint json_induction (j : json) : P j :=
  match j with
  | JNull => P_null
  | JBool b => P_bool b
  | JNum z => P_num z
  | JStr s => P_str s
  | JArr items =>
      P_arr items
        ((fix all (l : list json) : Forall P l :=
            match l with
            | [] => Forall_nil P
            | x :: rest => Forall_cons x (json_induction x) (all rest)
            end) items)
  | JObj fields =>
      P_obj fields
        ((fix all (l : list (string * json)) : Forall (fun kv => P (snd kv)) l :=
            match l with
            | [] => Forall_nil _
            | (k, v) :: rest =>
                Forall_cons (P := fun kv => P (snd kv)) (k, v) (json_induction v) (all rest)
            end) fields)
  end.

End JsonInduction.

(** The store operations among the events of a builder, in order. *)
Definition store_events (t : list build_event) : list event :=
  flat_map (fun e => match e with BStore s => [s] | _ => [] end) t.

(** The rows that a builder wrote, in order. *)
Definition written (t : list build_event) : list row := inserted (store_events t).

(** The requests that a builder sent, in order. *)
Definition is_request (e : build_event) : bool :=
  match e with BRequest _ _ _ | BFetchChapter _ _ _ => true | _ => false end.

Definition requests (t : list build_event) : list build_event := filter is_request t.

(** An entry as [fetch_bible_text] returns them: a number that counts as
    true and a text without white space at either end. *)
Definition stripped_entry (entry : json * string) : Prop :=
  truthy (fst entry) = true /\ strip (snd entry) = snd entry.

(** A row as [download_translation] writes them. *)
Definition built_row (translation_id : string) (r : row) : Prop :=
  r_translation r = translation_id /\
  (exists book, In book BOOKS /\ r_book r = b_id book /\
                1 <= r_chapter r <= b_chapters book) /\
  r_verse r <> SNull /\
  exists text, r_text r = SText text /\ strip text = text.

(** An item of a chapter that [fetch_bible_text] can read: a dict, and if
    it is a verse, one whose content [extract_verse_text] can walk. *)
Definition readable_item (item : json) : bool :=
  match item with
  | JObj fields =>
      if eq_str (dict_get fields "type" JNull) "verse"
      then content_ok (dict_get fields "content" (JArr []))
      else true
  | _ => false
  end.

(** The items of a chapter as the provider documents them: verses with a
    number and a content of plain strings, and other dicts (headings,
    line breaks). *)
Inductive chapter_item : Type :=
| VerseItem (number : Z) (parts : list string)
| OtherItem (fields : list (string * json)).

Definition item_json (i : chapter_item) : json :=
  match i with
  | VerseItem number parts =>
      JObj [("type", JStr "verse"); ("number", JNum number);
            ("content", JArr (map JStr parts))]
  | OtherItem fields => JObj fields
  end.

Definition proper_item (i : chapter_item) : Prop :=
  match i with
  | VerseItem _ _ => True
  | OtherItem fields => eq_str (dict_get fields "type" JNull) "verse" = false
  end.

(** The verse of an item: none for a verse numbered 0 or without text. *)
Definition item_verse (i : chapter_item) : list (json * string) :=
  match i with
  | VerseItem number parts =>
      if (number =? 0) || (join parts =? "")%string then []
      else [(JNum number, strip (join parts))]
  | OtherItem _ => []
  end.

(** The requests of a full download: every chapter of every book, in the
    order of [BOOKS]. *)
Definition all_chapters (translation_source : string) : list build_event :=
  flat_map (fun book =>
              map (fun chapter =>
                     BRequest translation_source (replace_spaces (b_name book)) chapter)
                (range 1 (b_chapters book)))
    BOOKS.

(** A computation of the builder that only appends rows to the table of
    verses and makes nothing durable. *)
Definition appends {A : Type} (c : B A) : Prop :=
  forall d,
    let o := c d in
    books (bfinal o) = books d /\
    verses (bfinal o) = verses d ++ written (bout o) /\
    durable (bfinal o) = durable d /\
    engine (bfinal o) = engine d.

(** A counter that moves by the number of rows written. *)
Definition counts (start : Z) (c : B Z) : Prop :=
  forall d t, bres (c d) = Ok t -> t = start + len (written (bout (c d))).

(** A computation all of whose written rows satisfy [P]. *)
Definition writes {A : Type} (P : row -> Prop) (c : B A) : Prop :=
  forall d, Forall P (written (bout (c d))).

(** A computation whose result and events, when it returns, do not depend
    on the tables of the store it ran on. *)
Definition steady {A : Type} (c : B A) : Prop :=
  forall d d' a a',
    engine d = engine d' ->
    bres (c d) = Ok a -> bres (c d') = Ok a' -> a = a' /\ bout (c d) = bout (c d').

(** A computation that returns only after the given requests. *)
Definition asks {A : Type} (sent : list build_event) (c : B A) : Prop :=
  forall d, is_ok (bres (c d)) = true -> requests (bout (c d)) = sent.

(** What the provider has for a chapter of a book, as [fetch_bible_text]
    reads it. *)
Definition chapter_answer (helloao : string -> string -> Z -> response)
    (translation_source : string) (book : book_info) (chapter : Z)
  : list (json * string) :=
  match helloao translation_source (replace_spaces (b_name book)) chapter with
  | Payload data =>
      match chapter_verses_of data with
      | Some verses => verses
      | None => []
      end
  | _ => []
  end.

(** A row that the builder writes for a chapter of a book. *)
Definition chapter_row (translation_id : string) (book_id chapter : Z) (r : row) : Prop :=
  r_translation r = translation_id /\ r_book r = book_id /\ r_chapter r = chapter /\
  r_verse r <> SNull /\
  exists text, r_text r = SText text /\ strip text = text.

(** A provider that knows the first chapter of Genesis only. *)
Definition genesis_helloao (first_number : json) : string -> string -> Z -> response :=
  fun _ api_book_name chapter =>
    if (api_book_name =? "Genesis")%string && (chapter =? 1)
    then Payload
           (JObj [("chapter",
                   JObj [("number", JNum 1);
                         ("content",
                          JArr [JObj [("type", JStr "heading");
                                      ("content", JArr [JStr "The Creation"])];
                                JObj [("type", JStr "verse"); ("number", first_number);
                                      ("content", JArr [JStr "In the beginning "])];
                                JObj [("type", JStr "verse"); ("number", JNum 2);
                                      ("content",
                                       JArr [JStr "And the earth ";
                                             JObj [("text", JStr "was without form")]])]])])])
    else UrlError.

Definition empty_store : db := mkDb [] [] [] [] sqlite_digits.

(** An item that [fetch_chapter] of the simple builder can read: a dict
    with a ["verse"] and a string ["text"]. *)
Definition complete_item (v : json) : bool :=
  match v with
  | JObj fields =>
      match lookup "verse" fields, lookup "text" fields with
      | Some _, Some (JStr _) => true
      | _, _ => false
      end
  | _ => false
  end.

(** The number and the text of such an item. *)
Definition item_pair (v : json) : json * string :=
  match v with
  | JObj fields =>
      (dict_get fields "verse" JNull,
       match lookup "text" fields with
       | Some (JStr text) => strip text
       | _ => ""
       end)
  | _ => (JNull, "")
  end.

(** The books table as [insert_metadata] fills it (lines 273-279): the id
    and the name of each entry of [BOOKS]. *)
Definition built_books : list (Z * string) :=
  map (fun book => (b_id book, b_name book)) BOOKS.

(** An event of a pass over a store whose books were built: no warning of
    an unknown book, and only requests for a chapter that the builder
    counts for a book of [BOOKS], under its provider name. *)
Definition built_event (e : event) : Prop :=
  match e with
  | EvPrint (LogUnknownBook _) => False
  | EvFetchChapter _ book_api chapter =>
      exists book, In book BOOKS /\
                   lookup (b_name book) BOOK_NAMES = Some book_api /\
                   1 <= chapter <= b_chapters book
  | _ => True
  end.

(** The repair tables know a book of the builder. *)
Definition repairable (book : book_info) : bool :=
  match lookup (b_name book) BOOK_NAMES, lookup (b_name book) VERSE_COUNTS with
  | Some (String _ _), Some _ => dict_get CHAPTERS (b_name book) 0 =? b_chapters book
  | _, _ => false
  end.

(** A computation whose every exception satisfies [P]. *)
Definition raises_only {A : Type} (P : exn -> Prop) (c : M A) : Prop :=
  forall d e, res (c d) = Raise e -> P e.

(** A computation all of whose events satisfy [P] when it returns. *)
Definition when_ok {A : Type} (P : event -> Prop) (c : M A) : Prop :=
  forall d, is_ok (res (c d)) = true -> Forall P (out (c d)).

(** An entry of a chapter that the pass can examine: a dict, and when it
    has a number and a text, a number that can be looked up in the
    existing-state set. *)
Definition entry_ok (v : json) : bool :=
  match v with
  | JObj fields =>
      let verse_num := dict_get fields "verse" (dict_get fields "number" (JNum 0)) in
      let text := dict_get fields "text" (JStr "") in
      negb (truthy verse_num) || negb (truthy text) || hashable verse_num
  | _ => false
  end.

(** An answer of the CDN that the pass can work through: a failure, a
    document that is not an object, an object whose verses count as
    false, or an object whose verses can be walked and are all such
    entries. *)
Definition payload_ok (r : response) : bool :=
  match r with
  | Payload (JObj data) =>
      let chapter_verses := dict_get data "verses" (dict_get data "data" (JArr [])) in
      if truthy chapter_verses
      then match py_iter chapter_verses with
           | Some entries => forallb entry_ok entries
           | None => false
           end
      else true
  | _ => true
  end.

Definition sound_request (cdn_chapter : string -> string -> Z -> response)
    (e : event) : Prop :=
  match e with
  | EvFetchChapter translation_code book_api chapter =>
      payload_ok (cdn_chapter translation_code book_api chapter) = true
  | _ => True
  end.

(** The scans of a trace, in order. *)
Definition is_scan (e : event) : bool :=
  match e with EvScan _ _ _ => true | _ => false end.

Definition scans (t : list event) : list event := filter is_scan t.

(** A row of the books table whose name has a provider name. *)
Definition mapped (book : Z * string) : bool :=
  match lookup (snd book) BOOK_NAMES with
  | Some (String _ _) => true
  | _ => false
  end.

(** The engine is the same after a computation. *)
Definition keeps_engine (d : db) (t : list event) (d' : db) : Prop :=
  engine d' = engine d.

(** A verse number that reads back as it was sent: the value that the
    [INTEGER] column stores for it equals it in Python. *)
Definition number_kept (e : sqlite) (verse_num : json) : Prop :=
  forall verse, bind_param verse_num = Ok verse ->
                py_eq_stored verse_num (integer_affinity e verse) = true.

Definition entry_kept (e : sqlite) (v : json) : Prop :=
  forall fields, v = JObj fields -> number_kept e (verse_num_of fields).

(** A provider all of whose verse numbers read back as they were sent. *)
Definition answers_kept (e : sqlite)
    (cdn_chapter : string -> string -> Z -> response) : Prop :=
  forall translation_code book_api chapter entries,
    py_iter (chapter_payload cdn_chapter translation_code book_api chapter)
    = Some entries ->
    Forall (entry_kept e) entries.

(** A provider whose first chapter of Ruth numbers its two verses with
    texts, and which has no other chapter. *)
Definition text_cdn (translation_code book_api : string) (chapter : Z) : response :=
  if (book_api =? "ruth")%string && (chapter =? 1)
  then Payload (JObj [("data",
                       JArr [JObj [("verse", JStr "1"); ("text", JStr "Now it came to pass")];
                             JObj [("verse", JStr "2"); ("text", JStr "And the name")]])])
  else UrlError.

(* ===================================================================== *)
(** ** Basic facts *)

Lemma next_fault_books d : books (snd (next_fault d)) = books d.
Proof. unfold next_fault. destruct (faults d); reflexivity. Qed.

Lemma next_fault_verses d : verses (snd (next_fault d)) = verses d.
Proof. unfold next_fault. destruct (faults d); reflexivity. Qed.

Lemma next_fault_durable d : durable (snd (next_fault d)) = durable d.
Proof. unfold next_fault. destruct (faults d); reflexivity. Qed.

Lemma next_fault_calm d :
  calm (faults d) ->
  fst (next_fault d) = None /\ calm (faults (snd (next_fault d))).
Proof.
  unfold next_fault, calm. intros H.
  destruct (faults d) as [|f rest] eqn:E; simpl.
  - rewrite E. split; [reflexivity | constructor].
  - inversion H; subst. split; [reflexivity | assumption].
Qed.

Lemma next_fault_engine d : engine (snd (next_fault d)) = engine d.
Proof. unfold next_fault. destruct (faults d); reflexivity. Qed.

Lemma spec_float_eqb_eq f g : spec_float_eqb f g = true <-> f = g.
Proof.
  destruct f as [s|s| |s m e], g as [s'|s'| |s' m' e']; cbn [spec_float_eqb];
    split; intros H; try congruence; try discriminate.
  - apply Bool.eqb_prop in H. congruence.
  - inversion H. apply Bool.eqb_reflx.
  - apply Bool.eqb_prop in H. congruence.
  - inversion H. apply Bool.eqb_reflx.
  - apply andb_true_iff in H. destruct H as [H He].
    apply andb_true_iff in H. destruct H as [Hs Hm].
    apply Bool.eqb_prop in Hs. apply Pos.eqb_eq in Hm. apply Z.eqb_eq in He.
    congruence.
  - inversion H. rewrite Bool.eqb_reflx, Pos.eqb_refl, Z.eqb_refl. reflexivity.
Qed.

Lemma sqlval_eqb_eq a b : sqlval_eqb a b = true <-> a = b.
Proof.
  destruct a, b; simpl; split; intros H; try congruence; try discriminate.
  - apply Z.eqb_eq in H. congruence.
  - inversion H. apply Z.eqb_refl.
  - apply spec_float_eqb_eq in H. congruence.
  - inversion H. apply spec_float_eqb_eq. reflexivity.
  - apply String.eqb_eq in H. congruence.
  - inversion H. apply String.eqb_refl.
Qed.

Lemma key_eqb_eq (a b : key) : key_eqb a b = true <-> a = b.
Proof.
  destruct a as [c v], b as [c' v']. unfold key_eqb. simpl.
  rewrite andb_true_iff, Z.eqb_eq, sqlval_eqb_eq.
  split; [intros [-> ->]; reflexivity | intros H; inversion H; auto].
Qed.

Lemma key_is_unique_false : key_is_unique = false.
Proof. reflexivity. Qed.

(** The conversions keep a null null and make nothing else null. *)
Lemma integer_affinity_null e v : is_null (integer_affinity e v) = is_null v.
Proof.
  destruct v as [|z|f|s]; cbn [integer_affinity]; try reflexivity.
  - destruct (integer_real e f); reflexivity.
  - destruct (numeric_text e s) as [[]|]; reflexivity.
Qed.

Lemma text_affinity_null e v : is_null (text_affinity e v) = is_null v.
Proof. destruct v; reflexivity. Qed.

(** A value that counts as true is not bound as a null. *)
Lemma bind_param_truthy_not_null v sv :
  truthy v = true -> bind_param v = Ok sv -> is_null sv = false.
Proof.
  destruct v as [|b|z|s|items|fields]; cbn [truthy bind_param]; intros T E;
    try discriminate; try (inversion E; reflexivity).
  destruct (_ && _); inversion E. reflexivity.
Qed.

(** Under the schema only a null value makes an insert fail on a
    constraint. *)
Lemma violates_constraint_unit e r table :
  sent_row e r -> violates_constraint r table = false.
Proof.
  intros (v & t & sv & st & Hv & Ht & Bv & Bt & Ev & Et). unfold violates_constraint.
  rewrite key_is_unique_false, Ev, Et, integer_affinity_null, text_affinity_null,
    (bind_param_truthy_not_null _ _ Hv Bv), (bind_param_truthy_not_null _ _ Ht Bt).
  reflexivity.
Qed.

Lemma bind_param_unit e tid bid chapter v t sv st :
  truthy v = true -> truthy t = true ->
  bind_param v = Ok sv -> bind_param t = Ok st ->
  sent_row e (stored e (mkRow tid bid chapter sv st)).
Proof.
  intros Hv Ht Bv Bt. exists v, t, sv, st. repeat split; assumption.
Qed.

(* ===================================================================== *)
(** ** Every step of the pass respects a safe relation *)

Section EntrySafety.

Variable R : db -> list event -> db -> Prop.
Hypothesis safe : entry_safety R.

Lemma respects_ret {A} (a : A) : respects R (ret a).
Proof. intros d. apply (sf_refl R safe). Qed.

Lemma respects_raise {A} (e : exn) : respects R (@raise A e).
Proof. intros d. apply (sf_refl R safe). Qed.

Lemma respects_bind {A B} (c : M A) (k : A -> M B) :
  respects R c -> (forall a, respects R (k a)) -> respects R (bind c k).
Proof.
  intros Hc Hk d. unfold bind. specialize (Hc d).
  destruct (res (c d)) as [a|e]; simpl; [|exact Hc].
  eapply (sf_trans R safe); [exact Hc | apply Hk].
Qed.

Lemma respects_try {A} (c : M A) (h : exn -> M A) :
  respects R c -> (forall e, respects R (h e)) -> respects R (try_except c h).
Proof.
  intros Hc Hh d. unfold try_except. specialize (Hc d).
  destruct (res (c d)) as [a|e]; simpl; [exact Hc|].
  eapply (sf_trans R safe); [exact Hc | apply Hh].
Qed.

Lemma respects_sleep ms : respects R (sleep ms).
Proof. intros d. apply (sf_sleep R safe). Qed.

Lemma respects_insert_row bound :
  (forall e, sent_row e (stored e bound)) -> respects R (insert_row bound).
Proof.
  intros Hr d. unfold insert_row.
  pose proof (next_fault_engine d) as He.
  specialize (Hr (engine d)).
  pose proof (sf_insert_failed R safe d (stored (engine d) bound)) as Hf.
  pose proof (sf_insert R safe d (stored (engine d) bound) Hr) as Hi.
  destruct (next_fault d) as [[msg|] d']; cbn [fst snd] in *; rewrite He.
  - apply Hf, Hr.
  - rewrite (violates_constraint_unit _ _ _ Hr). exact Hi.
Qed.

Lemma respects_execute_insert tid bid chapter v t :
  truthy v = true -> truthy t = true ->
  respects R (execute_insert tid bid chapter v t).
Proof.
  intros Hv Ht. unfold execute_insert.
  destruct (bind_param v) as [sv|e] eqn:Bv; [|apply respects_raise].
  destruct (bind_param t) as [st|e] eqn:Bt; [|apply respects_raise].
  apply respects_insert_row. intros e.
  exact (bind_param_unit e tid bid chapter v t sv st Hv Ht Bv Bt).
Qed.

Lemma respects_insert_attempts attempts tid bid chapter v t counters :
  truthy v = true -> truthy t = true ->
  respects R (insert_attempts attempts tid bid chapter v t counters).
Proof.
  intros Hv Ht. induction attempts as [|attempt later IH]; simpl.
  - apply respects_ret.
  - apply respects_try.
    + apply respects_bind; [apply respects_execute_insert; assumption|].
      intros; apply respects_ret.
    + intros [|msg| | | |]; try apply respects_raise; try apply respects_ret.
      destruct (contains "locked" msg && (attempt <? 2)).
      * apply respects_bind; [apply respects_sleep | intros; exact IH].
      * apply respects_raise.
Qed.

Lemma respects_write_entry tid bid chapter existing v counters :
  respects R (write_entry tid bid chapter existing v counters).
Proof.
  unfold write_entry. destruct v; try apply respects_raise.
  destruct (truthy _) eqn:Hv; cbn [negb orb]; [|apply respects_ret].
  destruct (truthy (dict_get fields "text" _)) eqn:Ht; cbn [negb orb];
    [|apply respects_ret].
  destruct (hashable _); cbn [negb]; [|apply respects_raise].
  destruct (in_existing _ _ _); cbn [negb]; [apply respects_ret|].
  apply respects_insert_attempts; assumption.
Qed.

Lemma respects_write_entries tid bid chapter existing entries :
  forall counters,
    respects R (write_entries tid bid chapter existing entries counters).
Proof.
  induction entries as [|v later IH]; intros counters; simpl.
  - apply respects_ret.
  - apply respects_bind; [apply respects_write_entry | intros; apply IH].
Qed.

End EntrySafety.

Section ChapterSafety.

Variable cdn_chapter : string -> string -> Z -> response.
Variable R : db -> list event -> db -> Prop.
Hypothesis safe : chapter_safety R.

Let entry : entry_safety R := sf_entry R safe.

Lemma respects_download_chapter code api chapter :
  respects R (download_chapter cdn_chapter code api chapter).
Proof.
  apply respects_bind; [exact entry | |].
  - intros d. apply (sf_fetch R safe).
  - intros _. destruct (cdn_chapter code api chapter) as [| | |[]];
      apply respects_ret, entry.
Qed.

Lemma respects_repair_chapter tid code bid api existing chapter counters :
  respects R (repair_chapter cdn_chapter tid code bid api existing chapter counters).
Proof.
  unfold repair_chapter.
  apply respects_bind; [exact entry | apply respects_download_chapter |].
  intros cv.
  apply respects_bind; [exact entry | |].
  - destruct (truthy cv); [|apply respects_ret, entry].
    destruct (py_iter cv);
      [apply respects_write_entries, entry | apply respects_raise, entry].
  - intros c'. apply respects_bind; [exact entry | apply respects_sleep, entry |].
    intros; apply respects_ret, entry.
Qed.

Lemma respects_repair_chapters tid code bid api existing chapters :
  forall counters,
    respects R (repair_chapters cdn_chapter tid code bid api existing chapters counters).
Proof.
  induction chapters as [|chapter later IH]; intros counters; simpl.
  - apply respects_ret, entry.
  - apply respects_bind; [exact entry | apply respects_repair_chapter |].
    intros; apply IH.
Qed.

End ChapterSafety.

Section Safety.

Variable cdn_chapter : string -> string -> Z -> response.
Variable R : db -> list event -> db -> Prop.
Hypothesis safe : safety R.

Let core : chapter_safety R := sf_chapter R safe.
Let entry : entry_safety R := sf_entry R core.

Lemma respects_print line : respects R (print line).
Proof. intros d. apply (sf_print R safe). Qed.

Lemma respects_select_books : respects R select_books.
Proof.
  intros d. unfold select_books.
  pose proof (sf_select_books R safe d) as H.
  destruct (next_fault d) as [[msg|] d']; simpl in *; apply H.
Qed.

Lemma respects_scan tid bid : respects R (select_chapter_verse tid bid).
Proof.
  intros d. unfold select_chapter_verse.
  pose proof (sf_scan R safe d tid bid) as H.
  destruct (next_fault d) as [[msg|] d']; simpl in *; apply H.
Qed.

Lemma respects_commit : respects R commit.
Proof.
  intros d. unfold commit.
  pose proof (sf_commit_failed R safe d) as Hf.
  pose proof (sf_commit R safe d) as Hc.
  destruct (next_fault d) as [[msg|] d']; simpl in *; [apply Hf | exact Hc].
Qed.

Lemma respects_get_existing tid bid : respects R (get_existing_verses tid bid).
Proof.
  apply respects_bind; [exact entry | apply respects_scan |].
  intros; apply respects_ret, entry.
Qed.

Lemma respects_commit_attempts attempts : respects R (commit_attempts attempts).
Proof.
  induction attempts as [|attempt later IH]; simpl.
  - apply respects_ret, entry.
  - apply respects_try; [exact entry | apply respects_commit|].
    intros [|msg| | | |]; try apply respects_raise, entry.
    destruct (contains "locked" msg && (attempt <? 4));
      [|apply respects_raise, entry].
    apply respects_bind; [exact entry | apply respects_print|]. intros _.
    apply respects_bind; [exact entry | apply respects_sleep, entry |].
    intros; exact IH.
Qed.

Lemma respects_print_ret {A} line (a : A) : respects R (print line ;; ret a).
Proof.
  apply respects_bind; [exact entry | apply respects_print |].
  intros; apply respects_ret, entry.
Qed.

Lemma respects_repair_incomplete tid code bid name api existing e n t :
  respects R (repair_incomplete cdn_chapter tid code bid name api existing e n t).
Proof.
  unfold repair_incomplete.
  apply respects_bind; [exact entry | apply respects_print|]. intros _.
  apply respects_bind; [exact entry | apply respects_repair_chapters, core|].
  intros counters.
  apply respects_bind; [exact entry | apply respects_commit_attempts|]. intros _.
  apply respects_bind; [exact entry | | intros; apply respects_ret, entry].
  destruct (fst counters >? 0);
    [apply respects_print | apply respects_ret, entry].
Qed.

Lemma respects_repair_book tid code book t :
  respects R (repair_book cdn_chapter tid code book t).
Proof.
  unfold repair_book. destruct book as [book_id book_name].
  destruct (lookup book_name BOOK_NAMES) as [[|c api]|];
    try apply respects_print_ret.
  apply respects_bind; [exact entry | apply respects_get_existing|].
  intros existing.
  destruct (is_complete _ _);
    [apply respects_print_ret | apply respects_repair_incomplete].
Qed.

Lemma respects_repair_books tid code todo :
  forall t, respects R (repair_books cdn_chapter tid code todo t).
Proof.
  induction todo as [|book later IH]; intros t; simpl.
  - apply respects_ret, entry.
  - apply respects_bind; [exact entry | apply respects_repair_book|].
    intros; apply IH.
Qed.

Lemma respects_repair_translation tid :
  respects R (repair_translation cdn_chapter tid).
Proof.
  unfold repair_translation.
  destruct (lookup tid TRANSLATIONS) as [[|c code]|];
    try apply respects_print_ret.
  apply respects_bind; [exact entry | apply respects_select_books|].
  intros todo.
  apply respects_bind; [exact entry | apply respects_repair_books|]. intros t.
  apply respects_print_ret.
Qed.

End Safety.

(* ===================================================================== *)
(** ** Three safe relations *)

Lemma inserted_app t1 t2 : inserted (t1 ++ t2) = inserted t1 ++ inserted t2.
Proof. unfold inserted. apply flat_map_app. Qed.

Lemma prefix_refl {A} (l : list A) : prefix l l.
Proof. exists []. symmetry. apply app_nil_r. Qed.

Lemma prefix_trans {A} (a b c : list A) : prefix a b -> prefix b c -> prefix a c.
Proof.
  intros [x ->] [y ->]. exists (x ++ y). symmetry. apply app_assoc.
Qed.

Lemma prefix_app {A} (a b c : list A) : prefix a b -> prefix a (b ++ c).
Proof. intros [x ->]. exists (x ++ c). symmetry. apply app_assoc. Qed.

Lemma grows_safe : safety grows.
Proof.
  constructor; [constructor; [constructor|..]|..]; unfold grows; intros;
    try (unfold appended, committed; simpl;
         rewrite ?next_fault_books, ?next_fault_verses, ?next_fault_durable,
           ?app_nil_r;
         repeat split; intros; auto using prefix_refl, prefix_app; fail).
  destruct H as (B1 & V1 & D1), H0 as (B2 & V2 & D2).
  split; [congruence|]. split.
  - rewrite V2, V1, inserted_app. symmetry. apply app_assoc.
  - intros P. destruct (D1 P) as [P1 P1']. destruct (D2 P1') as [P2 P2'].
    split; [eapply prefix_trans; eassumption | assumption].
Qed.

Lemma writes_units_safe : safety writes_units.
Proof.
  constructor; [constructor; [constructor|..]|..]; unfold writes_units; intros;
    try (unfold appended, committed; simpl;
         rewrite ?next_fault_verses, ?next_fault_engine, ?app_nil_r;
         split; [reflexivity|];
         split;
         [ repeat first
             [ apply Forall_nil
             | apply Forall_cons; [simpl; first [exact I | assumption] | ] ]
         | reflexivity ]).
  destruct H as (E1 & F1 & V1), H0 as (E2 & F2 & V2). split; [congruence|]. split.
  - apply Forall_app; split; [assumption|]. rewrite <- E1. assumption.
  - rewrite V2, V1, inserted_app. symmetry. apply app_assoc.
Qed.

Lemma keeps_engine_safe : safety keeps_engine.
Proof.
  constructor; [constructor; [constructor|..]|..]; unfold keeps_engine; intros;
    try reflexivity;
    try (unfold appended, committed; cbn [engine]; apply next_fault_engine).
  congruence.
Qed.

Lemma no_verse_fetch_safe : safety no_verse_fetch.
Proof.
  constructor; [constructor; [constructor|..]|..]; unfold no_verse_fetch; intros; try reflexivity.
  rewrite existsb_app, H, H0. reflexivity.
Qed.


(* ===================================================================== *)
(** ** Additivity *)

(** C3.  Whatever the CDN answers and whatever faults hit the store, a
    run of [repair_translation] (fatal or not) only inserts: the books
    table is untouched, the rows of [verses] after the run are the rows
    before it, at the same positions and with the same contents, followed
    by the rows of the successful inserts; so every former row is still
    there, and the durable rows are extended too.  No step updates or
    deletes a row. *)
Theorem C3_repair_only_adds
    (cdn_chapter : string -> string -> Z -> response) (translation_id : string) (d : db) :
  let o := repair_translation cdn_chapter translation_id d in
  books (final o) = books d /\
  verses (final o) = verses d ++ inserted (out o) /\
  (forall r, In r (verses d) -> In r (verses (final o))) /\
  (forall i r, nth_error (verses d) i = Some r ->
               nth_error (verses (final o)) i = Some r) /\
  (prefix (durable d) (verses d) ->
   prefix (durable d) (durable (final o)) /\
   prefix (durable (final o)) (verses (final o))).
Proof.
  intros o.
  destruct (respects_repair_translation cdn_chapter grows grows_safe translation_id d)
    as (B & V & D).
  fold o in B, V, D.
  repeat split; try assumption.
  - intros r Hr. rewrite V. apply in_or_app. left. exact Hr.
  - intros i r Hi. rewrite V. rewrite nth_error_app1; [exact Hi|].
    apply nth_error_Some. congruence.
  - apply D, H.
  - apply D, H.
Qed.

(* ===================================================================== *)
(** ** Only well-formed units are written *)

Lemma decimal_not_empty z : decimal z <> "".
Proof.
  unfold decimal, NilZero.string_of_int, NilZero.string_of_uint.
  destruct (Z.to_int z) as [u|u]; [|discriminate].
  destruct u; discriminate.
Qed.

(** A number that counts as true is stored as 0 only when it is a text
    that the engine reads as 0. *)
Lemma stored_zero e verse_num verse :
  truthy verse_num = true -> bind_param verse_num = Ok verse ->
  integer_affinity e verse = SInt 0 ->
  exists s, verse_num = JStr s /\ numeric_text e s = Some (Integer 0).
Proof.
  intros Hv Bv.
  destruct verse_num as [|b|z|s|items|fields]; cbn [truthy bind_param] in Hv, Bv;
    try discriminate.
  - subst b. inversion Bv. discriminate.
  - destruct (_ && _); inversion Bv. cbn [integer_affinity]. intros E.
    inversion E. subst z. discriminate.
  - inversion Bv. cbn [integer_affinity].
    destruct (numeric_text e s) as [[z|f]|] eqn:N; cbn [number_value];
      intros E; inversion E. subst z. exists s. auto.
Qed.

(** What the store holds for a number and a text that count as true. *)
Lemma sent_row_stored e r :
  sent_row e r ->
  r_verse r <> SNull /\ r_text r <> SNull /\ r_text r <> SText "".
Proof.
  intros (v & t & sv & st & Hv & Ht & Bv & Bt & Ev & Et).
  assert (Nv : is_null (r_verse r) = false)
    by (rewrite Ev, integer_affinity_null; exact (bind_param_truthy_not_null _ _ Hv Bv)).
  assert (Nt : is_null (r_text r) = false)
    by (rewrite Et, text_affinity_null; exact (bind_param_truthy_not_null _ _ Ht Bt)).
  split; [intros E; rewrite E in Nv; discriminate|].
  split; [intros E; rewrite E in Nt; discriminate|].
  rewrite Et. clear Ev Nv Nt Hv Bv.
  destruct t as [|b|z|s|items|fields]; cbn [truthy bind_param] in Ht, Bt;
    try discriminate.
  - inversion Bt. cbn [text_affinity]. intros E. inversion E.
    exact (decimal_not_empty _ H1).
  - destruct (_ && _); inversion Bt. cbn [text_affinity]. intros E. inversion E.
    exact (decimal_not_empty _ H1).
  - inversion Bt. cbn [text_affinity]. intros E. inversion E. subst s.
    discriminate.
Qed.

(** C10, as the spec has it, fails: a number sent as the text ["0"]
    counts as true at line 179, so the entry is written and counted, and
    the [INTEGER] column stores it as the integer 0. *)
Theorem C10_a_unit_numbered_zero_is_written :
  let o := repair_translation zero_cdn "KJV" (mkDb [(8, "Ruth")] [] [] [] sqlite_digits) in
  res o = Ok (Some (mkTally 1 84 [mkStats "Ruth" 0 85 1])) /\
  verses (final o) = [mkRow "KJV" 8 1 (SInt 0) (SText "The book of Ruth")] /\
  ~ unit_row (mkRow "KJV" 8 1 (SInt 0) (SText "The book of Ruth")).
Proof.
  split; [vm_compute; reflexivity|]. split; [vm_compute; reflexivity|].
  intros (_ & H & _). apply H. reflexivity.
Qed.

(** C10, amended.  Every insert of a run of [repair_translation],
    attempted or successful, carries the row that the store makes of a
    verse number and a text that count as true at line 179.  Every row of
    the final table that was not there before is such a row, and its
    number is not null, its text neither null nor empty.  A number that
    counts as true is stored as 0 only when it is a text that the engine
    reads as 0.  An entry
    whose verse-number field is missing or zero, or whose text field is
    missing or empty, is skipped: nothing is written or emitted, no
    exception is raised and the counters are unchanged. *)
Theorem C10_only_entries_that_count_as_true_are_written
    (cdn_chapter : string -> string -> Z -> response) (translation_id : string)
    (d0 : db) (book_id chapter : Z) (existing : list key)
    (fields : list (string * json)) (counters : Z * Z) (d : db) :
  let o := repair_translation cdn_chapter translation_id d0 in
  (forall r failure, In (EvInsert r failure) (out o) -> sent_row (engine d0) r) /\
  (forall r, In r (verses (final o)) ->
             In r (verses d0) \/
             (sent_row (engine d0) r /\
              r_verse r <> SNull /\ r_text r <> SNull /\ r_text r <> SText "")) /\
  (forall verse_num verse,
     truthy verse_num = true -> bind_param verse_num = Ok verse ->
     integer_affinity (engine d0) verse = SInt 0 ->
     exists s, verse_num = JStr s /\ numeric_text (engine d0) s = Some (Integer 0)) /\
  ((lookup "verse" fields = None /\ lookup "number" fields = None) \/
   verse_num_of fields = JNum 0 \/
   lookup "text" fields = None \/
   text_of fields = JStr "" ->
   write_entry translation_id book_id chapter existing (JObj fields) counters d
   = mkOutcome (Ok counters) d []).
Proof.
  intros o.
  destruct (respects_repair_translation cdn_chapter writes_units writes_units_safe
              translation_id d0) as (_ & F & V).
  fold o in F, V. rewrite Forall_forall in F.
  split; [|split; [|split]].
  - intros r failure Hin. exact (F _ Hin).
  - intros r Hr. rewrite V in Hr. apply in_app_or in Hr.
    destruct Hr as [Hr|Hr]; [left; exact Hr | right].
    unfold inserted in Hr. apply in_flat_map in Hr.
    destruct Hr as (e & He & Hr). specialize (F e He).
    destruct e as [| |r' [f|]| | | | |]; simpl in Hr; try contradiction.
    destruct Hr as [<-|[]]. split; [exact F | exact (sent_row_stored _ _ F)].
  - intros verse_num verse. apply stored_zero.
  - intros H. unfold write_entry. fold (verse_num_of fields) (text_of fields).
    assert (Hf : negb (truthy (verse_num_of fields))
                 || negb (truthy (text_of fields)) = true).
    { destruct H as [[Hv Hn]|[Hv|[Ht|Ht]]].
      - unfold verse_num_of, dict_get. rewrite Hv, Hn. reflexivity.
      - rewrite Hv. reflexivity.
      - unfold text_of, dict_get. rewrite Ht. apply orb_true_r.
      - rewrite Ht. apply orb_true_r. }
    rewrite Hf. reflexivity.
Qed.

Lemma C10_only_entries_that_count_as_true_are_written_witness :
  let fields := [("number", JNum 0); ("text", JStr "In the beginning")] in
  verse_num_of fields = JNum 0 /\
  write_entry "KJV" 1 1 [] (JObj fields) (0, 0) (mkDb [] [] [] [] sqlite_digits)
  = mkOutcome (Ok (0, 0)) (mkDb [] [] [] [] sqlite_digits) [].
Proof.
  split; [reflexivity|].
  apply (C10_only_entries_that_count_as_true_are_written
           (fun _ _ _ => UrlError) "KJV" (mkDb [] [] [] [] sqlite_digits)).
  right; left. reflexivity.
Defined.

(* ===================================================================== *)
(** ** The two retry loops, one attempt at a time *)


(** One attempt of the insert loop on a unit row. *)
Lemma insert_attempts_step attempt later tid bid chapter v t sv st counters d :
  truthy v = true -> truthy t = true ->
  bind_param v = Ok sv -> bind_param t = Ok st ->
  let r := stored (engine d) (mkRow tid bid chapter sv st) in
  insert_attempts (attempt :: later) tid bid chapter v t counters d =
  match fst (next_fault d) with
  | None =>
      mkOutcome (Ok (fst counters + 1, snd counters + 1))
        (appended r (snd (next_fault d))) [EvInsert r None]
  | Some msg =>
      if is_lock msg && (attempt <? 2)
      then let o := insert_attempts later tid bid chapter v t counters
                      (snd (next_fault d)) in
           mkOutcome (res o) (final o)
             (EvInsert r (Some (OperationalError msg)) :: EvSleep 1000 :: out o)
      else mkOutcome (Raise (OperationalError msg)) (snd (next_fault d))
             [EvInsert r (Some (OperationalError msg))]
  end.
Proof.
  intros Hv Ht Bv Bt r.
  pose proof (bind_param_unit (engine d) tid bid chapter v t sv st Hv Ht Bv Bt) as Hr.
  cbn [insert_attempts]. unfold try_except, bind, execute_insert, insert_row.
  rewrite Bv, Bt. pose proof (next_fault_engine d) as He.
  destruct (next_fault d) as [[msg|] d']; cbn [fst snd res final out] in *;
    rewrite He; fold r.
  - unfold is_lock. destruct (contains "locked" msg && (attempt <? 2)).
    + unfold sleep, emit. cbn [res final out app]. reflexivity.
    + reflexivity.
  - rewrite (violates_constraint_unit _ r (verses d') Hr).
    cbn [res final out ret app]. reflexivity.
Qed.

(** One attempt of the commit loop. *)
Lemma commit_attempts_step attempt later d :
  commit_attempts (attempt :: later) d =
  match fst (next_fault d) with
  | None => mkOutcome (Ok tt) (committed (snd (next_fault d))) [EvCommit None]
  | Some msg =>
      if is_lock msg && (attempt <? 4)
      then let o := commit_attempts later (snd (next_fault d)) in
           mkOutcome (res o) (final o)
             (EvCommit (Some (OperationalError msg)) :: EvPrint LogCommitLocked
                :: EvSleep 2000 :: out o)
      else mkOutcome (Raise (OperationalError msg)) (snd (next_fault d))
             [EvCommit (Some (OperationalError msg))]
  end.
Proof.
  cbn [commit_attempts]. unfold try_except, commit.
  destruct (next_fault d) as [[msg|] d']; cbn [fst snd res final out].
  - unfold is_lock. destruct (contains "locked" msg && (attempt <? 4)).
    + unfold bind, print, sleep, emit. cbn [res final out app]. reflexivity.
    + reflexivity.
  - reflexivity.
Qed.


(* ===================================================================== *)
(** ** Lock errors on insert *)


(* ===================================================================== *)
(** ** The commit of a repaired document *)

Lemma bind_of_ok {A B} (c : M A) (k : A -> M B) d a d' t :
  c d = mkOutcome (Ok a) d' t ->
  bind c k d = mkOutcome (res (k a d')) (final (k a d')) (t ++ out (k a d')).
Proof. unfold bind. intros ->. reflexivity. Qed.

Lemma bind_ok_inv {A B} (c : M A) (k : A -> M B) d b :
  res (bind c k d) = Ok b ->
  exists a, res (c d) = Ok a /\
            res (k a (final (c d))) = Ok b /\
            out (bind c k d) = out (c d) ++ out (k a (final (c d))) /\
            final (bind c k d) = final (k a (final (c d))).
Proof.
  unfold bind. destruct (res (c d)) as [a|e]; cbn [res out final]; intros H.
  - exists a. repeat split; assumption.
  - discriminate.
Qed.


(** A commit loop that gives up at some attempt and returns normally made
    exactly one durable commit, the last event, after lock errors only. *)
Lemma commit_attempts_ok attempts :
  forall d,
    gives_up 4 attempts = true ->
    res (commit_attempts attempts d) = Ok tt ->
    exists locks,
      (List.length locks < List.length attempts)%nat /\ all_locks locks /\
      out (commit_attempts attempts d) = commit_retries locks ++ [EvCommit None] /\
      verses (final (commit_attempts attempts d)) = verses d /\
      durable (final (commit_attempts attempts d)) = verses d.
Proof.
  induction attempts as [|attempt later IH]; intros d Hg Hok; [discriminate|].
  rewrite commit_attempts_step in *.
  destruct (fst (next_fault d)) as [msg|] eqn:Ef.
  - destruct (is_lock msg) eqn:Hm; cbn [andb] in *; [|discriminate].
    destruct (attempt <? 4) eqn:Ha; [|discriminate].
    cbv zeta in *. cbn [res out final] in *.
    cbn [gives_up existsb] in Hg. apply Z.ltb_lt in Ha.
    replace (4 <=? attempt) with false in Hg by (symmetry; apply Z.leb_gt; lia).
    cbn [orb] in Hg.
    destruct (IH _ Hg Hok) as (locks & Hlen & Hl & Ho & Hv & Hd).
    exists (msg :: locks). repeat split.
    + cbn [List.length]. lia.
    + constructor; assumption.
    + rewrite Ho. reflexivity.
    + rewrite Hv. apply next_fault_verses.
    + rewrite Hd. apply next_fault_verses.
  - exists []. cbn [res out final]. repeat split.
    + cbn [List.length]. lia.
    + constructor.
    + unfold committed. cbn [verses]. apply next_fault_verses.
    + unfold committed. cbn [durable]. apply next_fault_verses.
Qed.





(* ===================================================================== *)
(** ** A chapter whose download fails *)

(** C6.  When the bulk request of a chapter fails (connection error,
    timeout, body that does not decode to a JSON object),
    [download_chapter] returns [None] instead of raising; the chapter adds
    nothing (the counters and the database are unchanged, the only events
    are the request and the 100 ms pause) and the loop goes on with the
    next chapter; a document all of whose chapters fail is left normally,
    with nothing added, so that its commit and the next document follow.
    No run of [repair_translation] ever issues a single-verse request
    ([download_verse]). *)
Theorem C6_failed_fetch_is_isolated
    (cdn_chapter : string -> string -> Z -> response)
    (translation_id translation_code : string) (book_id : Z) (book_api : string)
    (existing : list key) (chapter : Z) (later : list Z) (counters : Z * Z)
    (d : db) (chapters : list Z) (d0 : db) :
  (fetch_failed (cdn_chapter translation_code book_api chapter) = true ->
   download_chapter cdn_chapter translation_code book_api chapter d
   = mkOutcome (Ok JNull) d [EvFetchChapter translation_code book_api chapter] /\
   repair_chapters cdn_chapter translation_id translation_code book_id book_api
     existing (chapter :: later) counters d
   = let o := repair_chapters cdn_chapter translation_id translation_code book_id
                book_api existing later counters d in
     mkOutcome (res o) (final o)
       (EvFetchChapter translation_code book_api chapter :: EvSleep 100 :: out o)) /\
  ((forall c, In c chapters ->
              fetch_failed (cdn_chapter translation_code book_api c) = true) ->
   repair_chapters cdn_chapter translation_id translation_code book_id book_api
     existing chapters counters d
   = mkOutcome (Ok counters) d
       (flat_map (fun c => [EvFetchChapter translation_code book_api c; EvSleep 100])
          chapters)) /\
  existsb is_fetch_verse (out (repair_translation cdn_chapter translation_id d0)) = false.
Proof.
  assert (one : forall c rest d',
             fetch_failed (cdn_chapter translation_code book_api c) = true ->
             download_chapter cdn_chapter translation_code book_api c d'
             = mkOutcome (Ok JNull) d' [EvFetchChapter translation_code book_api c] /\
             repair_chapters cdn_chapter translation_id translation_code book_id
               book_api existing (c :: rest) counters d'
             = let o := repair_chapters cdn_chapter translation_id translation_code
                          book_id book_api existing rest counters d' in
               mkOutcome (res o) (final o)
                 (EvFetchChapter translation_code book_api c :: EvSleep 100 :: out o)).
  { intros c rest d' Hfail.
    assert (Hd : download_chapter cdn_chapter translation_code book_api c d'
                 = mkOutcome (Ok JNull) d' [EvFetchChapter translation_code book_api c]).
    { unfold download_chapter, bind, emit. cbn [res final out].
      destruct (cdn_chapter translation_code book_api c) as [| | |[]];
        try discriminate; reflexivity. }
    split; [exact Hd|].
    assert (Hc : repair_chapter cdn_chapter translation_id translation_code book_id
                   book_api existing c counters d'
                 = mkOutcome (Ok counters) d'
                     [EvFetchChapter translation_code book_api c; EvSleep 100]).
    { unfold repair_chapter. rewrite (bind_of_ok _ _ _ _ _ _ Hd). reflexivity. }
    cbn [repair_chapters]. rewrite (bind_of_ok _ _ _ _ _ _ Hc). reflexivity. }
  split; [|split].
  - apply one.
  - revert d. induction chapters as [|c rest IH]; intros d Hall; [reflexivity|].
    destruct (one c rest d (Hall c (or_introl eq_refl))) as [_ E]. rewrite E.
    rewrite IH by (intros; apply Hall; right; assumption). reflexivity.
  - apply (respects_repair_translation cdn_chapter no_verse_fetch no_verse_fetch_safe).
Qed.

(* ===================================================================== *)
(** ** Documents without an expected count *)

Lemma lookup_none_iff {A} (k : string) (d : list (string * A)) :
  lookup k d = None <-> ~ In k (map fst d).
Proof.
  induction d as [|[k' v] d IH]; cbn [lookup map fst In].
  - tauto.
  - destruct (String.eqb_spec k k') as [->|Hne].
    + split; [discriminate | intros H; exfalso; apply H; left; reflexivity].
    + rewrite IH. split.
      * intros H [E|E]; [congruence | tauto].
      * intros H E. apply H. right. exact E.
Qed.

Lemma tables_have_the_same_books :
  map fst BOOK_NAMES = map fst VERSE_COUNTS /\
  map fst CHAPTERS = map fst VERSE_COUNTS.
Proof. split; reflexivity. Qed.

Lemma is_complete_zero n : 0 <= n -> is_complete n 0 = true.
Proof. intros H. change (is_complete n 0) with (0 <=? n). apply Z.leb_le, H. Qed.

(** C5, the claim as stated, fails: a document that the canonical table
    does not know is not repaired.  "Tobit" has no expected count; with an
    empty store (nothing of it is present) the pass prints the warning
    about the unknown book and issues no request for it. *)
Lemma C5_unknown_document_is_not_repaired :
  let d := mkDb [(67, "Tobit")] [] [] [] sqlite_digits in
  let o := repair_book (fun _ _ _ => Payload (JObj [])) "KJV" "en-kjv"
             (67, "Tobit") (mkTally 0 0 []) d in
  lookup "Tobit" VERSE_COUNTS = None /\
  o = mkOutcome (Ok (mkTally 0 0 [])) d [EvPrint (LogUnknownBook "Tobit")] /\
  existsb is_fetch_chapter (out o) = false.
Proof. repeat split. Qed.

(** C5, amended.  A document whose name has no expected count in
    [VERSE_COUNTS] has no provider name in [BOOK_NAMES] either, so line
    155 skips it: the warning about the unknown book is the only event,
    the store is neither read nor written, no request is issued and the
    counters are unchanged.  The default expectation 0 that line 160
    would give it counts any number of existing verses as complete. *)
Theorem C5_unknown_document_is_skipped
    (cdn_chapter : string -> string -> Z -> response)
    (translation_id translation_code : string) (book_id : Z) (book_name : string)
    (t : tally) (d : db) :
  lookup book_name VERSE_COUNTS = None ->
  repair_book cdn_chapter translation_id translation_code (book_id, book_name) t d
  = mkOutcome (Ok t) d [EvPrint (LogUnknownBook book_name)] /\
  (forall existing_count, 0 <= existing_count ->
     is_complete existing_count (dict_get VERSE_COUNTS book_name 0) = true).
Proof.
  intros Hnone. split.
  - assert (Hb : lookup book_name BOOK_NAMES = None).
    { apply lookup_none_iff. apply lookup_none_iff in Hnone.
      destruct tables_have_the_same_books as [-> _]. exact Hnone. }
    unfold repair_book. rewrite Hb. reflexivity.
  - intros n Hn. unfold dict_get. rewrite Hnone. apply is_complete_zero, Hn.
Qed.

Lemma C5_unknown_document_is_skipped_witness :
  lookup "Tobit" VERSE_COUNTS = None /\
  repair_book (fun _ _ _ => UrlError) "KJV" "en-kjv" (67, "Tobit")
    (mkTally 0 0 []) (mkDb [(67, "Tobit")] [] [] [] sqlite_digits)
  = mkOutcome (Ok (mkTally 0 0 [])) (mkDb [(67, "Tobit")] [] [] [] sqlite_digits)
      [EvPrint (LogUnknownBook "Tobit")].
Proof.
  split; [reflexivity|].
  apply (C5_unknown_document_is_skipped (fun _ _ _ => UrlError) "KJV" "en-kjv" 67
           "Tobit" (mkTally 0 0 []) (mkDb [(67, "Tobit")] [] [] [] sqlite_digits)).
  reflexivity.
Defined.

(* ===================================================================== *)
(** ** Two writers of one key *)

(** Whatever the table holds, a unit whose key is not in the scanned set
    is inserted and counted when no fault hits the store: the schema has
    no uniqueness constraint that could answer with an [IntegrityError]. *)
Lemma write_entry_inserts tid bid chapter existing fields counters d verse txt :
  truthy (verse_num_of fields) = true -> truthy (text_of fields) = true ->
  bind_param (verse_num_of fields) = Ok verse ->
  bind_param (text_of fields) = Ok txt ->
  in_existing chapter (verse_num_of fields) existing = false ->
  hd None (faults d) = None ->
  let r := stored (engine d) (mkRow tid bid chapter verse txt) in
  write_entry tid bid chapter existing (JObj fields) counters d
  = mkOutcome (Ok (fst counters + 1, snd counters + 1))
      (appended r (snd (next_fault d))) [EvInsert r None].
Proof.
  intros Hv Ht Bv Bt Hin Hf r. unfold write_entry.
  fold (verse_num_of fields) (text_of fields). rewrite Hv, Ht, Hin.
  assert (Hh : hashable (verse_num_of fields) = true)
    by (destruct (verse_num_of fields); try reflexivity; discriminate).
  rewrite Hh. cbn [negb orb]. change (range 0 3) with [0; 1; 2].
  rewrite (insert_attempts_step _ _ _ _ _ _ _ verse txt) by assumption.
  assert (Hn : fst (next_fault d) = None).
  { unfold next_fault. destruct (faults d) as [|[msg|] rest];
      cbn [hd] in Hf; try discriminate; reflexivity. }
  rewrite Hn. reflexivity.
Qed.

(** C2, on the code.  This writer scans the verses of Genesis in an empty
    table; a second writer then inserts and commits the unit
    [(KJV, 1, 1, 1)]; this writer goes on with its stale set and writes
    the fetched entry for the same key.  The insert is accepted (the index
    of [create_database] is not unique), it is counted as added, and the
    table ends with two rows of that key. *)
Theorem C2_second_writer_stores_a_duplicate :
  let entry := JObj [("verse", JNum 1); ("text", JStr "In the beginning")] in
  let mine := mkRow "KJV" 1 1 (SInt 1) (SText "In the beginning") in
  let rival := mkRow "KJV" 1 1 (SInt 1) (SText "In the beginning God") in
  let d0 := mkDb [(1, "Genesis")] [] [] [] sqlite_digits in
  let scan := get_existing_verses "KJV" 1 d0 in
  let d1 := committed (appended rival (final scan)) in
  let o := match res scan with
           | Ok existing => write_entry "KJV" 1 1 existing entry (0, 0) d1
           | Raise e => raise e d1
           end in
  key_is_unique = false /\
  res scan = Ok [] /\
  res o = Ok (1, 1) /\
  inserted (out o) = [mine] /\
  verses (final o) = [rival; mine] /\
  same_key rival mine = true /\
  key_count mine (verses (final o)) = 2%nat.
Proof. repeat split. Qed.

(* ===================================================================== *)
(** ** The counters *)

















(* ===================================================================== *)
(** ** The completeness threshold *)

Lemma lookup_some_in {A} (k : string) (v : A) (d : list (string * A)) :
  lookup k d = Some v -> In (k, v) d.
Proof.
  induction d as [|[k' v'] d IH]; cbn [lookup]; [discriminate|].
  destruct (String.eqb_spec k k') as [->|Hne].
  - intros E. inversion E; subst. left. reflexivity.
  - intros E. right. apply IH, E.
Qed.

Lemma least_complete_spec e n : least_complete e <= n <-> 19 * e <= 20 * n.
Proof.
  unfold least_complete.
  pose proof (Z.div_mod (19 * e + 19) 20 ltac:(lia)) as Hd.
  pose proof (Z.mod_pos_bound (19 * e + 19) 20 ltac:(lia)) as Hm.
  lia.
Qed.

Lemma threshold_is_exact_sound e :
  threshold_is_exact e = true ->
  forall n, is_complete n e = (19 * e <=? 20 * n).
Proof.
  unfold threshold_is_exact, is_complete. intros H n.
  destruct (threshold e) as [| | |[|] m ex]; try discriminate.
  apply andb_true_iff in H. destruct H as [H Hhi].
  apply andb_true_iff in H. destruct H as [Hex Hlo].
  apply Z.ltb_lt in Hex, Hlo. apply Z.leb_le in Hhi.
  cbn [int_ge_float cond_Zopp].
  replace (0 <=? ex) with false by (symmetry; apply Z.leb_gt; exact Hex).
  assert (HK : 0 < 2 ^ (- ex)) by (apply Z.pow_pos_nonneg; lia).
  set (K := 2 ^ (- ex)) in *. set (c := least_complete e) in *.
  destruct (Z.leb_spec (19 * e) (20 * n)) as [Hn|Hn].
  - apply Z.leb_le. apply least_complete_spec in Hn. fold c in Hn.
    apply Z.le_trans with (c * K); [exact Hhi|].
    apply Z.mul_le_mono_nonneg_r; lia.
  - apply Z.leb_gt.
    assert (Hc : n <= c - 1).
    { destruct (Z.le_gt_cases c n) as [Hcn|Hcn]; [|lia].
      apply least_complete_spec in Hcn. lia. }
    apply Z.le_lt_trans with ((c - 1) * K); [|exact Hlo].
    apply Z.mul_le_mono_nonneg_r; lia.
Qed.

Lemma verse_counts_thresholds :
  forallb (fun kv => (0 <? snd kv) && threshold_is_exact (snd kv)) VERSE_COUNTS = true.
Proof. vm_compute. reflexivity. Qed.

(** For every book of the table the float test of line 163 is the exact
    95% test. *)
Lemma is_complete_exact book_name e :
  lookup book_name VERSE_COUNTS = Some e ->
  0 < e /\ forall n, is_complete n e = (19 * e <=? 20 * n).
Proof.
  intros H. apply lookup_some_in in H.
  pose proof verse_counts_thresholds as T. rewrite forallb_forall in T.
  specialize (T _ H). cbn [snd] in T. apply andb_true_iff in T.
  destruct T as [Hpos Hex]. apply Z.ltb_lt in Hpos.
  split; [exact Hpos | apply threshold_is_exact_sound, Hex].
Qed.

Lemma ratio_reached_iff n e : 0 < e -> ratio_reached n e <-> 19 * e <= 20 * n.
Proof.
  intros He. unfold ratio_reached. destruct e as [|p|p]; try lia.
  unfold Qle, Qdiv, Qmult, Qinv, inject_Z. cbn [Qnum Qden].
  rewrite Pos.mul_1_l. lia.
Qed.

Lemma mapped_books_are_known book_name book_api :
  lookup book_name BOOK_NAMES = Some book_api ->
  book_api <> "" /\
  exists e chapters,
    lookup book_name VERSE_COUNTS = Some e /\
    lookup book_name CHAPTERS = Some chapters /\ 1 <= chapters.
Proof.
  intros H.
  assert (T : forallb (fun kv =>
                 negb (snd kv =? "")%string &&
                 match lookup (fst kv) VERSE_COUNTS, lookup (fst kv) CHAPTERS with
                 | Some _, Some c => 1 <=? c
                 | _, _ => false
                 end) BOOK_NAMES = true) by (vm_compute; reflexivity).
  rewrite forallb_forall in T. specialize (T _ (lookup_some_in _ _ _ H)).
  cbn [fst snd] in T. apply andb_true_iff in T. destruct T as [Hne T].
  split.
  - intros ->. discriminate.
  - destruct (lookup book_name VERSE_COUNTS) as [e|]; [|discriminate].
    destruct (lookup book_name CHAPTERS) as [c|]; [|discriminate].
    exists e, c. apply Z.leb_le in T. auto.
Qed.

Lemma fetched_app t1 t2 : fetched (t1 ++ t2) = fetched t1 ++ fetched t2.
Proof. apply filter_app. Qed.

Lemma no_chapter_fetch_safe : entry_safety no_chapter_fetch.
Proof.
  constructor; unfold no_chapter_fetch; intros; try reflexivity.
  rewrite fetched_app, H, H0. reflexivity.
Qed.

Lemma fetched_commit_retries locks : fetched (commit_retries locks) = [].
Proof. induction locks as [|m locks IH]; [reflexivity | exact IH]. Qed.

Lemma hd_next_fault d : hd None (faults d) = None -> fst (next_fault d) = None.
Proof.
  unfold next_fault. destruct (faults d) as [|[msg|] rest]; cbn [hd];
    try discriminate; reflexivity.
Qed.

Lemma get_existing_verses_calm tid bid d :
  fst (next_fault d) = None ->
  get_existing_verses tid bid d
  = mkOutcome (Ok (scanned tid bid (verses d))) (snd (next_fault d))
      [EvScan tid bid None].
Proof.
  intros H. unfold get_existing_verses, bind, select_chapter_verse, scanned.
  rewrite <- (next_fault_verses d).
  destruct (next_fault d) as [f d']. cbn [fst] in H. subst f. reflexivity.
Qed.

Lemma range_head a n : 1 <= n -> exists later, range a n = a :: later.
Proof.
  intros H. unfold range. destruct (Z.to_nat n) as [|m] eqn:E; [lia|].
  cbn [seq map]. rewrite Z.add_0_r. eauto.
Qed.

(** A chapter is one request followed by writes and the pause. *)
Lemma repair_chapter_out cdn tid code bid api existing chapter c d :
  exists rest,
    out (repair_chapter cdn tid code bid api existing chapter c d)
    = EvFetchChapter code api chapter :: rest /\ fetched rest = [].
Proof.
  unfold repair_chapter.
  set (k := fun chapter_verses : json => _).
  assert (Hd : exists v, download_chapter cdn code api chapter d
                         = mkOutcome (Ok v) d [EvFetchChapter code api chapter]).
  { unfold download_chapter, bind, emit. cbn [res final out].
    destruct (cdn code api chapter) as [| | |[]]; cbn; eauto. }
  destruct Hd as [v Hd]. rewrite (bind_of_ok _ _ _ _ _ _ Hd). cbn [out app].
  eexists; split; [reflexivity|]. subst k. cbv beta.
  set (w := if truthy v then _ else _).
  assert (Hw : fetched (out (w d)) = []).
  { subst w. destruct (truthy v); [|reflexivity].
    destruct (py_iter v); [|reflexivity].
    apply (respects_write_entries no_chapter_fetch no_chapter_fetch_safe). }
  unfold bind at 1. destruct (res (w d)); cbn [out]; [|exact Hw].
  rewrite fetched_app, Hw. reflexivity.
Qed.

Lemma repair_chapters_fetched cdn tid code bid api existing chapters :
  forall c d,
    is_ok (res (repair_chapters cdn tid code bid api existing chapters c d)) = true ->
    fetched (out (repair_chapters cdn tid code bid api existing chapters c d))
    = map (EvFetchChapter code api) chapters.
Proof.
  induction chapters as [|chapter later IH]; intros c d Hok; [reflexivity|].
  cbn [repair_chapters map] in *.
  destruct (repair_chapter_out cdn tid code bid api existing chapter c d)
    as (rest & Ho & Hr).
  unfold bind in *.
  destruct (res (repair_chapter cdn tid code bid api existing chapter c d))
    as [c'|e]; cbn [res out] in *; [|discriminate].
  rewrite fetched_app, Ho, (IH _ _ Hok). cbn [fetched filter is_fetch_chapter].
  fold (fetched rest). rewrite Hr. reflexivity.
Qed.

Lemma bind_out {A B} (c : M A) (k : A -> M B) d :
  exists more, out (bind c k d) = out (c d) ++ more.
Proof.
  unfold bind. destruct (res (c d)); cbn [out]; eauto.
  exists []. symmetry. apply app_nil_r.
Qed.

(** The events of the repair path, whatever its result: the line that
    announces the repair, then the chapters. *)
Lemma repair_incomplete_out cdn tid code bid name api existing e num t d :
  exists more,
    out (repair_incomplete cdn tid code bid name api existing e num t d)
    = EvPrint (LogRepairing name (len existing) e)
      :: out (repair_chapters cdn tid code bid api existing (range 1 num)
                (0, total_added t) d) ++ more.
Proof.
  unfold repair_incomplete. unfold bind at 1. cbn [print emit res final out app].
  destruct (bind_out
              (repair_chapters cdn tid code bid api existing (range 1 num)
                 (0, total_added t))
              (fun counters =>
                 commit_attempts (range 0 5) ;;
                 (if fst counters >? 0 then print (LogAdded (fst counters)) else ret tt) ;;
                 ret (mkTally (snd counters)
                        (total_missing t + Z.max 0 (e - len existing - fst counters))
                        (repaired t ++
                           [mkStats name (len existing) e (fst counters)]))) d)
    as [more Hm].
  exists more. f_equal. exact Hm.
Qed.

(** The repair path when it returns: the chapters returned, the commit
    loop met lock errors only and then committed, and the count of added
    verses is printed when it is positive. *)
Lemma repair_incomplete_ok cdn tid code bid name api existing e num t d t' :
  res (repair_incomplete cdn tid code bid name api existing e num t d) = Ok t' ->
  let och := repair_chapters cdn tid code bid api existing (range 1 num)
               (0, total_added t) d in
  exists c failed,
    res och = Ok c /\
    out (repair_incomplete cdn tid code bid name api existing e num t d)
    = EvPrint (LogRepairing name (len existing) e)
      :: out och ++ commit_retries failed
      ++ EvCommit None
      :: (if fst c >? 0 then [EvPrint (LogAdded (fst c))] else []) /\
    (List.length failed <= 4)%nat /\ all_locks failed /\
    verses (final (repair_incomplete cdn tid code bid name api existing e num t d))
    = verses (final och) /\
    durable (final (repair_incomplete cdn tid code bid name api existing e num t d))
    = verses (final och) /\
    faults (final (repair_incomplete cdn tid code bid name api existing e num t d))
    = faults (final (commit_attempts (range 0 5) (final och))) /\
    t' = mkTally (snd c)
           (total_missing t + Z.max 0 (e - len existing - fst c))
           (repaired t ++ [mkStats name (len existing) e (fst c)]).
Proof.
  intros Hres och. unfold repair_incomplete in *.
  apply bind_ok_inv in Hres. destruct Hres as ([] & _ & Hres & Hout & Hfin).
  rewrite Hout, Hfin. clear Hout Hfin. cbn [print emit out final res] in *.
  apply bind_ok_inv in Hres. destruct Hres as (c & Hch & Hres & Hout & Hfin).
  rewrite Hout, Hfin. clear Hout Hfin. fold och in Hch, Hres |- *.
  apply bind_ok_inv in Hres. destruct Hres as ([] & Hcm & Hres & Hout & Hfin).
  rewrite Hout, Hfin. clear Hout Hfin.
  destruct (commit_attempts_ok (range 0 5) (final och) eq_refl Hcm)
    as (failed & Hlen & Hl & Ho & Hv & Hd).
  rewrite Ho.
  apply bind_ok_inv in Hres. destruct Hres as ([] & Hpr & Hret & Hout & Hfin).
  rewrite Hout, Hfin. clear Hout Hfin. cbn [ret out final app res] in *.
  exists c, failed.
  change (List.length (range 0 5)) with 5%nat in Hlen.
  split; [exact Hch|]. split.
  - cbn [app]. rewrite app_nil_r, <- !app_assoc. cbn [app].
    destruct (fst c >? 0); reflexivity.
  - split; [lia|]. split; [exact Hl|].
    destruct (fst c >? 0); cbn [print emit ret final];
      (split; [exact Hv | split; [exact Hd | split; [reflexivity | congruence]]]).
Qed.

Lemma fetched_cons_other e t : is_fetch_chapter e = false -> fetched (e :: t) = fetched t.
Proof. intros H. unfold fetched. cbn [filter]. rewrite H. reflexivity. Qed.

(** C4.  For a document with a provider name, once its keys are scanned:
    when [existingCount / expectedCount >= 0.95] the document is logged as
    complete and left, without any request and without touching the
    counters; when the ratio is below 0.95 the document enters the repair
    path, which starts with the request for chapter 1 and, unless a fatal
    error stops it, requests every chapter [1 .. CHAPTERS[book]] once, in
    order. *)
Theorem C4_threshold_decides_the_fetches
    (cdn_chapter : string -> string -> Z -> response)
    (translation_id translation_code : string) (book_id : Z)
    (book_name book_api : string) (t : tally) (d : db) :
  lookup book_name BOOK_NAMES = Some book_api ->
  hd None (faults d) = None ->
  let existing_count := len (scanned translation_id book_id (verses d)) in
  let expected_total := dict_get VERSE_COUNTS book_name 0 in
  let o := repair_book cdn_chapter translation_id translation_code
             (book_id, book_name) t d in
  (ratio_reached existing_count expected_total ->
   o = mkOutcome (Ok t) (snd (next_fault d))
         [EvScan translation_id book_id None;
          EvPrint (LogComplete book_name existing_count)] /\
   fetched (out o) = []) /\
  (~ ratio_reached existing_count expected_total ->
   (exists rest,
      out o = EvScan translation_id book_id None
              :: EvPrint (LogRepairing book_name existing_count expected_total)
              :: EvFetchChapter translation_code book_api 1 :: rest) /\
   (is_ok (res o) = true ->
    fetched (out o)
    = map (EvFetchChapter translation_code book_api)
        (range 1 (dict_get CHAPTERS book_name 0)))).
Proof.
  intros Hmap Hcalm n e o.
  destruct (mapped_books_are_known _ _ Hmap) as (Hne & e' & ch & He & Hch & Hch1).
  destruct (is_complete_exact _ _ He) as [Hpos Hex].
  assert (Ee : dict_get VERSE_COUNTS book_name 0 = e')
    by (unfold dict_get; rewrite He; reflexivity).
  assert (Ec : dict_get CHAPTERS book_name 0 = ch)
    by (unfold dict_get; rewrite Hch; reflexivity).
  pose proof (get_existing_verses_calm translation_id book_id d (hd_next_fault d Hcalm))
    as Hscan. fold n in Hscan.
  destruct book_api as [|a api]; [congruence|].
  subst o e. unfold repair_book. rewrite Hmap.
  rewrite (bind_of_ok _ _ _ _ _ _ Hscan). cbv beta.
  rewrite !Ee, !Ec. fold n. rewrite Hex. clear Ee. rename e' into e.
  split.
  - intros Hr. apply (ratio_reached_iff n e Hpos) in Hr. apply Z.leb_le in Hr.
    rewrite Hr. split; reflexivity.
  - intros Hr. rewrite (ratio_reached_iff n e Hpos) in Hr.
    replace (19 * e <=? 20 * n) with false by (symmetry; apply Z.leb_gt; lia).
    set (d1 := snd (next_fault d)).
    set (existing := scanned translation_id book_id (verses d)) in *.
    set (body := repair_incomplete cdn_chapter translation_id translation_code
                   book_id book_name (String a api) existing e ch t).
    set (och := repair_chapters cdn_chapter translation_id translation_code book_id
                  (String a api) existing (range 1 ch) (0, total_added t) d1).
    cbn [res out app]. split.
    + destruct (repair_incomplete_out cdn_chapter translation_id translation_code
                  book_id book_name (String a api) existing e ch t d1)
        as [more Hm].
      fold body och in Hm. rewrite Hm. fold n.
      destruct (range_head 1 ch Hch1) as [later El].
      assert (Hh : exists rest, out och
                     = EvFetchChapter translation_code (String a api) 1 :: rest).
      { subst och. rewrite El. cbn [repair_chapters].
        destruct (repair_chapter_out cdn_chapter translation_id translation_code
                    book_id (String a api) existing 1 (0, total_added t) d1)
          as (rest & Ho & _).
        destruct (bind_out
                    (repair_chapter cdn_chapter translation_id translation_code
                       book_id (String a api) existing 1 (0, total_added t))
                    (fun c' => repair_chapters cdn_chapter translation_id
                                 translation_code book_id (String a api) existing
                                 later c') d1) as [more' Hm'].
        rewrite Hm', Ho. cbn [app]. eauto. }
      destruct Hh as [rest Hh]. rewrite Hh. cbn [app]. eauto.
    + intros Hok. destruct (res (body d1)) as [t'|] eqn:Hres; [|discriminate].
      destruct (repair_incomplete_ok _ _ _ _ _ _ _ _ _ _ _ _ Hres)
        as (c & failed & Hc & Ho & _).
      fold body och in Ho, Hc. rewrite Ho.
      rewrite !fetched_cons_other by reflexivity.
      rewrite !fetched_app, fetched_commit_retries.
      rewrite fetched_cons_other by reflexivity.
      subst och. rewrite repair_chapters_fetched by (rewrite Hc; reflexivity).
      destruct (fst c >? 0); cbn; rewrite app_nil_r; reflexivity.
Qed.

(* ===================================================================== *)
(** ** The existing-state set *)

Lemma to_set_in k l : In k (to_set l) <-> In k l.
Proof.
  revert k. induction l as [|a l IH]; intros k; cbn [to_set]; [tauto|].
  destruct (existsb (key_eqb a) (to_set l)) eqn:E; cbn [In]; rewrite ?IH.
  - apply existsb_exists in E. destruct E as (x & Hx & Hax).
    apply key_eqb_eq in Hax. subst x. apply IH in Hx.
    split; [auto | intros [<-|H]; auto].
  - tauto.
Qed.

Lemma to_set_nodup l : NoDup (to_set l).
Proof.
  induction l as [|a l IH]; cbn [to_set]; [constructor|].
  destruct (existsb (key_eqb a) (to_set l)) eqn:E; [exact IH|].
  constructor; [|exact IH]. intros Hin.
  assert (existsb (key_eqb a) (to_set l) = true); [|congruence].
  apply existsb_exists. exists a. split; [exact Hin | apply key_eqb_eq; reflexivity].
Qed.

Lemma in_existing_scanned tid bid table chapter v :
  in_existing chapter v (scanned tid bid table) = true <->
  exists r, In r table /\ r_translation r = tid /\ r_book r = bid /\
            r_chapter r = chapter /\ py_eq_stored v (r_verse r) = true.
Proof.
  unfold in_existing, scanned. rewrite existsb_exists. split.
  - intros ([c s] & Hin & Hk). rewrite to_set_in in Hin. apply in_map_iff in Hin.
    destruct Hin as (r & Er & Hr). apply filter_In in Hr. destruct Hr as [Hr Hf].
    apply andb_true_iff in Hf. destruct Hf as [Ht Hb].
    apply String.eqb_eq in Ht. apply Z.eqb_eq in Hb.
    inversion Er; subst c s. cbn [fst snd] in Hk.
    apply andb_true_iff in Hk. destruct Hk as [Hc Hv]. apply Z.eqb_eq in Hc.
    exists r. auto.
  - intros (r & Hr & Ht & Hb & Hc & Hv).
    exists (r_chapter r, r_verse r). split.
    + rewrite to_set_in. apply in_map_iff. exists r. split; [reflexivity|].
      apply filter_In. split; [exact Hr|].
      rewrite Ht, Hb, String.eqb_refl, Z.eqb_refl. reflexivity.
    + cbn [fst snd]. rewrite <- Hc, Z.eqb_refl, Hv. reflexivity.
Qed.

Lemma in_existing_mono tid bid table table' chapter v :
  incl table table' ->
  in_existing chapter v (scanned tid bid table) = true ->
  in_existing chapter v (scanned tid bid table') = true.
Proof.
  intros Hi H. apply in_existing_scanned in H. apply in_existing_scanned.
  destruct H as (r & Hr & H). exists r. split; [apply Hi, Hr | exact H].
Qed.

Lemma scanned_len_mono tid bid table table' :
  incl table table' ->
  len (scanned tid bid table) <= len (scanned tid bid table').
Proof.
  intros Hi. unfold len. apply inj_le. apply NoDup_incl_length.
  - apply to_set_nodup.
  - intros k Hk. unfold scanned in *. rewrite to_set_in in Hk |- *.
    apply in_map_iff in Hk. destruct Hk as (r & Er & Hr).
    apply in_map_iff. exists r. split; [exact Er|].
    apply filter_In in Hr. apply filter_In. split; [apply Hi|]; tauto.
Qed.

Lemma int_ge_float_mono n n' f :
  n <= n' -> int_ge_float n f = true -> int_ge_float n' f = true.
Proof.
  intros Hn. destruct f as [s|s| |s m e]; cbn [int_ge_float]; try tauto.
  - intros H. apply Z.leb_le in H. apply Z.leb_le. lia.
  - destruct (0 <=? e) eqn:He; intros H; apply Z.leb_le in H; apply Z.leb_le.
    + lia.
    + apply Z.le_trans with (n * 2 ^ (- e)); [exact H|].
      apply Z.mul_le_mono_nonneg_r; [|exact Hn].
      apply Z.pow_nonneg. lia.
Qed.

Lemma is_complete_mono n n' e :
  n <= n' -> is_complete n e = true -> is_complete n' e = true.
Proof. unfold is_complete. apply int_ge_float_mono. Qed.

Lemma bind_param_eq v sv :
  bind_param v = Ok sv -> py_eq_stored v sv = true.
Proof.
  destruct v as [|[|]|z|s| |]; cbn [bind_param]; intros H;
    try (inversion H; subst; cbn; auto using Z.eqb_refl, String.eqb_refl; fail);
    try discriminate.
  destruct ((- 2 ^ 63 <=? z) && (z <? 2 ^ 63)); inversion H; subst.
  cbn. apply Z.eqb_refl.
Qed.

Lemma bind_param_raise v e :
  bind_param v = Raise e -> e = OverflowError \/ e = InterfaceError.
Proof.
  destruct v as [|[|]|z|s| |]; cbn [bind_param]; intros H;
    try discriminate; try (inversion H; auto; fail).
  destruct ((- 2 ^ 63 <=? z) && (z <? 2 ^ 63)); inversion H; auto.
Qed.

(* ===================================================================== *)
(** ** A pass over a store that is already repaired *)

Lemma download_chapter_eq cdn code api chapter d :
  download_chapter cdn code api chapter d
  = mkOutcome (Ok (chapter_payload cdn code api chapter)) d
      [EvFetchChapter code api chapter].
Proof.
  unfold download_chapter, chapter_payload, bind, emit. cbn [res final out].
  destruct (cdn code api chapter) as [| | |[]]; reflexivity.
Qed.

Lemma entry_settled_quiet tid bid table chapter v c d :
  entry_settled tid bid table chapter v ->
  write_entry tid bid chapter (scanned tid bid table) v c d = mkOutcome (Ok c) d [].
Proof.
  intros (fields & -> & [H|[Hh Hin]]); unfold write_entry;
    fold (verse_num_of fields) (text_of fields).
  - rewrite H. reflexivity.
  - rewrite Hh, Hin. cbn [negb].
    destruct (negb (truthy (verse_num_of fields)) || negb (truthy (text_of fields)));
      reflexivity.
Qed.

Lemma entries_settled_quiet tid bid table chapter entries c d :
  Forall (entry_settled tid bid table chapter) entries ->
  write_entries tid bid chapter (scanned tid bid table) entries c d
  = mkOutcome (Ok c) d [].
Proof.
  induction 1 as [|v later Hv _ IH]; [reflexivity|].
  cbn [write_entries].
  rewrite (bind_of_ok _ _ _ _ _ _ (entry_settled_quiet _ _ _ _ _ c d Hv)).
  rewrite IH. reflexivity.
Qed.

Lemma chapter_settled_quiet cdn tid code bid api table chapter c d :
  chapter_settled cdn tid code bid api table chapter ->
  repair_chapter cdn tid code bid api (scanned tid bid table) chapter c d
  = mkOutcome (Ok c) d [EvFetchChapter code api chapter; EvSleep 100].
Proof.
  intros H. unfold repair_chapter.
  rewrite (bind_of_ok _ _ _ _ _ _ (download_chapter_eq cdn code api chapter d)).
  destruct H as [H|(entries & Hi & He)].
  - rewrite H. reflexivity.
  - rewrite Hi. destruct (truthy (chapter_payload cdn code api chapter)).
    + rewrite (bind_of_ok _ _ _ _ _ _
                 (entries_settled_quiet _ _ _ _ _ c d He)).
      reflexivity.
    + reflexivity.
Qed.

Lemma chapters_settled_quiet cdn tid code bid api table chapters c d :
  Forall (chapter_settled cdn tid code bid api table) chapters ->
  repair_chapters cdn tid code bid api (scanned tid bid table) chapters c d
  = mkOutcome (Ok c) d
      (flat_map (fun chapter => [EvFetchChapter code api chapter; EvSleep 100])
         chapters).
Proof.
  induction 1 as [|chapter later Hc _ IH]; [reflexivity|].
  cbn [repair_chapters].
  rewrite (bind_of_ok _ _ _ _ _ _
             (chapter_settled_quiet _ _ _ _ _ _ _ c d Hc)).
  rewrite IH. reflexivity.
Qed.

Lemma entry_settled_mono tid bid table table' chapter v :
  incl table table' ->
  entry_settled tid bid table chapter v -> entry_settled tid bid table' chapter v.
Proof.
  intros Hi (fields & E & [H|[Hh Hin]]); exists fields; split; auto.
  right. split; [exact Hh|]. eapply in_existing_mono; eassumption.
Qed.

Lemma chapter_settled_mono cdn tid code bid api table table' chapter :
  incl table table' ->
  chapter_settled cdn tid code bid api table chapter ->
  chapter_settled cdn tid code bid api table' chapter.
Proof.
  intros Hi [H|(entries & Hp & He)]; [left; exact H | right].
  exists entries. split; [exact Hp|].
  eapply Forall_impl; [|exact He]. intros v. apply entry_settled_mono, Hi.
Qed.

Lemma book_settled_mono cdn tid code table table' book :
  incl table table' ->
  book_settled cdn tid code table book -> book_settled cdn tid code table' book.
Proof.
  intros Hi. unfold book_settled.
  destruct (lookup (snd book) BOOK_NAMES) as [[|a api]|]; auto.
  intros [H|H].
  - left. eapply is_complete_mono; [|exact H]. apply scanned_len_mono, Hi.
  - right. eapply Forall_impl; [|exact H]. intros c. apply chapter_settled_mono, Hi.
Qed.

Lemma grows_incl d t d' : grows d t d' -> incl (verses d) (verses d').
Proof. intros (_ & V & _) r Hr. rewrite V. apply in_or_app. left. exact Hr. Qed.

Lemma grows_entry_safe : entry_safety grows.
Proof. exact (sf_entry grows (sf_chapter grows grows_safe)). Qed.

(** An insert loop that gives up at some attempt and returns normally has
    appended the row. *)
Lemma insert_attempts_ok tid bid chapter v t c attempts :
  truthy v = true -> truthy t = true ->
  forall d c',
    gives_up 2 attempts = true ->
    res (insert_attempts attempts tid bid chapter v t c d) = Ok c' ->
    exists verse txt,
      bind_param v = Ok verse /\ bind_param t = Ok txt /\
      In (stored (engine d) (mkRow tid bid chapter verse txt))
        (verses (final (insert_attempts attempts tid bid chapter v t c d))).
Proof.
  intros Hv Ht.
  destruct (bind_param v) as [verse|e] eqn:Bv.
  2:{ intros d c' Hg. destruct attempts as [|a later]; [discriminate|].
      cbn [insert_attempts]. unfold try_except, bind, execute_insert.
      rewrite Bv. cbn [raise res final out].
      destruct (bind_param_raise _ _ Bv) as [-> | ->]; discriminate. }
  destruct (bind_param t) as [txt|e] eqn:Bt.
  2:{ intros d c' Hg. destruct attempts as [|a later]; [discriminate|].
      cbn [insert_attempts]. unfold try_except, bind, execute_insert.
      rewrite Bv, Bt. cbn [raise res final out].
      destruct (bind_param_raise _ _ Bt) as [-> | ->]; discriminate. }
  induction attempts as [|a later IH]; intros d c' Hg Hok; [discriminate|].
  exists verse, txt. split; [reflexivity|]. split; [reflexivity|].
  rewrite (insert_attempts_step _ _ _ _ _ _ _ verse txt) in * by assumption.
  destruct (fst (next_fault d)) as [msg|].
  - destruct (is_lock msg && (a <? 2)) eqn:Hretry; [|discriminate].
    cbv zeta in *. cbn [res final] in *.
    apply andb_true_iff in Hretry. destruct Hretry as [_ Ha]. apply Z.ltb_lt in Ha.
    cbn [gives_up existsb] in Hg.
    replace (2 <=? a) with false in Hg by (symmetry; apply Z.leb_gt; lia).
    destruct (IH _ _ Hg Hok) as (verse' & txt' & E1 & E2 & Hin).
    inversion E1; inversion E2; subst. rewrite next_fault_engine in Hin. exact Hin.
  - cbn [final appended verses]. apply in_or_app. right. left. reflexivity.
Qed.

Lemma write_entry_settles tid bid table chapter v c d c' :
  entry_kept (engine d) v ->
  incl table (verses d) ->
  res (write_entry tid bid chapter (scanned tid bid table) v c d) = Ok c' ->
  entry_settled tid bid
    (verses (final (write_entry tid bid chapter (scanned tid bid table) v c d)))
    chapter v.
Proof.
  intros Hk Hi. unfold write_entry. destruct v; try discriminate.
  specialize (Hk fields eq_refl).
  fold (verse_num_of fields) (text_of fields).
  exists fields. split; [reflexivity|].
  destruct (truthy (verse_num_of fields)) eqn:Hv; cbn [negb orb] in *; [|auto].
  destruct (truthy (text_of fields)) eqn:Ht; cbn [negb orb] in *; [|auto].
  right.
  destruct (hashable (verse_num_of fields)) eqn:Hh; cbn [negb] in *; [|discriminate].
  split; [reflexivity|].
  destruct (in_existing chapter (verse_num_of fields) (scanned tid bid table)) eqn:Hin;
    cbn [negb] in *.
  - cbn [ret final]. eapply in_existing_mono; eassumption.
  - destruct (insert_attempts_ok tid bid chapter _ _ c (range 0 3) Hv Ht d c'
                eq_refl H) as (verse & txt & Bv & Bt & Hr).
    apply in_existing_scanned. eexists. split; [exact Hr|].
    cbn [stored r_translation r_book r_chapter r_verse].
    repeat split. apply Hk, Bv.
Qed.

Lemma write_entries_settle tid bid table chapter entries :
  forall c d c',
    Forall (entry_kept (engine d)) entries ->
    incl table (verses d) ->
    res (write_entries tid bid chapter (scanned tid bid table) entries c d) = Ok c' ->
    Forall (entry_settled tid bid
              (verses (final (write_entries tid bid chapter (scanned tid bid table)
                                entries c d))) chapter) entries.
Proof.
  induction entries as [|v later IH]; intros c d c' Hk Hi Hok; [constructor|].
  inversion Hk as [|? ? Hk1 Hk2]; subst.
  cbn [write_entries] in *.
  apply bind_ok_inv in Hok. destruct Hok as (c1 & H1 & H2 & _ & Hfin).
  rewrite Hfin.
  set (o1 := write_entry tid bid chapter (scanned tid bid table) v c d) in *.
  pose proof (grows_incl _ _ _
                (respects_write_entry grows grows_entry_safe tid bid chapter
                   (scanned tid bid table) v c d)) as G1.
  fold o1 in G1.
  pose proof (respects_write_entry keeps_engine
                (sf_entry _ (sf_chapter _ keeps_engine_safe)) tid bid chapter
                (scanned tid bid table) v c d) as E1.
  fold o1 in E1. unfold keeps_engine in E1.
  pose proof (grows_incl _ _ _
                (respects_write_entries grows grows_entry_safe tid bid chapter
                   (scanned tid bid table) later c1 (final o1))) as G2.
  constructor.
  - eapply entry_settled_mono; [exact G2|].
    exact (write_entry_settles _ _ _ _ _ _ _ _ Hk1 Hi H1).
  - apply (IH c1 (final o1) c'); [rewrite E1; exact Hk2| |exact H2].
    intros r Hr. apply G1, Hi, Hr.
Qed.

Lemma grows_chapter_safe : chapter_safety grows.
Proof. exact (sf_chapter grows grows_safe). Qed.

Lemma repair_chapter_settles cdn tid code bid api table chapter c d c' :
  answers_kept (engine d) cdn ->
  incl table (verses d) ->
  res (repair_chapter cdn tid code bid api (scanned tid bid table) chapter c d) = Ok c' ->
  chapter_settled cdn tid code bid api
    (verses (final (repair_chapter cdn tid code bid api (scanned tid bid table)
                      chapter c d))) chapter.
Proof.
  intros Hk Hi. unfold repair_chapter.
  rewrite (bind_of_ok _ _ _ _ _ _ (download_chapter_eq cdn code api chapter d)).
  cbn [res final]. unfold chapter_settled.
  specialize (Hk code api chapter).
  set (cv := chapter_payload cdn code api chapter) in *.
  intros Hok. apply bind_ok_inv in Hok.
  destruct Hok as (c1 & H1 & _ & _ & Hfin). rewrite Hfin. clear Hfin.
  cbn [bind sleep emit ret res final].
  destruct (truthy cv); [right | left; reflexivity].
  destruct (py_iter cv) as [entries|]; [|discriminate].
  exists entries. split; [reflexivity|].
  exact (write_entries_settle _ _ _ _ _ _ _ _ (Hk _ eq_refl) Hi H1).
Qed.

Lemma repair_chapters_settle cdn tid code bid api table chapters :
  forall c d c',
    answers_kept (engine d) cdn ->
    incl table (verses d) ->
    res (repair_chapters cdn tid code bid api (scanned tid bid table) chapters c d)
    = Ok c' ->
    Forall (chapter_settled cdn tid code bid api
              (verses (final (repair_chapters cdn tid code bid api
                                (scanned tid bid table) chapters c d))))
      chapters.
Proof.
  induction chapters as [|chapter later IH]; intros c d c' Hk Hi Hok; [constructor|].
  cbn [repair_chapters] in *.
  apply bind_ok_inv in Hok. destruct Hok as (c1 & H1 & H2 & _ & Hfin).
  rewrite Hfin.
  set (o1 := repair_chapter cdn tid code bid api (scanned tid bid table) chapter c d)
    in *.
  pose proof (grows_incl _ _ _
                (respects_repair_chapter cdn grows grows_chapter_safe tid code bid api
                   (scanned tid bid table) chapter c d)) as G1.
  fold o1 in G1.
  pose proof (respects_repair_chapter cdn keeps_engine
                (sf_chapter _ keeps_engine_safe) tid code bid api
                (scanned tid bid table) chapter c d) as E1.
  fold o1 in E1. unfold keeps_engine in E1.
  pose proof (grows_incl _ _ _
                (respects_repair_chapters cdn grows grows_chapter_safe tid code bid
                   api (scanned tid bid table) later c1 (final o1))) as G2.
  constructor.
  - eapply chapter_settled_mono; [exact G2|].
    exact (repair_chapter_settles _ _ _ _ _ _ _ _ _ _ Hk Hi H1).
  - apply (IH c1 (final o1) c'); [rewrite E1; exact Hk| |exact H2].
    intros r Hr. apply G1, Hi, Hr.
Qed.

Lemma get_existing_verses_ok tid bid d existing :
  res (get_existing_verses tid bid d) = Ok existing ->
  existing = scanned tid bid (verses d) /\
  verses (final (get_existing_verses tid bid d)) = verses d.
Proof.
  intros H.
  destruct (fst (next_fault d)) as [msg|] eqn:Ef.
  - unfold get_existing_verses, bind, select_chapter_verse in H.
    destruct (next_fault d) as [f d']. cbn [fst] in Ef. subst f.
    cbn in H. discriminate.
  - rewrite (get_existing_verses_calm tid bid d Ef) in *. cbn [res final] in *.
    inversion H. split; [reflexivity | apply next_fault_verses].
Qed.

(** A document that was processed without a fatal error is settled by the
    table it leaves. *)
Lemma repair_book_settles cdn tid code book t d t' :
  answers_kept (engine d) cdn ->
  res (repair_book cdn tid code book t d) = Ok t' ->
  book_settled cdn tid code (verses (final (repair_book cdn tid code book t d))) book.
Proof.
  intros Hk. destruct book as [bid name]. unfold book_settled, repair_book.
  cbn [fst snd].
  destruct (lookup name BOOK_NAMES) as [[|a api]|]; auto.
  intros Hok. apply bind_ok_inv in Hok.
  destruct Hok as (existing & Hs & Hok & _ & Hfin). rewrite Hfin. clear Hfin.
  destruct (get_existing_verses_ok _ _ _ _ Hs) as [-> Hv].
  pose proof (respects_get_existing keeps_engine keeps_engine_safe tid bid d) as E1.
  unfold keeps_engine in E1.
  set (d1 := final (get_existing_verses tid bid d)) in *.
  destruct (is_complete (len (scanned tid bid (verses d)))
              (dict_get VERSE_COUNTS name 0)) eqn:Hc.
  - left. cbn [bind print emit ret res final]. rewrite Hv. exact Hc.
  - right.
    destruct (repair_incomplete_ok _ _ _ _ _ _ _ _ _ _ _ _ Hok)
      as (c & failed & Hch & _ & _ & _ & Hvf & _).
    rewrite Hvf.
    apply (repair_chapters_settle cdn tid code bid (String a api) (verses d)
             _ _ d1 c); [rewrite E1; exact Hk| |exact Hch].
    rewrite Hv. apply incl_refl.
Qed.

Lemma repair_books_settle cdn tid code todo :
  forall t d t',
    answers_kept (engine d) cdn ->
    res (repair_books cdn tid code todo t d) = Ok t' ->
    Forall (book_settled cdn tid code
              (verses (final (repair_books cdn tid code todo t d)))) todo.
Proof.
  induction todo as [|book later IH]; intros t d t' Hk Hok; [constructor|].
  cbn [repair_books] in *.
  apply bind_ok_inv in Hok. destruct Hok as (t1 & H1 & H2 & _ & Hfin).
  rewrite Hfin.
  pose proof (respects_repair_book cdn keeps_engine keeps_engine_safe tid code book t d)
    as E1.
  unfold keeps_engine in E1.
  constructor.
  - eapply book_settled_mono; [|exact (repair_book_settles _ _ _ _ _ _ _ Hk H1)].
    exact (grows_incl _ _ _
             (respects_repair_books cdn grows grows_safe tid code later t1
                (final (repair_book cdn tid code book t d)))).
  - apply (IH t1 _ t'); [rewrite E1; exact Hk | exact H2].
Qed.

Lemma quiet_pure {A} (a : A) d t :
  existsb is_insert t = false -> quiet d (mkOutcome (Ok a) d t).
Proof. intros H. unfold quiet. cbn [res final out]. auto. Qed.

Lemma quiet_bind {A B} (c : M A) (k : A -> M B) d :
  quiet d (c d) ->
  (forall a, res (c d) = Ok a -> quiet (final (c d)) (k a (final (c d)))) ->
  quiet d (bind c k d).
Proof.
  intros (V & B1 & I & C) Hk. unfold bind.
  destruct (res (c d)) as [a|e] eqn:E.
  - destruct (Hk a eq_refl) as (V' & B' & I' & C').
    unfold quiet. cbn [res final out].
    rewrite existsb_app, I, I'.
    split; [congruence|]. split; [congruence|]. split; [reflexivity|].
    intros Hc. apply C', C, Hc.
  - unfold quiet. cbn [res final out].
    split; [exact V|]. split; [exact B1|]. split; [exact I|].
    intros Hc. destruct (C Hc) as [Hok _]. discriminate.
Qed.

(** A store operation that fails, or succeeds without writing a row. *)
Lemma quiet_store_step {A} d (r : result A) d' t :
  verses d' = verses d -> books d' = books d ->
  existsb is_insert t = false ->
  (fst (next_fault d) = None -> is_ok r = true /\ faults d' = faults (snd (next_fault d))) ->
  quiet d (mkOutcome r d' t).
Proof.
  intros V B1 I C. unfold quiet. cbn [res final out].
  split; [exact V|]. split; [exact B1|]. split; [exact I|].
  intros Hc. destruct (next_fault_calm d Hc) as [Hn Hc'].
  destruct (C Hn) as [Hok Hf]. rewrite Hf. auto.
Qed.

Lemma commit_attempts_quiet attempts : forall d, quiet d (commit_attempts attempts d).
Proof.
  induction attempts as [|a later IH]; intros d.
  - apply quiet_pure. reflexivity.
  - rewrite commit_attempts_step.
    destruct (fst (next_fault d)) as [msg|] eqn:Ef.
    + destruct (is_lock msg && (a <? 4)).
      * cbv zeta. destruct (IH (snd (next_fault d))) as (V & B1 & I & C).
        apply quiet_store_step.
        -- rewrite V. apply next_fault_verses.
        -- rewrite B1. apply next_fault_books.
        -- exact I.
        -- rewrite Ef. discriminate.
      * apply quiet_store_step;
          auto using next_fault_verses, next_fault_books.
        rewrite Ef. discriminate.
    + apply quiet_store_step; unfold committed; cbn [verses books faults];
        auto using next_fault_verses, next_fault_books.
Qed.

Lemma get_existing_verses_quiet tid bid d : quiet d (get_existing_verses tid bid d).
Proof.
  unfold get_existing_verses, bind, select_chapter_verse.
  pose proof (next_fault_verses d) as V. pose proof (next_fault_books d) as B1.
  destruct (next_fault d) as [[msg|] d'] eqn:E;
    cbn [fst snd res final out app ret] in *;
    apply quiet_store_step; rewrite ?E; cbn [fst snd]; auto; discriminate.
Qed.

Lemma select_books_quiet d : quiet d (select_books d).
Proof.
  unfold select_books.
  pose proof (next_fault_verses d) as V. pose proof (next_fault_books d) as B1.
  destruct (next_fault d) as [[msg|] d'] eqn:E;
    cbn [fst snd res final out app ret] in *;
    apply quiet_store_step; rewrite ?E; cbn [fst snd]; auto; discriminate.
Qed.

Lemma existsb_insert_fetches code api chapters :
  existsb is_insert
    (flat_map (fun chapter => [EvFetchChapter code api chapter; EvSleep 100]) chapters)
  = false.
Proof. induction chapters as [|c l IH]; [reflexivity | exact IH]. Qed.

(** A settled document is passed over without a write, and the added
    total is left as it was. *)
Lemma repair_book_quiet cdn tid code book t d :
  book_settled cdn tid code (verses d) book ->
  quiet d (repair_book cdn tid code book t d) /\
  (forall t', res (repair_book cdn tid code book t d) = Ok t' ->
              total_added t' = total_added t).
Proof.
  destruct book as [bid name]. unfold book_settled, repair_book. cbn [fst snd].
  assert (skip : forall line d', quiet d' ((print line ;; ret t) d') /\
                 (forall t', res ((print line ;; ret t) d') = Ok t' ->
                             total_added t' = total_added t)).
  { intros line d'. split.
    - apply quiet_pure. reflexivity.
    - cbn. intros t' E. inversion E. reflexivity. }
  destruct (lookup name BOOK_NAMES) as [[|a api]|]; try (intros _; apply skip).
  intros Hs. split.
  - apply quiet_bind; [apply get_existing_verses_quiet|].
    intros existing He. destruct (get_existing_verses_ok _ _ _ _ He) as [-> Hv].
    set (d1 := final (get_existing_verses tid bid d)) in *.
    destruct (is_complete _ _) eqn:Hc; [apply skip|].
    destruct Hs as [Hs|Hs]; [congruence|].
    unfold repair_incomplete.
    apply quiet_bind; [apply quiet_pure; reflexivity|]. intros _ _.
    cbn [print emit final].
    rewrite (bind_of_ok _ _ _ _ _ _
               (chapters_settled_quiet cdn tid code bid (String a api) (verses d)
                  _ (0, total_added t) d1 Hs)).
    cbn [fst snd Z.gtb Z.compare].
    set (k := bind (commit_attempts (range 0 5)) _).
    assert (Hk : quiet d1 (k d1)).
    { subst k. apply quiet_bind; [apply commit_attempts_quiet|]. intros _ _.
      apply quiet_pure. reflexivity. }
    destruct Hk as (V & B1 & I & C). unfold quiet. cbn [res final out].
    rewrite existsb_app, existsb_insert_fetches, I. auto.
  - intros t' Hok. apply bind_ok_inv in Hok.
    destruct Hok as (existing & He & Hok & _).
    destruct (get_existing_verses_ok _ _ _ _ He) as [-> Hv].
    set (d1 := final (get_existing_verses tid bid d)) in *.
    destruct (is_complete _ _) eqn:Hc.
    { cbn in Hok. inversion Hok. reflexivity. }
    destruct Hs as [Hs|Hs]; [congruence|].
    destruct (repair_incomplete_ok _ _ _ _ _ _ _ _ _ _ _ _ Hok)
      as (c & failed & Hch & _ & _ & _ & _ & _ & _ & ->).
    rewrite (chapters_settled_quiet cdn tid code bid (String a api) (verses d)
               _ (0, total_added t) d1 Hs) in Hch.
    cbn [res] in Hch. inversion Hch. reflexivity.
Qed.

Lemma repair_books_quiet cdn tid code todo :
  forall t d,
    Forall (book_settled cdn tid code (verses d)) todo ->
    quiet d (repair_books cdn tid code todo t d) /\
    (forall t', res (repair_books cdn tid code todo t d) = Ok t' ->
                total_added t' = total_added t).
Proof.
  induction todo as [|book later IH]; intros t d Hs.
  - split; [apply quiet_pure; reflexivity|].
    cbn. intros t' E. inversion E. reflexivity.
  - inversion Hs as [|? ? Hb Hl]; subst. cbn [repair_books].
    destruct (repair_book_quiet cdn tid code book t d Hb) as [Q1 A1].
    assert (Hl' : Forall (book_settled cdn tid code
                            (verses (final (repair_book cdn tid code book t d))))
                    later).
    { destruct Q1 as [V _]. rewrite V. exact Hl. }
    split.
    + apply quiet_bind; [exact Q1|]. intros t1 _. apply IH, Hl'.
    + intros t' Hok. apply bind_ok_inv in Hok.
      destruct Hok as (t1 & H1 & H2 & _).
      destruct (IH t1 _ Hl') as [_ A2]. rewrite (A2 _ H2). apply A1, H1.
Qed.

Lemma select_books_ok d todo :
  res (select_books d) = Ok todo ->
  todo = order_by_id (books d) /\ verses (final (select_books d)) = verses d.
Proof.
  unfold select_books.
  pose proof (next_fault_verses d) as V. pose proof (next_fault_books d) as B1.
  destruct (next_fault d) as [[msg|] d']; cbn [fst snd res final] in *;
    [discriminate|].
  intros E. inversion E. rewrite B1. auto.
Qed.

(* ===================================================================== *)
(** ** Idempotence *)

(** C1, on the code.  The provider numbers the two verses of a chapter
    with the texts ["1"] and ["2"].  The first pass writes them, and the
    [INTEGER] column stores the integers 1 and 2.  The second pass scans
    [(1, 1)] and [(1, 2)], does not find [(1, "1")] and [(1, "2")] among
    them at line 182, and writes both units again: it reports two units
    added, and the table ends with two rows of each key. *)
Theorem C1_second_pass_writes_the_units_again :
  let r1 := mkRow "KJV" 8 1 (SInt 1) (SText "Now it came to pass") in
  let r2 := mkRow "KJV" 8 1 (SInt 2) (SText "And the name") in
  let o1 := repair_translation text_cdn "KJV" (mkDb [(8, "Ruth")] [] [] [] sqlite_digits) in
  let o2 := repair_translation text_cdn "KJV" (final o1) in
  res o1 = Ok (Some (mkTally 2 83 [mkStats "Ruth" 0 85 2])) /\
  verses (final o1) = [r1; r2] /\
  scanned "KJV" 8 (verses (final o1)) = [(1, SInt 1); (1, SInt 2)] /\
  in_existing 1 (JStr "1") (scanned "KJV" 8 (verses (final o1))) = false /\
  res o2 = Ok (Some (mkTally 2 81 [mkStats "Ruth" 2 85 2])) /\
  inserted (out o2) = [r1; r2] /\
  verses (final o2) = [r1; r2; r1; r2] /\
  key_count r1 (verses (final o2)) = 2%nat.
Proof. vm_compute. repeat split. Qed.

Lemma no_insert_inserted t : existsb is_insert t = false -> inserted t = [].
Proof.
  induction t as [|e t IH]; [reflexivity|]. cbn [existsb]. intros H.
  apply orb_false_iff in H. destruct H as [He Ht].
  unfold inserted. cbn [flat_map]. fold (inserted t). rewrite (IH Ht).
  destruct e as [| |r [f|]| | | | |]; try reflexivity; discriminate.
Qed.

(** Integers and booleans read back as they were sent, and so does a text
    that the engine does not read as a number. *)
Lemma number_kept_cases e v :
  match v with
  | JStr s => numeric_text e s = None
  | _ => True
  end ->
  number_kept e v.
Proof.
  intros H verse Bv. pose proof (bind_param_eq _ _ Bv) as E.
  destruct v as [|b|z|s|items|fields]; cbn [bind_param] in Bv; try discriminate.
  - inversion Bv. reflexivity.
  - inversion Bv. subst verse. exact E.
  - destruct (_ && _); inversion Bv. subst verse. exact E.
  - inversion Bv. subst verse. cbn [integer_affinity]. rewrite H. exact E.
Qed.

(** X26.  When every verse number of the provider reads back from the
    store as it was sent (an integer does, a text does when the engine
    does not read it as a number), a second pass adds nothing.  Let a
    first run of [repair_translation] return without a fatal error, and
    run it again on the store it left, with the same CDN answers and any
    fault schedule.  The second run re-scans the keys and finds every
    fetched key present: it writes no row, the table of verses is the
    one the first run left, and the added total it reports is zero.  It raises no error unless the store itself fails
    under it: with a schedule free of faults it returns normally. *)
Theorem X26_second_pass_adds_nothing_when_numbers_are_kept
    (cdn_chapter : string -> string -> Z -> response) (translation_id : string)
    (d : db) (schedule : list (option string)) :
  answers_kept (engine d) cdn_chapter ->
  let o1 := repair_translation cdn_chapter translation_id d in
  is_ok (res o1) = true ->
  let o2 := repair_translation cdn_chapter translation_id
              (with_faults (final o1) schedule) in
  verses (final o2) = verses (final o1) /\
  inserted (out o2) = [] /\
  (forall t2, res o2 = Ok (Some t2) -> total_added t2 = 0) /\
  (calm schedule -> is_ok (res o2) = true).
Proof.
  intros Hkept o1 Hok1 o2. subst o1 o2. unfold repair_translation in *.
  destruct (lookup translation_id TRANSLATIONS) as [[|a code]|];
    try (cbn; repeat split; intros; discriminate).
  set (code' := String a code) in *.
  destruct (res (bind select_books _ d)) as [r1|] eqn:H1; [clear Hok1|discriminate].
  apply bind_ok_inv in H1. destruct H1 as (todo & Hsel & H1 & _ & Hfin).
  rewrite Hfin. clear Hfin.
  destruct (select_books_ok _ _ Hsel) as [Htodo _].
  set (ds := final (select_books d)) in *.
  apply bind_ok_inv in H1. destruct H1 as (t1 & Hbooks & _ & _ & Hfin).
  rewrite Hfin. clear Hfin. cbn [bind print emit ret res final].
  set (ob := repair_books cdn_chapter translation_id code' todo (mkTally 0 0 []) ds)
    in *.
  assert (Hkept' : answers_kept (engine ds) cdn_chapter).
  { pose proof (respects_select_books keeps_engine keeps_engine_safe d) as E.
    unfold keeps_engine in E. fold ds in E. rewrite E. exact Hkept. }
  pose proof (repair_books_settle _ _ _ _ _ _ _ Hkept' Hbooks) as Hset.
  fold ob in Hset.
  assert (Hb : books (final ob) = books d).
  { destruct (respects_repair_books cdn_chapter grows grows_safe translation_id code'
                todo (mkTally 0 0 []) ds) as (B1 & _).
    fold ob in B1. rewrite B1.
    destruct (respects_select_books grows grows_safe d) as (B2 & _). exact B2. }
  set (d2 := with_faults (final ob) schedule).
  assert (Hq : quiet d2
                 ((todo0 <- select_books ;;
                   t <- repair_books cdn_chapter translation_id code' todo0
                          (mkTally 0 0 []) ;;
                   print (LogSummary translation_id (total_added t) (total_missing t)) ;;
                   ret (Some t)) d2) /\
               forall t2,
                 res ((todo0 <- select_books ;;
                       t <- repair_books cdn_chapter translation_id code' todo0
                              (mkTally 0 0 []) ;;
                       print (LogSummary translation_id (total_added t)
                                (total_missing t)) ;;
                       ret (Some t)) d2) = Ok (Some t2) ->
                 total_added t2 = 0).
  { assert (Hs2 : forall todo2, res (select_books d2) = Ok todo2 ->
                    todo2 = todo /\
                    Forall (book_settled cdn_chapter translation_id code'
                              (verses (final (select_books d2)))) todo).
    { intros todo2 E. destruct (select_books_ok _ _ E) as [-> V].
      split.
      - rewrite Htodo. unfold d2, with_faults. cbn [books]. rewrite Hb. reflexivity.
      - rewrite V. exact Hset. }
    split.
    - apply quiet_bind; [apply select_books_quiet|]. intros todo2 E.
      destruct (Hs2 _ E) as [-> Hs].
      apply quiet_bind; [apply repair_books_quiet, Hs|]. intros t _.
      apply quiet_pure. reflexivity.
    - intros t2 E. apply bind_ok_inv in E. destruct E as (todo2 & E & E2 & _).
      destruct (Hs2 _ E) as [-> Hs].
      apply bind_ok_inv in E2. destruct E2 as (t & Et & E2 & _).
      cbn in E2. inversion E2; subst t2.
      destruct (repair_books_quiet cdn_chapter translation_id code' todo
                  (mkTally 0 0 []) _ Hs) as [_ A].
      exact (A _ Et). }
  destruct Hq as [(V & _ & I & C) A].
  split; [exact V|]. split; [exact (no_insert_inserted _ I)|]. split; [exact A|].
  intros Hc. apply C. exact Hc.
Qed.

(* ===================================================================== *)
(** ** The scenario, run *)

(** With 80 of 85 verses the document is below the threshold: the first
    pass requests the four chapters, adds the five missing verses of
    chapter 4 and commits once; the second pass finds 85 verses, logs the
    document as complete and adds nothing. *)
Example ruth_scenario :
  let o1 := repair_translation ruth_cdn "KJV" (ruth_store []) in
  let o2 := repair_translation ruth_cdn "KJV" (final o1) in
  res o1 = Ok (Some (mkTally 5 0 [mkStats "Ruth" 80 85 5])) /\
  fetched (out o1) = map (EvFetchChapter "en-kjv" "ruth") [1; 2; 3; 4] /\
  inserted (out o1) = ruth_rows 4 18 5 /\
  durable (final o1) = ruth_80 ++ ruth_rows 4 18 5 /\
  res o2 = Ok (Some (mkTally 0 0 [])) /\
  out o2 = [EvSelectBooks None; EvScan "KJV" 8 None;
            EvPrint (LogComplete "Ruth" 85); EvPrint (LogSummary "KJV" 0 0)].
Proof. vm_compute. repeat split. Qed.

(** The provider of the scenario numbers its verses with integers. *)
Lemma ruth_cdn_kept e : answers_kept e ruth_cdn.
Proof.
  intros code api chapter entries. unfold chapter_payload, ruth_cdn.
  destruct ((code =? "en-kjv")%string && (api =? "ruth")%string); [|discriminate].
  destruct (find (fun cv => fst cv =? chapter) ruth_chapters) as [[c n]|];
    [|discriminate].
  unfold ruth_payload. change (dict_get _ "verses" _)
    with (JArr (map (fun v => JObj [("verse", JNum v); ("text", JStr "text of the verse")])
                  (range 1 n))).
  cbn [py_iter]. intros E. inversion E. apply Forall_forall.
  intros v Hv. apply in_map_iff in Hv. destruct Hv as (z & <- & _).
  intros fields Ef. inversion Ef. apply number_kept_cases. exact I.
Qed.

Lemma X26_second_pass_adds_nothing_when_numbers_are_kept_witness :
  let o1 := repair_translation ruth_cdn "KJV" (ruth_store []) in
  let o2 := repair_translation ruth_cdn "KJV"
              (with_faults (final o1) [Some "database is locked"]) in
  answers_kept (engine (ruth_store [])) ruth_cdn /\
  is_ok (res o1) = true /\
  verses (final o2) = verses (final o1) /\
  inserted (out o2) = [].
Proof.
  split; [apply ruth_cdn_kept|]. split; [vm_compute; reflexivity|].
  pose proof (X26_second_pass_adds_nothing_when_numbers_are_kept ruth_cdn "KJV"
                (ruth_store []) [Some "database is locked"]
                (ruth_cdn_kept _)) as H.
  cbv zeta in H. destruct (H ltac:(vm_compute; reflexivity)) as (V & I & _).
  split; [exact V | exact I].
Defined.

Lemma C3_repair_only_adds_witness :
  let o := repair_translation ruth_cdn "KJV" (ruth_store []) in
  prefix (durable (ruth_store [])) (verses (ruth_store [])) /\
  prefix (durable (ruth_store [])) (durable (final o)) /\
  verses (final o) = verses (ruth_store []) ++ inserted (out o).
Proof.
  assert (P : prefix (durable (ruth_store [])) (verses (ruth_store [])))
    by (exists []; reflexivity).
  split; [exact P|].
  destruct (C3_repair_only_adds ruth_cdn "KJV" (ruth_store []))
    as (_ & V & _ & _ & D).
  split; [apply D, P | exact V].
Defined.

Lemma C4_threshold_decides_the_fetches_witness :
  let d := ruth_store [] in
  let o := repair_book ruth_cdn "KJV" "en-kjv" (8, "Ruth") (mkTally 0 0 []) d in
  lookup "Ruth" BOOK_NAMES = Some "ruth" /\
  hd None (faults d) = None /\
  ~ ratio_reached (len (scanned "KJV" 8 (verses d))) (dict_get VERSE_COUNTS "Ruth" 0) /\
  is_ok (res o) = true /\
  fetched (out o) = map (EvFetchChapter "en-kjv" "ruth") (range 1 4).
Proof.
  assert (R : ~ ratio_reached (len (scanned "KJV" 8 (verses (ruth_store []))))
                (dict_get VERSE_COUNTS "Ruth" 0)).
  { vm_compute. intros H. apply H. reflexivity. }
  split; [reflexivity|]. split; [reflexivity|]. split; [exact R|].
  split; [vm_compute; reflexivity|].
  destruct (C4_threshold_decides_the_fetches ruth_cdn "KJV" "en-kjv" 8 "Ruth" "ruth"
              (mkTally 0 0 []) (ruth_store []) eq_refl eq_refl) as [_ H].
  destruct (H R) as [_ F]. apply F. vm_compute. reflexivity.
Defined.

Lemma C6_failed_fetch_is_isolated_witness :
  fetch_failed (ruth_cdn "en-kjv" "ruth" 5) = true /\
  download_chapter ruth_cdn "en-kjv" "ruth" 5 (ruth_store [])
  = mkOutcome (Ok JNull) (ruth_store []) [EvFetchChapter "en-kjv" "ruth" 5] /\
  (forall c, In c [5; 6] -> fetch_failed (ruth_cdn "en-kjv" "ruth" c) = true) /\
  repair_chapters ruth_cdn "KJV" "en-kjv" 8 "ruth" [] [5; 6] (0, 0) (ruth_store [])
  = mkOutcome (Ok (0, 0)) (ruth_store [])
      [EvFetchChapter "en-kjv" "ruth" 5; EvSleep 100;
       EvFetchChapter "en-kjv" "ruth" 6; EvSleep 100].
Proof.
  assert (F : forall c, In c [5; 6] -> fetch_failed (ruth_cdn "en-kjv" "ruth" c) = true).
  { intros c [<-|[<-|[]]]; reflexivity. }
  destruct (C6_failed_fetch_is_isolated ruth_cdn "KJV" "en-kjv" 8 "ruth" [] 5 [6]
              (0, 0) (ruth_store []) [5; 6] (ruth_store [])) as (H1 & H2 & _).
  split; [reflexivity|]. split; [apply H1; reflexivity|].
  split; [exact F | apply H2, F].
Defined.




(* ===================================================================== *)
(** ** The pass writes into its own partition only *)

Lemma emits_ret {A} P (a : A) : emits P (ret a).
Proof. intros d. constructor. Qed.

Lemma emits_raise {A} P e : emits P (@raise A e).
Proof. intros d. constructor. Qed.

Lemma emits_emit P e : P e -> emits P (emit e).
Proof. intros H d. repeat constructor. exact H. Qed.

Lemma emits_bind {A B} P (c : M A) (k : A -> M B) :
  emits P c -> (forall a, emits P (k a)) -> emits P (bind c k).
Proof.
  intros Hc Hk d. unfold bind. specialize (Hc d).
  destruct (res (c d)) as [a|e]; cbn [out]; [|exact Hc].
  apply Forall_app. split; [exact Hc | apply Hk].
Qed.

Lemma emits_try {A} P (c : M A) (h : exn -> M A) :
  emits P c -> (forall e, emits P (h e)) -> emits P (try_except c h).
Proof.
  intros Hc Hh d. unfold try_except. specialize (Hc d).
  destruct (res (c d)) as [a|e]; cbn [out]; [exact Hc|].
  apply Forall_app. split; [exact Hc | apply Hh].
Qed.

Lemma emits_insert_row P bound :
  (forall e failure, P (EvInsert (stored e bound) failure)) ->
  emits P (insert_row bound).
Proof.
  intros H d. unfold insert_row.
  destruct (next_fault d) as [[msg|] d']; [repeat constructor; apply H|].
  destruct (violates_constraint _ (verses d')); repeat constructor; apply H.
Qed.

Lemma emits_execute_insert P tid bid chapter v t :
  (forall verse txt failure, P (EvInsert (mkRow tid bid chapter verse txt) failure)) ->
  emits P (execute_insert tid bid chapter v t).
Proof.
  intros H. unfold execute_insert.
  destruct (bind_param v); [|apply emits_raise].
  destruct (bind_param t); [|apply emits_raise].
  apply emits_insert_row. intros. unfold stored. apply H.
Qed.

Lemma emits_insert_attempts P attempts tid bid chapter v t c :
  (forall verse txt failure, P (EvInsert (mkRow tid bid chapter verse txt) failure)) ->
  (forall ms, P (EvSleep ms)) ->
  emits P (insert_attempts attempts tid bid chapter v t c).
Proof.
  intros Hi Hs. induction attempts as [|a later IH]; cbn [insert_attempts].
  - apply emits_ret.
  - apply emits_try.
    + apply emits_bind; [apply emits_execute_insert, Hi | intros; apply emits_ret].
    + intros [|msg| | | |]; try apply emits_raise; try apply emits_ret.
      destruct (contains "locked" msg && (a <? 2)); [|apply emits_raise].
      apply emits_bind; [apply emits_emit, Hs | intros; exact IH].
Qed.

Lemma emits_write_entries P tid bid chapter existing entries :
  (forall verse txt failure, P (EvInsert (mkRow tid bid chapter verse txt) failure)) ->
  (forall ms, P (EvSleep ms)) ->
  forall c, emits P (write_entries tid bid chapter existing entries c).
Proof.
  intros Hi Hs. induction entries as [|v later IH]; intros c; cbn [write_entries].
  - apply emits_ret.
  - apply emits_bind; [|intros; apply IH].
    unfold write_entry. destruct v; try apply emits_raise.
    destruct (negb _ || negb _); [apply emits_ret|].
    destruct (negb (hashable _)); [apply emits_raise|].
    destruct (negb (in_existing _ _ _)); [|apply emits_ret].
    apply emits_insert_attempts; assumption.
Qed.

Lemma emits_repair_chapters P cdn tid code bid api existing chapters :
  (forall chapter verse txt failure,
      In chapter chapters -> P (EvInsert (mkRow tid bid chapter verse txt) failure)) ->
  (forall ms, P (EvSleep ms)) ->
  (forall c a ch, P (EvFetchChapter c a ch)) ->
  forall c, emits P (repair_chapters cdn tid code bid api existing chapters c).
Proof.
  intros Hi Hs Hf. induction chapters as [|chapter later IH]; intros c;
    cbn [repair_chapters].
  - apply emits_ret.
  - apply emits_bind.
    + unfold repair_chapter.
      apply emits_bind.
      { unfold download_chapter. apply emits_bind; [apply emits_emit, Hf|].
        intros _. destruct (cdn code api chapter) as [| | |[]]; apply emits_ret. }
      intros cv. apply emits_bind.
      * destruct (truthy cv); [|apply emits_ret].
        destruct (py_iter cv); [|apply emits_raise].
        apply emits_write_entries; [|exact Hs].
        intros. apply Hi. left. reflexivity.
      * intros c'. apply emits_bind; [apply emits_emit, Hs | intros; apply emits_ret].
    + intros c'. apply IH. intros. apply Hi. right. assumption.
Qed.

Lemma emits_commit_attempts P attempts :
  (forall failure, P (EvCommit failure)) ->
  (forall ms, P (EvSleep ms)) -> (forall line, P (EvPrint line)) ->
  emits P (commit_attempts attempts).
Proof.
  intros Hc Hs Hp. induction attempts as [|a later IH]; cbn [commit_attempts].
  - apply emits_ret.
  - apply emits_try.
    + intros d. unfold commit.
      destruct (next_fault d) as [[msg|] d']; repeat constructor; apply Hc.
    + intros [|msg| | | |]; try apply emits_raise.
      destruct (contains "locked" msg && (a <? 4)); [|apply emits_raise].
      apply emits_bind; [apply emits_emit, Hp|]. intros _.
      apply emits_bind; [apply emits_emit, Hs | intros; exact IH].
Qed.

Lemma range_bounds a n c : In c (range a n) -> a <= c < a + n.
Proof.
  unfold range. intros H. apply in_map_iff in H. destruct H as (i & <- & Hi).
  apply in_seq in Hi. lia.
Qed.

Lemma emits_get_existing P tid bid :
  (forall failure, P (EvScan tid bid failure)) -> emits P (get_existing_verses tid bid).
Proof.
  intros H. unfold get_existing_verses.
  apply emits_bind; [|intros; apply emits_ret].
  intros d. unfold select_chapter_verse.
  destruct (next_fault d) as [[msg|] d']; repeat constructor; apply H.
Qed.

Lemma insert_in_partition_other tid table e :
  is_insert e = false -> insert_in_partition tid table e.
Proof. destruct e; cbn; intros; try exact I. discriminate. Qed.

Lemma emits_repair_book cdn tid code table book t :
  In book table ->
  emits (insert_in_partition tid table) (repair_book cdn tid code book t).
Proof.
  intros Hin. destruct book as [bid name]. unfold repair_book.
  assert (other : forall e, is_insert e = false -> insert_in_partition tid table e)
    by (intros; apply insert_in_partition_other; assumption).
  assert (skip : forall line, emits (insert_in_partition tid table) (print line ;; ret t)).
  { intros line. apply emits_bind; [apply emits_emit, other; reflexivity|].
    intros; apply emits_ret. }
  destruct (lookup name BOOK_NAMES) as [[|a api]|] eqn:Hb; try apply skip.
  apply emits_bind; [apply emits_get_existing; intros; apply other; reflexivity|].
  intros existing. destruct (is_complete _ _); [apply skip|].
  unfold repair_incomplete.
  apply emits_bind; [apply emits_emit, other; reflexivity|]. intros _.
  apply emits_bind.
  - apply emits_repair_chapters; try (intros; apply other; reflexivity).
    intros chapter verse txt failure Hc. cbn [insert_in_partition r_translation
                                            r_book r_chapter].
    split; [reflexivity|]. exists name. split; [exact Hin|].
    split; [rewrite Hb; discriminate|]. apply range_bounds in Hc. lia.
  - intros c. apply emits_bind.
    + apply emits_commit_attempts; intros; apply other; reflexivity.
    + intros _. apply emits_bind; [|intros; apply emits_ret].
      destruct (fst c >? 0); [apply emits_emit, other; reflexivity | apply emits_ret].
Qed.

Lemma emits_repair_books cdn tid code table todo :
  incl todo table ->
  forall t, emits (insert_in_partition tid table) (repair_books cdn tid code todo t).
Proof.
  induction todo as [|book later IH]; intros Hi t; cbn [repair_books].
  - apply emits_ret.
  - apply emits_bind.
    + apply emits_repair_book. apply Hi. left. reflexivity.
    + intros t'. apply IH. intros b Hb. apply Hi. right. exact Hb.
Qed.

Lemma insert_by_id_in b x l : In x (insert_by_id b l) <-> x = b \/ In x l.
Proof.
  induction l as [|b' l IH]; cbn [insert_by_id In].
  - intuition.
  - destruct (fst b <=? fst b'); cbn [In]; [intuition|].
    rewrite IH. intuition.
Qed.

Lemma order_by_id_in x l : In x (order_by_id l) <-> In x l.
Proof.
  induction l as [|b l IH]; cbn [order_by_id fold_right In]; [tauto|].
  fold (order_by_id l). rewrite insert_by_id_in, IH. intuition.
Qed.

(** X1.  Whatever the CDN answers and whatever faults hit the store,
    every insert that [repair_translation] attempts carries the
    translation id it was called with, the id of a row of the books table
    whose name has a provider name, and a chapter between 1 and the
    chapter count of that book; so do the rows it adds to the table.  The
    translation id is then one of the keys of [TRANSLATIONS]. *)
Theorem X1_repair_writes_its_own_partition
    (cdn_chapter : string -> string -> Z -> response) (translation_id : string)
    (d : db) :
  let o := repair_translation cdn_chapter translation_id d in
  Forall (insert_in_partition translation_id (books d)) (out o) /\
  (forall r, In r (verses (final o)) ->
             In r (verses d) \/
             (row_in_partition translation_id (books d) r /\
              lookup translation_id TRANSLATIONS <> None)).
Proof.
  intros o.
  assert (E : Forall (insert_in_partition translation_id (books d)) (out o)).
  { subst o. unfold repair_translation.
    assert (other : forall e, is_insert e = false ->
                              insert_in_partition translation_id (books d) e)
      by (intros; apply insert_in_partition_other; assumption).
    destruct (lookup translation_id TRANSLATIONS) as [[|a code]|];
      try (repeat constructor).
    unfold bind at 1.
    destruct (res (select_books d)) as [todo|e] eqn:Hs.
    - destruct (select_books_ok _ _ Hs) as [-> _]. cbn [out].
      apply Forall_app. split.
      + unfold select_books. destruct (next_fault d) as [[msg|] d'];
          repeat constructor.
      + apply emits_bind.
        * apply emits_repair_books. intros b Hb. apply order_by_id_in, Hb.
        * intros t. apply emits_bind; [apply emits_emit, other; reflexivity|].
          intros; apply emits_ret.
    - cbn [out]. unfold select_books. destruct (next_fault d) as [[msg|] d'];
        repeat constructor. }
  split; [exact E|].
  intros r Hr.
  destruct (respects_repair_translation cdn_chapter grows grows_safe translation_id d)
    as (_ & V & _).
  fold o in V. rewrite V in Hr. apply in_app_or in Hr.
  destruct Hr as [Hr|Hr]; [left; exact Hr | right].
  unfold inserted in Hr. apply in_flat_map in Hr. destruct Hr as (e & He & Hr).
  rewrite Forall_forall in E. specialize (E e He).
  destruct e as [| |r' [f|]| | | | |]; cbn in Hr; try contradiction.
  destruct Hr as [<-|[]]. split; [exact E|].
  subst o. unfold repair_translation in He.
  destruct (lookup translation_id TRANSLATIONS) as [[|a code]|]; try discriminate;
    cbn in He; destruct He as [He|[]]; discriminate.
Qed.

(* ===================================================================== *)
(** ** The added total is the number of rows written *)

Lemma len_app {A} (a b : list A) : len (a ++ b) = len a + len b.
Proof. unfold len. rewrite length_app. lia. Qed.

Lemma inserted_cons_other e t : is_insert e = false -> inserted (e :: t) = inserted t.
Proof. destruct e; cbn; intros; try reflexivity. discriminate. Qed.

Lemma counted_by_refl c : counted_by c c [].
Proof. unfold counted_by. cbn. lia. Qed.

Lemma counted_by_trans a b c t1 t2 :
  counted_by a b t1 -> counted_by b c t2 -> counted_by a c (t1 ++ t2).
Proof. unfold counted_by. rewrite inserted_app, len_app. lia. Qed.

Lemma execute_insert_inserted tid bid chapter v t d :
  match res (execute_insert tid bid chapter v t d) with
  | Ok _ => len (inserted (out (execute_insert tid bid chapter v t d))) = 1
  | Raise _ => inserted (out (execute_insert tid bid chapter v t d)) = []
  end.
Proof.
  unfold execute_insert.
  destruct (bind_param v); [|reflexivity].
  destruct (bind_param t); [|reflexivity].
  unfold insert_row. destruct (next_fault d) as [[msg|] d']; [reflexivity|].
  destruct (violates_constraint _ _); reflexivity.
Qed.

Lemma insert_attempts_counted attempts tid bid chapter v t c :
  forall d c',
    res (insert_attempts attempts tid bid chapter v t c d) = Ok c' ->
    counted_by c c' (out (insert_attempts attempts tid bid chapter v t c d)).
Proof.
  induction attempts as [|a later IH]; intros d c'; cbn [insert_attempts].
  - cbn. intros E. inversion E. apply counted_by_refl.
  - unfold try_except, bind.
    pose proof (execute_insert_inserted tid bid chapter v t d) as Hx.
    destruct (res (execute_insert tid bid chapter v t d)) as [[]|e];
      cbn [res out final ret].
    + intros E. inversion E. unfold counted_by. rewrite app_nil_r, Hx.
      cbn [fst snd]. lia.
    + destruct e as [|msg| | | |]; cbn [raise ret res out]; try discriminate.
      * intros E. inversion E. unfold counted_by.
        rewrite app_nil_r, Hx. cbn. lia.
      * destruct (contains "locked" msg && (a <? 2)); [|discriminate].
        cbn [sleep emit res out final]. intros E.
        specialize (IH _ _ E). unfold counted_by in *.
        rewrite !inserted_app, Hx. cbn [app inserted flat_map] in *. exact IH.
Qed.

Lemma write_entry_counted tid bid chapter existing v c d c' :
  res (write_entry tid bid chapter existing v c d) = Ok c' ->
  counted_by c c' (out (write_entry tid bid chapter existing v c d)).
Proof.
  unfold write_entry. destruct v; try discriminate.
  destruct (negb _ || negb _).
  { cbn. intros E. inversion E. apply counted_by_refl. }
  destruct (negb (hashable _)); [discriminate|].
  destruct (negb (in_existing _ _ _)).
  - apply insert_attempts_counted.
  - cbn. intros E. inversion E. apply counted_by_refl.
Qed.

Lemma write_entries_counted tid bid chapter existing entries :
  forall c d c',
    res (write_entries tid bid chapter existing entries c d) = Ok c' ->
    counted_by c c' (out (write_entries tid bid chapter existing entries c d)).
Proof.
  induction entries as [|v later IH]; intros c d c'; cbn [write_entries].
  - cbn. intros E. inversion E. apply counted_by_refl.
  - intros E. apply bind_ok_inv in E. destruct E as (c1 & E1 & E2 & Ho & _).
    rewrite Ho. eapply counted_by_trans.
    + apply write_entry_counted, E1.
    + apply IH, E2.
Qed.

Lemma repair_chapter_counted cdn tid code bid api existing chapter c d c' :
  res (repair_chapter cdn tid code bid api existing chapter c d) = Ok c' ->
  counted_by c c' (out (repair_chapter cdn tid code bid api existing chapter c d)).
Proof.
  unfold repair_chapter.
  rewrite (bind_of_ok _ _ _ _ _ _ (download_chapter_eq cdn code api chapter d)).
  cbn [res out]. intros E. apply bind_ok_inv in E.
  destruct E as (c1 & E1 & E2 & Ho & _). rewrite Ho.
  cbn in E2. inversion E2; subst c1.
  cbn [bind sleep emit ret res out final app].
  assert (H : counted_by c c'
                (out ((if truthy (chapter_payload cdn code api chapter)
                       then match py_iter (chapter_payload cdn code api chapter) with
                            | Some entries =>
                                write_entries tid bid chapter existing entries c
                            | None => raise TypeError
                            end
                       else ret c) d))).
  { destruct (truthy _).
    - destruct (py_iter _); [apply write_entries_counted, E1 | discriminate].
    - cbn in *. inversion E1. apply counted_by_refl. }
  unfold counted_by in *. rewrite inserted_cons_other by reflexivity.
  rewrite inserted_app. cbn [inserted flat_map app]. rewrite app_nil_r. exact H.
Qed.

Lemma repair_chapters_counted cdn tid code bid api existing chapters :
  forall c d c',
    res (repair_chapters cdn tid code bid api existing chapters c d) = Ok c' ->
    counted_by c c' (out (repair_chapters cdn tid code bid api existing chapters c d)).
Proof.
  induction chapters as [|chapter later IH]; intros c d c'; cbn [repair_chapters].
  - cbn. intros E. inversion E. apply counted_by_refl.
  - intros E. apply bind_ok_inv in E. destruct E as (c1 & E1 & E2 & Ho & _).
    rewrite Ho. eapply counted_by_trans.
    + apply repair_chapter_counted, E1.
    + apply IH, E2.
Qed.

Lemma inserted_commit_retries locks : inserted (commit_retries locks) = [].
Proof. induction locks as [|m locks IH]; [reflexivity | exact IH]. Qed.

Lemma repair_book_counted cdn tid code book t d t' :
  res (repair_book cdn tid code book t d) = Ok t' ->
  total_added t' = total_added t + len (inserted (out (repair_book cdn tid code book t d))).
Proof.
  destruct book as [bid name]. unfold repair_book.
  assert (skip : forall line d',
             res ((print line ;; ret t) d') = Ok t' ->
             total_added t' = total_added t
                              + len (inserted (out ((print line ;; ret t) d')))).
  { intros line d'. cbn. intros E. inversion E. lia. }
  destruct (lookup name BOOK_NAMES) as [[|a api]|]; try apply skip.
  intros E. apply bind_ok_inv in E. destruct E as (existing & Es & E & Ho & _).
  rewrite Ho, inserted_app, len_app.
  assert (Hs : inserted (out (get_existing_verses tid bid d)) = []).
  { unfold get_existing_verses, bind, select_chapter_verse.
    destruct (next_fault d) as [[msg|] d']; reflexivity. }
  rewrite Hs. cbn [len List.length Z.of_nat]. change (len (@nil row)) with 0.
  destruct (is_complete _ _); [rewrite (skip _ _ E); lia|].
  destruct (repair_incomplete_ok _ _ _ _ _ _ _ _ _ _ _ _ E)
    as (c & failed & Hch & Hout & _ & _ & _ & _ & _ & ->).
  rewrite Hout. cbn [total_added].
  destruct (repair_chapters_counted _ _ _ _ _ _ _ _ _ _ Hch) as [_ Hc].
  cbn [snd] in Hc. rewrite Hc.
  rewrite inserted_cons_other by reflexivity.
  rewrite !inserted_app, inserted_commit_retries, !len_app.
  rewrite inserted_cons_other by reflexivity.
  destruct (fst c >? 0); cbn; lia.
Qed.

Lemma repair_books_counted cdn tid code todo :
  forall t d t',
    res (repair_books cdn tid code todo t d) = Ok t' ->
    total_added t'
    = total_added t + len (inserted (out (repair_books cdn tid code todo t d))).
Proof.
  induction todo as [|book later IH]; intros t d t'; cbn [repair_books].
  - cbn. intros E. inversion E. lia.
  - intros E. apply bind_ok_inv in E. destruct E as (t1 & E1 & E2 & Ho & _).
    rewrite Ho, inserted_app, len_app, (IH _ _ _ E2),
      (repair_book_counted _ _ _ _ _ _ _ E1). lia.
Qed.

(** X2.  When [repair_translation] returns, the added total of its
    summary line is exactly the number of rows its inserts wrote: the
    table of verses has grown by that many rows. *)
Theorem X2_added_total_is_the_number_of_rows_written
    (cdn_chapter : string -> string -> Z -> response) (translation_id : string)
    (d : db) (t : tally) :
  let o := repair_translation cdn_chapter translation_id d in
  res o = Ok (Some t) ->
  total_added t = len (inserted (out o)) /\
  len (verses (final o)) = len (verses d) + total_added t.
Proof.
  intros o Hok.
  assert (H : total_added t = len (inserted (out o))).
  { subst o. unfold repair_translation in *.
    destruct (lookup translation_id TRANSLATIONS) as [[|a code]|];
      try (cbn in Hok; discriminate).
    apply bind_ok_inv in Hok. destruct Hok as (todo & Es & E & Ho & _).
    rewrite Ho, inserted_app, len_app.
    assert (Hs : inserted (out (select_books d)) = []).
    { unfold select_books. destruct (next_fault d) as [[msg|] d']; reflexivity. }
    rewrite Hs. change (len (@nil row)) with 0.
    apply bind_ok_inv in E. destruct E as (t1 & E1 & E2 & Ho2 & _).
    rewrite Ho2, inserted_app, len_app.
    cbn in E2. inversion E2; subst t1.
    rewrite (repair_books_counted _ _ _ _ _ _ _ E1). cbn. lia. }
  split; [exact H|].
  destruct (respects_repair_translation cdn_chapter grows grows_safe translation_id d)
    as (_ & V & _).
  fold o in V. rewrite V, len_app, H. reflexivity.
Qed.

Lemma X2_added_total_is_the_number_of_rows_written_witness :
  let o := repair_translation ruth_cdn "KJV" (ruth_store []) in
  let t := mkTally 5 0 [mkStats "Ruth" 80 85 5] in
  res o = Ok (Some t) /\
  total_added t = len (inserted (out o)) /\
  len (verses (final o)) = len (verses (ruth_store [])) + total_added t.
Proof.
  assert (E : res (repair_translation ruth_cdn "KJV" (ruth_store []))
              = Ok (Some (mkTally 5 0 [mkStats "Ruth" 80 85 5])))
    by (vm_compute; reflexivity).
  split; [exact E|].
  exact (X2_added_total_is_the_number_of_rows_written ruth_cdn "KJV" (ruth_store [])
           _ E).
Defined.

(* ===================================================================== *)
(** ** Nothing is left pending *)

Lemma get_existing_verses_final tid bid d :
  final (get_existing_verses tid bid d) = snd (next_fault d).
Proof.
  unfold get_existing_verses, bind, select_chapter_verse.
  destruct (next_fault d) as [[msg|] d']; reflexivity.
Qed.

Lemma select_books_final d : final (select_books d) = snd (next_fault d).
Proof.
  unfold select_books. destruct (next_fault d) as [[msg|] d']; reflexivity.
Qed.

Lemma repair_book_durable cdn tid code book t d t' :
  res (repair_book cdn tid code book t d) = Ok t' ->
  durable d = verses d ->
  durable (final (repair_book cdn tid code book t d))
  = verses (final (repair_book cdn tid code book t d)).
Proof.
  destruct book as [bid name]. unfold repair_book.
  destruct (lookup name BOOK_NAMES) as [[|a api]|]; try (cbn; auto; fail).
  intros E Hd. apply bind_ok_inv in E. destruct E as (existing & Es & E & _ & Hf).
  rewrite Hf. clear Hf.
  assert (Hd1 : durable (final (get_existing_verses tid bid d))
                = verses (final (get_existing_verses tid bid d))).
  { rewrite get_existing_verses_final, next_fault_durable, next_fault_verses.
    exact Hd. }
  destruct (is_complete _ _); [cbn; exact Hd1|].
  destruct (repair_incomplete_ok _ _ _ _ _ _ _ _ _ _ _ _ E)
    as (c & failed & _ & _ & _ & _ & Hv & Hdu & _).
  congruence.
Qed.

Lemma repair_books_durable cdn tid code todo :
  forall t d t',
    res (repair_books cdn tid code todo t d) = Ok t' ->
    durable d = verses d ->
    durable (final (repair_books cdn tid code todo t d))
    = verses (final (repair_books cdn tid code todo t d)).
Proof.
  induction todo as [|book later IH]; intros t d t'; cbn [repair_books].
  - cbn. auto.
  - intros E Hd. apply bind_ok_inv in E. destruct E as (t1 & E1 & E2 & _ & Hf).
    rewrite Hf. apply (IH _ _ _ E2).
    exact (repair_book_durable _ _ _ _ _ _ _ E1 Hd).
Qed.

(** X3.  When the connection starts without pending rows and
    [repair_translation] returns without a fatal error, every row of the
    table is durable: each document that wrote rows ended with a
    successful commit, so nothing is left for a later commit or lost when
    the connection is closed. *)
Theorem X3_normal_return_leaves_nothing_pending
    (cdn_chapter : string -> string -> Z -> response) (translation_id : string)
    (d : db) :
  let o := repair_translation cdn_chapter translation_id d in
  durable d = verses d ->
  is_ok (res o) = true ->
  durable (final o) = verses (final o).
Proof.
  intros o Hd Hok. subst o. unfold repair_translation in *.
  destruct (lookup translation_id TRANSLATIONS) as [[|a code]|];
    try (cbn; exact Hd).
  destruct (res (bind select_books _ d)) as [r|] eqn:E; [clear Hok|discriminate].
  apply bind_ok_inv in E. destruct E as (todo & Es & E & _ & Hf).
  rewrite Hf. clear Hf.
  apply bind_ok_inv in E. destruct E as (t1 & E1 & _ & _ & Hf).
  rewrite Hf. clear Hf. cbn [bind print emit ret res final].
  apply (repair_books_durable _ _ _ _ _ _ _ E1).
  rewrite select_books_final, next_fault_durable, next_fault_verses. exact Hd.
Qed.

Lemma X3_normal_return_leaves_nothing_pending_witness :
  let d := ruth_store [None; None; None; None; None; None; None;
                       Some "database is locked"] in
  let o := repair_translation ruth_cdn "KJV" d in
  durable d = verses d /\
  is_ok (res o) = true /\
  durable (final o) = verses (final o).
Proof.
  split; [reflexivity|]. split; [vm_compute; reflexivity|].
  apply (X3_normal_return_leaves_nothing_pending ruth_cdn "KJV"
           (ruth_store [None; None; None; None; None; None; None;
                        Some "database is locked"]));
    [reflexivity | vm_compute; reflexivity].
Defined.

(* ===================================================================== *)
(** ** The scan and the insert *)

(** X4.  A scan that succeeds returns a list without repetition that
    holds exactly the [(chapter, verse)] pairs of the rows of the given
    translation and book; it changes neither table. *)
Theorem X4_scan_returns_the_keys_of_the_partition
    (translation_id : string) (book_id : Z) (d : db) (existing : list key) :
  let o := get_existing_verses translation_id book_id d in
  res o = Ok existing ->
  NoDup existing /\
  (forall chapter verse,
      In (chapter, verse) existing <->
      exists r, In r (verses d) /\ r_translation r = translation_id /\
                r_book r = book_id /\ r_chapter r = chapter /\ r_verse r = verse) /\
  verses (final o) = verses d /\ books (final o) = books d /\
  durable (final o) = durable d.
Proof.
  intros o Hok. subst o.
  destruct (get_existing_verses_ok _ _ _ _ Hok) as [-> Hv].
  rewrite get_existing_verses_final, next_fault_verses, next_fault_books,
    next_fault_durable.
  split; [apply to_set_nodup|]. split; [|auto].
  intros chapter verse. unfold scanned. rewrite to_set_in, in_map_iff. split.
  - intros (r & Er & Hr). apply filter_In in Hr. destruct Hr as [Hr Hf].
    apply andb_true_iff in Hf. destruct Hf as [Ht Hb].
    apply String.eqb_eq in Ht. apply Z.eqb_eq in Hb.
    inversion Er. exists r. auto.
  - intros (r & Hr & Ht & Hb & Hc & Hvs). exists r. split; [congruence|].
    apply filter_In. split; [exact Hr|].
    rewrite Ht, Hb, String.eqb_refl, Z.eqb_refl. reflexivity.
Qed.

Lemma X4_scan_returns_the_keys_of_the_partition_witness :
  let o := get_existing_verses "KJV" 8 (ruth_store []) in
  res o = Ok (scanned "KJV" 8 ruth_80) /\
  NoDup (scanned "KJV" 8 ruth_80) /\ len (scanned "KJV" 8 ruth_80) = 80.
Proof.
  assert (E : res (get_existing_verses "KJV" 8 (ruth_store []))
              = Ok (scanned "KJV" 8 ruth_80)) by reflexivity.
  split; [exact E|].
  destruct (X4_scan_returns_the_keys_of_the_partition "KJV" 8 (ruth_store []) _ E)
    as [N _].
  split; [exact N | vm_compute; reflexivity].
Defined.

(** X5.  A unit that [execute_insert] has written is found by every later
    scan of its translation and book, as long as the table still holds
    the rows it held after the insert and the verse number reads back as
    it was sent: the membership test of line 182 then answers that
    [(chapter, verse_num)] is in the set.  An integer reads back as it
    was sent, and so does a text that the engine does not read as a
    number; a text that it reads as a number does not. *)
Theorem X5_inserted_unit_is_found_by_the_scan
    (translation_id : string) (book_id chapter : Z) (verse_num text : json)
    (d d' : db) (existing : list key) :
  let o := execute_insert translation_id book_id chapter verse_num text d in
  (number_kept (engine d) verse_num ->
   res o = Ok tt ->
   incl (verses (final o)) (verses d') ->
   res (get_existing_verses translation_id book_id d') = Ok existing ->
   in_existing chapter verse_num existing = true) /\
  (forall z, number_kept (engine d) (JNum z)) /\
  (forall s, number_kept (engine d) (JStr s) <-> numeric_text (engine d) s = None).
Proof.
  intros o. split; [|split].
  - intros Hk Hok Hi Hs. subst o.
    destruct (get_existing_verses_ok _ _ _ _ Hs) as [-> _].
    apply in_existing_scanned.
    unfold execute_insert in *.
    destruct (bind_param verse_num) as [verse|] eqn:Bv; [|discriminate].
    destruct (bind_param text) as [txt|] eqn:Bt; [|discriminate].
    exists (stored (engine d) (mkRow translation_id book_id chapter verse txt)).
    cbn [stored r_translation r_book r_chapter r_verse].
    split; [|repeat split; apply Hk, Bv].
    apply Hi. unfold insert_row in *. pose proof (next_fault_engine d) as He.
    destruct (next_fault d) as [[msg|] d1]; [discriminate|].
    cbn [snd] in He. rewrite He in *.
    destruct (violates_constraint _ _); [discriminate|].
    cbn [final appended verses]. apply in_or_app. right. left. reflexivity.
  - intros z. apply number_kept_cases. exact I.
  - intros s. split; [|apply (number_kept_cases _ (JStr s))].
    intros Hk. specialize (Hk (SText s) eq_refl). cbn [integer_affinity] in Hk.
    destruct (numeric_text (engine d) s) as [[z|f]|]; [discriminate..|reflexivity].
Qed.

Lemma X5_inserted_unit_is_found_by_the_scan_witness :
  let o := execute_insert "KJV" 8 4 (JNum 18) (JStr "text of the verse")
             (ruth_store []) in
  number_kept (engine (ruth_store [])) (JNum 18) /\
  res o = Ok tt /\
  incl (verses (final o)) (verses (final o)) /\
  res (get_existing_verses "KJV" 8 (final o))
  = Ok (scanned "KJV" 8 (verses (final o))) /\
  in_existing 4 (JNum 18) (scanned "KJV" 8 (verses (final o))) = true.
Proof.
  destruct (X5_inserted_unit_is_found_by_the_scan "KJV" 8 4 (JNum 18)
              (JStr "text of the verse") (ruth_store [])
              (final (execute_insert "KJV" 8 4 (JNum 18) (JStr "text of the verse")
                        (ruth_store [])))
              (scanned "KJV" 8
                 (verses (final (execute_insert "KJV" 8 4 (JNum 18)
                                   (JStr "text of the verse") (ruth_store []))))))
    as (H & K & _).
  split; [apply K|]. split; [reflexivity|]. split; [apply incl_refl|].
  split; [reflexivity|].
  apply H; [apply K | reflexivity | apply incl_refl | reflexivity].
Defined.

(* ===================================================================== *)
(** ** The text of a verse *)

Lemma content_binding_eq fields :
  (fix content (bindings : list (string * json)) : result string :=
     match bindings with
     | [] => Ok ""
     | (k, v) :: more =>
         if ("content" =? k)%string then extract_verse_text v else content more
     end) fields
  = match lookup "content" fields with
    | Some v => extract_verse_text v
    | None => Ok ""
    end.
Proof.
  induction fields as [|[k v] more IH]; [reflexivity|].
  cbn [lookup]. destruct ("content" =? k)%string; [reflexivity | exact IH].
Qed.

Lemma extract_verse_text_nil : extract_verse_text (JArr []) = Ok "".
Proof. reflexivity. Qed.

(** The loop, one item at a time. *)
Lemma extract_verse_text_cons item rest :
  extract_verse_text (JArr (item :: rest))
  = rappend (item_text item) (extract_verse_text (JArr rest)).
Proof.
  unfold rappend, item_text.
  destruct item; try reflexivity.
  cbn [extract_verse_text]. rewrite content_binding_eq. reflexivity.
Qed.

Lemma string_app_assoc (a b c : string) : ((a ++ b) ++ c = a ++ (b ++ c))%string.
Proof. induction a as [|x a IH]; cbn; [reflexivity | rewrite IH; reflexivity]. Qed.

Lemma string_app_nil_r (a : string) : (a ++ "" = a)%string.
Proof. induction a as [|x a IH]; cbn; [reflexivity | rewrite IH; reflexivity]. Qed.

Lemma rappend_nil_l r : rappend (Ok "") r = r.
Proof. destruct r; reflexivity. Qed.

Lemma rappend_assoc x y z : rappend (rappend x y) z = rappend x (rappend y z).
Proof.
  destruct x as [a|]; [|reflexivity]. destruct y as [b|]; [|reflexivity].
  destruct z as [c|]; [|reflexivity]. cbn. rewrite string_app_assoc. reflexivity.
Qed.

Lemma is_ok_rappend x y : is_ok (rappend x y) = is_ok x && is_ok y.
Proof. destruct x; [|reflexivity]. destruct y; reflexivity. Qed.

Lemma extract_verse_text_app a b :
  extract_verse_text (JArr (a ++ b))
  = rappend (extract_verse_text (JArr a)) (extract_verse_text (JArr b)).
Proof.
  induction a as [|item a IH]; cbn [app].
  - rewrite extract_verse_text_nil, rappend_nil_l. reflexivity.
  - rewrite !extract_verse_text_cons, IH, rappend_assoc. reflexivity.
Qed.

(** X7.  The text of a content list is put together from its parts: the
    text of [a ++ b] is the text of [a] followed by the text of [b]; the
    text of a list of plain strings is the strings one after the other;
    and an exception in an earlier part is the exception of the whole. *)
Theorem X7_extract_verse_text_concatenates (a b : list json) (l : list string) :
  extract_verse_text (JArr (a ++ b))
  = rappend (extract_verse_text (JArr a)) (extract_verse_text (JArr b)) /\
  extract_verse_text (JArr (map JStr l)) = Ok (join l) /\
  (forall e, extract_verse_text (JArr a) = Raise e ->
             extract_verse_text (JArr (a ++ b)) = Raise e) /\
  (forall x y, extract_verse_text (JArr a) = Ok x ->
               extract_verse_text (JArr b) = Ok y ->
               extract_verse_text (JArr (a ++ b)) = Ok (x ++ y)%string).
Proof.
  split; [apply extract_verse_text_app|]. split; [|split].
  - induction l as [|s l IH]; [reflexivity|].
    cbn [map]. rewrite extract_verse_text_cons, IH. reflexivity.
  - intros e E. rewrite extract_verse_text_app, E. reflexivity.
  - intros x y Ex Ey. rewrite extract_verse_text_app, Ex, Ey. reflexivity.
Qed.

Lemma X7_extract_verse_text_concatenates_witness :
  extract_verse_text (JArr [JStr "In the "]) = Ok "In the " /\
  extract_verse_text (JArr [JObj [("text", JStr "beginning")]]) = Ok "beginning" /\
  extract_verse_text (JArr ([JStr "In the "] ++ [JObj [("text", JStr "beginning")]]))
  = Ok "In the beginning".
Proof.
  split; [reflexivity|]. split; [reflexivity|].
  destruct (X7_extract_verse_text_concatenates [JStr "In the "]
              [JObj [("text", JStr "beginning")]] []) as (_ & _ & _ & H).
  exact (H _ _ eq_refl eq_refl).
Defined.

(** X8.  Only strings and dicts count: the items of a content list that
    are neither (numbers, booleans, [None], lists) are passed over, so the
    text is the text of the list without them. *)
Theorem X8_extract_verse_text_ignores_other_items (items : list json) :
  extract_verse_text (JArr items)
  = extract_verse_text (JArr (filter is_str_or_dict items)).
Proof.
  induction items as [|item items IH]; [reflexivity|].
  cbn [filter]. destruct item; cbn [is_str_or_dict];
    rewrite ?extract_verse_text_cons, IH; try reflexivity;
    cbn [item_text]; apply rappend_nil_l.
Qed.

(** X9.  Nested content is read in place: a dict item without ["text"]
    whose ["content"] is a list counts as the items of that list, and a
    dict item with a string ["text"] and no ["content"] counts as that
    string. *)
Theorem X9_extract_verse_text_flattens_nested_content
    (fields : list (string * json)) (inner rest : list json) (s : string) :
  (lookup "text" fields = None -> lookup "content" fields = Some (JArr inner) ->
   extract_verse_text (JArr (JObj fields :: rest))
   = extract_verse_text (JArr (inner ++ rest))) /\
  (lookup "text" fields = Some (JStr s) -> lookup "content" fields = None ->
   extract_verse_text (JArr (JObj fields :: rest))
   = extract_verse_text (JArr (JStr s :: rest))).
Proof.
  split.
  - intros Ht Hc. rewrite extract_verse_text_cons, extract_verse_text_app.
    f_equal. unfold item_text. rewrite Ht, Hc. cbn [rbind].
    destruct (extract_verse_text (JArr inner)); reflexivity.
  - intros Ht Hc. rewrite !extract_verse_text_cons. f_equal.
    unfold item_text. rewrite Ht, Hc. cbn. rewrite string_app_nil_r. reflexivity.
Qed.

Lemma X9_extract_verse_text_flattens_nested_content_witness :
  let fields := [("type", JStr "note");
                 ("content", JArr [JStr "God "; JObj [("text", JStr "created")]])] in
  lookup "text" fields = None /\
  lookup "content" fields = Some (JArr [JStr "God "; JObj [("text", JStr "created")]]) /\
  extract_verse_text (JArr (JObj fields :: [JStr " the heaven"]))
  = extract_verse_text
      (JArr ([JStr "God "; JObj [("text", JStr "created")]] ++ [JStr " the heaven"])).
Proof.
  split; [reflexivity|]. split; [reflexivity|].
  destruct (X9_extract_verse_text_flattens_nested_content
              [("type", JStr "note");
               ("content", JArr [JStr "God "; JObj [("text", JStr "created")]])]
              [JStr "God "; JObj [("text", JStr "created")]] [JStr " the heaven"] "")
    as [H _].
  exact (H eq_refl eq_refl).
Defined.

Lemma content_ok_binding_eq fields :
  (fix content (bindings : list (string * json)) : bool :=
     match bindings with
     | [] => true
     | (k, v) :: more =>
         if ("content" =? k)%string then content_ok v else content more
     end) fields
  = match lookup "content" fields with
    | Some v => content_ok v
    | None => true
    end.
Proof.
  induction fields as [|[k v] more IH]; [reflexivity|].
  cbn [lookup]. destruct ("content" =? k)%string; [reflexivity | exact IH].
Qed.

Lemma content_ok_cons item rest :
  content_ok (JArr (item :: rest)) = item_ok item && content_ok (JArr rest).
Proof.
  unfold item_ok. destruct item; try reflexivity.
  cbn [content_ok]. rewrite content_ok_binding_eq. reflexivity.
Qed.

(** The walk of [extract_verse_text] and of one item, together. *)
Lemma extract_verse_text_walks (content_list : json) :
  (is_ok (extract_verse_text content_list) = content_ok content_list /\
   is_ok (item_text content_list) = item_ok content_list) /\
  ((forall e, extract_verse_text content_list = Raise e -> e = TypeError) /\
   (forall e, item_text content_list = Raise e -> e = TypeError)).
Proof.
  induction content_list as [| b | z | s | items IH | fields IH] using json_induction;
    try (repeat split; intros; try discriminate; cbn in *; congruence).
  - split; [split; [|reflexivity] | split; [|discriminate]].
    + induction IH as [|item rest [[_ Hi] _] _ IHr]; [reflexivity|].
      rewrite extract_verse_text_cons, content_ok_cons, is_ok_rappend, Hi, IHr.
      reflexivity.
    + induction IH as [|item rest [_ [_ Hi]] _ IHr]; [discriminate|].
      intros e. rewrite extract_verse_text_cons. unfold rappend, rbind.
      destruct (item_text item) as [x|e1] eqn:E1.
      * destruct (extract_verse_text (JArr rest)) as [y|e2]; [discriminate|].
        intros E. inversion E; subst. apply IHr. reflexivity.
      * intros E. inversion E; subst. apply Hi. reflexivity.
  - assert (Hc : match lookup "content" fields with
                 | Some v => is_ok (extract_verse_text v) = content_ok v /\
                             (forall e, extract_verse_text v = Raise e -> e = TypeError)
                 | None => True
                 end).
    { destruct (lookup "content" fields) as [v|] eqn:E; [|exact I].
      apply lookup_some_in in E. rewrite Forall_forall in IH.
      destruct (IH _ E) as [[H1 _] [H2 _]]. auto. }
    split; [split; [reflexivity|] | split; [discriminate|]].
    + unfold item_text, item_ok.
      destruct (lookup "text" fields) as [[]|]; cbn; try reflexivity;
        destruct (lookup "content" fields) as [v|]; try reflexivity;
        destruct Hc as [<- _]; destruct (extract_verse_text v); reflexivity.
    + intros e. unfold item_text.
      destruct (lookup "text" fields) as [[]|]; cbn; try congruence;
        destruct (lookup "content" fields) as [v|]; try discriminate;
        destruct Hc as [_ Hc]; specialize (Hc e);
        destruct (extract_verse_text v); cbn; try discriminate;
        intros E; inversion E; subst; apply Hc; reflexivity.
Qed.

(** X10.  [extract_verse_text] raises exactly on content it cannot walk:
    it returns a text if and only if the content list is iterable, every
    ["text"] of a dict item is a string and every ["content"] of a dict
    item is such content again; and the exception it raises is always a
    [TypeError]. *)
Theorem X10_extract_verse_text_raises_on_malformed_content_only (content_list : json) :
  is_ok (extract_verse_text content_list) = content_ok content_list /\
  (forall e, extract_verse_text content_list = Raise e -> e = TypeError).
Proof.
  destruct (extract_verse_text_walks content_list) as [[H1 _] [H2 _]]. auto.
Qed.

(* ===================================================================== *)
(** ** White space and addresses *)

Lemma rstrip_cons_kept c r : is_space c = false -> rstrip (String c r) = String c (rstrip r).
Proof.
  intros H. cbn [rstrip]. destruct (rstrip r); [rewrite H|]; reflexivity.
Qed.

Lemma rstrip_idem s : rstrip (rstrip s) = rstrip s.
Proof.
  induction s as [|c r IH]; [reflexivity|].
  cbn [rstrip]. destruct (rstrip r) as [|c' kept] eqn:E.
  - destruct (is_space c) eqn:Hc; [reflexivity|].
    cbn [rstrip]. rewrite Hc. reflexivity.
  - change (rstrip (String c (String c' kept)))
      with (match rstrip (String c' kept) with
            | EmptyString => if is_space c then EmptyString else String c EmptyString
            | kept' => String c kept'
            end).
    rewrite IH. reflexivity.
Qed.

Lemma lstrip_head s :
  match lstrip s with
  | EmptyString => True
  | String c _ => is_space c = false
  end.
Proof.
  induction s as [|c r IH]; [exact I|].
  cbn [lstrip]. destruct (is_space c) eqn:Hc; [exact IH | exact Hc].
Qed.

Lemma strip_idem s : strip (strip s) = strip s.
Proof.
  unfold strip. pose proof (lstrip_head s) as H.
  destruct (lstrip s) as [|c r]; [reflexivity|].
  rewrite (rstrip_cons_kept _ _ H). cbn [lstrip]. rewrite H.
  rewrite (rstrip_cons_kept _ _ H), rstrip_idem. reflexivity.
Qed.

Lemma starts_with_space_replace s : starts_with " " (replace_spaces s) = false.
Proof.
  destruct s as [|c r]; [reflexivity|].
  cbn [replace_spaces]. destruct (Ascii.eqb c " ") eqn:E; [reflexivity|].
  cbn [starts_with]. rewrite Ascii.eqb_sym, E. reflexivity.
Qed.

Lemma replace_spaces_no_space s : contains " " (replace_spaces s) = false.
Proof.
  induction s as [|c r IH]; [reflexivity|].
  pose proof (starts_with_space_replace (String c r)) as H.
  cbn [replace_spaces] in *. destruct (Ascii.eqb c " ") eqn:E.
  - cbn [contains]. rewrite IH. reflexivity.
  - cbn [contains]. rewrite H, IH. reflexivity.
Qed.

(* ===================================================================== *)
(** ** The chapter of the provider *)

Lemma verse_entry_stripped item entry :
  verse_entry item = Some entry -> Forall stripped_entry entry.
Proof.
  unfold verse_entry. destruct item as [| | | |items|fields]; try discriminate.
  destruct (eq_str _ _); [|intros E; inversion E; constructor].
  destruct (extract_verse_text _) as [verse_text|]; [|discriminate].
  destruct (truthy _ && _) eqn:T; intros E; inversion E; constructor; [|constructor].
  apply andb_true_iff in T. split; [apply T | apply strip_idem].
Qed.

Lemma collect_verses_stripped items :
  forall verses, collect_verses items = Some verses -> Forall stripped_entry verses.
Proof.
  induction items as [|item later IH]; cbn [collect_verses]; intros verses E.
  - inversion E. constructor.
  - destruct (verse_entry item) as [entry|] eqn:Ee; [|discriminate].
    destruct (collect_verses later) as [entries|]; [|discriminate].
    inversion E. apply Forall_app. split; [|apply IH; reflexivity].
    exact (verse_entry_stripped _ _ Ee).
Qed.

Lemma chapter_verses_of_stripped data verses :
  chapter_verses_of data = Some verses -> Forall stripped_entry verses.
Proof.
  unfold chapter_verses_of.
  destruct (py_in "chapter" data) as [[]|]; try discriminate;
    [|intros E; inversion E; constructor].
  destruct (py_getitem data "chapter") as [chapter|]; [|discriminate].
  destruct (py_in "content" chapter) as [[]|]; try discriminate;
    [|intros E; inversion E; constructor].
  destruct (py_getitem chapter "content") as [content|]; [|discriminate].
  destruct (py_iter content) as [items|]; [|discriminate].
  apply collect_verses_stripped.
Qed.

(** What [fetch_bible_text] comes to for a book of [BOOKS]. *)
Lemma fetch_bible_text_known helloao source book_id chapter book d :
  find (fun b => b_id b =? book_id) BOOKS = Some book ->
  fetch_bible_text helloao source book_id chapter d
  = mkBuild (Ok (chapter_answer helloao source book chapter)) d
      [BRequest source (replace_spaces (b_name book)) chapter].
Proof.
  intros E. unfold fetch_bible_text, chapter_answer. rewrite E.
  unfold bbind, bemit. cbn [bres bfinal bout].
  destruct (helloao source (replace_spaces (b_name book)) chapter) as [| | |data];
    try reflexivity.
  destruct (chapter_verses_of data); reflexivity.
Qed.

Lemma fetch_bible_text_unknown helloao source book_id chapter d :
  find (fun b => b_id b =? book_id) BOOKS = None ->
  fetch_bible_text helloao source book_id chapter d = mkBuild (Ok []) d [].
Proof.
  intros E. unfold fetch_bible_text. rewrite E. reflexivity.
Qed.

Lemma find_book_id book_id book :
  find (fun b => b_id b =? book_id) BOOKS = Some book -> In book BOOKS /\ b_id book = book_id.
Proof.
  intros E. apply find_some in E. destruct E as [Hi E]. apply Z.eqb_eq in E. auto.
Qed.

Lemma find_none_not_in book_id :
  find (fun b => b_id b =? book_id) BOOKS = None -> ~ In book_id (map b_id BOOKS).
Proof.
  intros E Hin. apply in_map_iff in Hin. destruct Hin as (b & Eb & Hb).
  pose proof (find_none _ _ E b Hb) as H. cbn in H. apply Z.eqb_neq in H. auto.
Qed.

(** The ids of [BOOKS] identify its entries. *)
Lemma BOOKS_ids_identify :
  forall book, In book BOOKS -> find (fun b => b_id b =? b_id book) BOOKS = Some book.
Proof.
  apply Forall_forall. repeat constructor.
Qed.

(** X11.  [fetch_bible_text] never raises and never touches the store,
    whatever the provider answers; it sends at most one request; and every
    entry it returns has a number that counts as true and a text without
    white space at either end. *)
Theorem X11_fetch_bible_text_never_raises
    (helloao : string -> string -> Z -> response) (translation_source : string)
    (book_id chapter : Z) (d : db) :
  let o := fetch_bible_text helloao translation_source book_id chapter d in
  exists verses,
    bres o = Ok verses /\ bfinal o = d /\ store_events (bout o) = [] /\
    (List.length (requests (bout o)) <= 1)%nat /\
    Forall stripped_entry verses.
Proof.
  intros o. subst o.
  destruct (find (fun b => b_id b =? book_id) BOOKS) as [book|] eqn:E.
  - rewrite (fetch_bible_text_known _ _ _ _ _ _ E). cbn [bres bfinal bout].
    eexists. split; [reflexivity|]. split; [reflexivity|]. split; [reflexivity|].
    split; [cbn; lia|].
    unfold chapter_answer. destruct (helloao _ _ _) as [| | |data]; try constructor.
    destruct (chapter_verses_of data) as [verses|] eqn:Ev; [|constructor].
    exact (chapter_verses_of_stripped _ _ Ev).
  - rewrite (fetch_bible_text_unknown _ _ _ _ _ E). cbn [bres bfinal bout].
    exists []. repeat split; try constructor. cbn. lia.
Qed.

(** X12.  For a book id that is not in [BOOKS], [fetch_bible_text]
    returns the empty list without sending any request.  For the id of a
    book of [BOOKS] it sends exactly one request, for the given source and
    chapter and the name of that book with each space replaced by [%20]:
    the name in the address holds no space. *)
Theorem X12_fetch_bible_text_requests_the_book_by_name
    (helloao : string -> string -> Z -> response) (translation_source : string)
    (book_id chapter : Z) (d : db) :
  let o := fetch_bible_text helloao translation_source book_id chapter d in
  (~ In book_id (map b_id BOOKS) -> bres o = Ok [] /\ bout o = []) /\
  (forall book,
      In book BOOKS -> b_id book = book_id ->
      bout o = [BRequest translation_source (replace_spaces (b_name book)) chapter] /\
      contains " " (replace_spaces (b_name book)) = false).
Proof.
  intros o. subst o. split.
  - intros Hn. destruct (find (fun b => b_id b =? book_id) BOOKS) as [book|] eqn:E.
    + destruct (find_book_id _ _ E) as [Hi Hb]. exfalso. apply Hn.
      rewrite <- Hb. apply in_map. exact Hi.
    + rewrite (fetch_bible_text_unknown _ _ _ _ _ E). auto.
  - intros book Hi Hb. subst book_id.
    rewrite (fetch_bible_text_known _ _ _ _ _ _ (BOOKS_ids_identify _ Hi)).
    split; [reflexivity | apply replace_spaces_no_space].
Qed.

Lemma X12_fetch_bible_text_requests_the_book_by_name_witness :
  let o := fetch_bible_text (fun _ _ _ => Timeout) "BSB" 22 3 (mkDb [] [] [] [] sqlite_digits) in
  bout o = [BRequest "BSB" "Song%20of%20Solomon" 3] /\
  contains " " "Song%20of%20Solomon" = false.
Proof.
  destruct (X12_fetch_bible_text_requests_the_book_by_name
              (fun _ _ _ => Timeout) "BSB" 22 3 (mkDb [] [] [] [] sqlite_digits)) as [_ H].
  apply (H (mkBook 22 "Song of Solomon" "Song" "OT" 8)).
  - vm_compute. tauto.
  - reflexivity.
Defined.

Lemma verse_entry_readable item :
  match verse_entry item with Some _ => true | None => false end = readable_item item.
Proof.
  destruct item as [| | | |items|fields]; try reflexivity.
  cbn [verse_entry readable_item]. destruct (eq_str _ _); [|reflexivity].
  destruct (extract_verse_text_walks (dict_get fields "content" (JArr []))) as [[<- _] _].
  destruct (extract_verse_text _); [|reflexivity].
  cbn [is_ok]. destruct (truthy _ && _); reflexivity.
Qed.

Lemma collect_verses_readable items :
  match collect_verses items with Some _ => true | None => false end
  = forallb readable_item items.
Proof.
  induction items as [|item later IH]; [reflexivity|].
  cbn [collect_verses forallb]. rewrite <- verse_entry_readable, <- IH.
  destruct (verse_entry item); [|reflexivity].
  destruct (collect_verses later); reflexivity.
Qed.

Lemma extract_verse_text_plain parts :
  extract_verse_text (JArr (map JStr parts)) = Ok (join parts).
Proof.
  induction parts as [|s parts IH]; [reflexivity|].
  cbn [map]. rewrite extract_verse_text_cons, IH. reflexivity.
Qed.

Lemma collect_verses_items items :
  Forall proper_item items ->
  collect_verses (map item_json items) = Some (flat_map item_verse items).
Proof.
  induction 1 as [|i items Hi _ IH]; [reflexivity|].
  cbn [map collect_verses flat_map]. rewrite IH.
  destruct i as [number parts|fields]; cbn [item_json item_verse].
  - unfold verse_entry.
    change (dict_get _ "type" JNull) with (JStr "verse").
    change (dict_get _ "number" (JNum 0)) with (JNum number).
    change (dict_get _ "content" (JArr [])) with (JArr (map JStr parts)).
    rewrite extract_verse_text_plain. cbn [eq_str truthy].
    change ("verse" =? "verse")%string with true. cbn match.
    destruct (number =? 0); cbn [negb andb orb]; [reflexivity|].
    destruct (join parts =? "")%string; reflexivity.
  - cbn [proper_item] in Hi. unfold verse_entry. rewrite Hi. reflexivity.
Qed.

(** X13.  One item that cannot be read voids the chapter: when the content
    of the chapter holds an item that is not a dict, or a verse whose
    content [extract_verse_text] cannot walk, [fetch_bible_text] returns
    the empty list, whatever verses the other items hold. *)
Theorem X13_one_unreadable_item_voids_the_chapter
    (helloao : string -> string -> Z -> response) (translation_source : string)
    (book : book_info) (chapter : Z) (d : db)
    (fields chapter_fields : list (string * json)) (items : list json) :
  In book BOOKS ->
  helloao translation_source (replace_spaces (b_name book)) chapter
  = Payload (JObj fields) ->
  lookup "chapter" fields = Some (JObj chapter_fields) ->
  lookup "content" chapter_fields = Some (JArr items) ->
  forallb readable_item items = false ->
  bres (fetch_bible_text helloao translation_source (b_id book) chapter d) = Ok [].
Proof.
  intros Hb Hp Hc Hi Hr.
  rewrite (fetch_bible_text_known _ _ _ _ _ _ (BOOKS_ids_identify _ Hb)).
  unfold chapter_answer. rewrite Hp.
  cbn [bres]. unfold chapter_verses_of. cbn [py_in py_getitem]. rewrite Hc.
  cbn [py_in py_getitem]. rewrite Hi. cbn [py_iter].
  rewrite <- collect_verses_readable in Hr.
  destruct (collect_verses items); [discriminate | reflexivity].
Qed.

Lemma X13_one_unreadable_item_voids_the_chapter_witness :
  let items := [JObj [("type", JStr "verse"); ("number", JNum 1);
                      ("content", JArr [JStr "In the beginning"])];
                JStr "line break"] in
  let helloao := fun (_ _ : string) (_ : Z) =>
                   Payload (JObj [("chapter", JObj [("content", JArr items)])]) in
  forallb readable_item items = false /\
  bres (fetch_bible_text helloao "BSB" 1 1 (mkDb [] [] [] [] sqlite_digits)) = Ok [].
Proof.
  split; [reflexivity|].
  apply (X13_one_unreadable_item_voids_the_chapter
           (fun _ _ _ =>
              Payload (JObj [("chapter",
                              JObj [("content",
                                     JArr [JObj [("type", JStr "verse"); ("number", JNum 1);
                                                 ("content", JArr [JStr "In the beginning"])];
                                           JStr "line break"])])]))
           "BSB" (mkBook 1 "Genesis" "Gen" "OT" 50) 1 (mkDb [] [] [] [] sqlite_digits)
           [("chapter",
             JObj [("content",
                    JArr [JObj [("type", JStr "verse"); ("number", JNum 1);
                                ("content", JArr [JStr "In the beginning"])];
                          JStr "line break"])])]
           [("content",
             JArr [JObj [("type", JStr "verse"); ("number", JNum 1);
                         ("content", JArr [JStr "In the beginning"])];
                   JStr "line break"])]
           [JObj [("type", JStr "verse"); ("number", JNum 1);
                  ("content", JArr [JStr "In the beginning"])];
            JStr "line break"]);
    try reflexivity.
  left. reflexivity.
Defined.

(** X14.  A chapter as the provider documents it is read in full and in
    order: when the content of the chapter lists verses (a number and a
    content of plain strings) among other dicts that are not verses,
    [fetch_bible_text] returns, for each verse with a number other than 0
    and a text that is not empty, the number and the joined text without
    the white space at its ends, and nothing for the other items. *)
Theorem X14_fetch_bible_text_reads_the_verses_in_order
    (helloao : string -> string -> Z -> response) (translation_source : string)
    (book : book_info) (chapter : Z) (d : db)
    (fields chapter_fields : list (string * json)) (items : list chapter_item) :
  In book BOOKS ->
  helloao translation_source (replace_spaces (b_name book)) chapter
  = Payload (JObj fields) ->
  lookup "chapter" fields = Some (JObj chapter_fields) ->
  lookup "content" chapter_fields = Some (JArr (map item_json items)) ->
  Forall proper_item items ->
  bres (fetch_bible_text helloao translation_source (b_id book) chapter d)
  = Ok (flat_map item_verse items).
Proof.
  intros Hb Hp Hc Hi Hr.
  rewrite (fetch_bible_text_known _ _ _ _ _ _ (BOOKS_ids_identify _ Hb)).
  unfold chapter_answer. rewrite Hp.
  cbn [bres]. unfold chapter_verses_of. cbn [py_in py_getitem]. rewrite Hc.
  cbn [py_in py_getitem]. rewrite Hi. cbn [py_iter].
  rewrite (collect_verses_items _ Hr). reflexivity.
Qed.

Lemma X14_fetch_bible_text_reads_the_verses_in_order_witness :
  let items := [OtherItem [("type", JStr "heading"); ("content", JArr [JStr "The Creation"])];
                VerseItem 1 ["In the beginning "; "God created "];
                VerseItem 0 ["not numbered"];
                VerseItem 2 ["  And the earth was without form"]] in
  let helloao := fun (_ _ : string) (_ : Z) =>
                   Payload (JObj [("chapter",
                                   JObj [("number", JNum 1);
                                         ("content", JArr (map item_json items))])]) in
  Forall proper_item items /\
  bres (fetch_bible_text helloao "BSB" 1 1 (mkDb [] [] [] [] sqlite_digits))
  = Ok [(JNum 1, "In the beginning God created");
        (JNum 2, "And the earth was without form")].
Proof.
  split; [repeat constructor|].
  apply (X14_fetch_bible_text_reads_the_verses_in_order
           (fun _ _ _ =>
              Payload (JObj [("chapter",
                              JObj [("number", JNum 1);
                                    ("content",
                                     JArr (map item_json
                                             [OtherItem [("type", JStr "heading");
                                                         ("content", JArr [JStr "The Creation"])];
                                              VerseItem 1 ["In the beginning "; "God created "];
                                              VerseItem 0 ["not numbered"];
                                              VerseItem 2 ["  And the earth was without form"]]))])]))
           "BSB" (mkBook 1 "Genesis" "Gen" "OT" 50) 1 (mkDb [] [] [] [] sqlite_digits)
           [("chapter",
             JObj [("number", JNum 1);
                   ("content",
                    JArr (map item_json
                            [OtherItem [("type", JStr "heading");
                                        ("content", JArr [JStr "The Creation"])];
                             VerseItem 1 ["In the beginning "; "God created "];
                             VerseItem 0 ["not numbered"];
                             VerseItem 2 ["  And the earth was without form"]]))])]
           [("number", JNum 1);
            ("content",
             JArr (map item_json
                     [OtherItem [("type", JStr "heading");
                                 ("content", JArr [JStr "The Creation"])];
                      VerseItem 1 ["In the beginning "; "God created "];
                      VerseItem 0 ["not numbered"];
                      VerseItem 2 ["  And the earth was without form"]]))]
           [OtherItem [("type", JStr "heading"); ("content", JArr [JStr "The Creation"])];
            VerseItem 1 ["In the beginning "; "God created "];
            VerseItem 0 ["not numbered"];
            VerseItem 2 ["  And the earth was without form"]]);
    try reflexivity; [left; reflexivity | repeat constructor].
Defined.

(* ===================================================================== *)
(** ** The download of a translation *)

Lemma bbind_run {A C} (c : B A) (k : A -> B C) d :
  bbind c k d
  = match bres (c d) with
    | Ok a => let o' := k a (bfinal (c d)) in
              mkBuild (bres o') (bfinal o') (bout (c d) ++ bout o')
    | Raise e => mkBuild (Raise e) (bfinal (c d)) (bout (c d))
    end.
Proof. reflexivity. Qed.

Lemma bbind_ok_inv {A C} (c : B A) (k : A -> B C) d b :
  bres (bbind c k d) = Ok b ->
  exists a, bres (c d) = Ok a /\
            bres (k a (bfinal (c d))) = Ok b /\
            bout (bbind c k d) = bout (c d) ++ bout (k a (bfinal (c d))) /\
            bfinal (bbind c k d) = bfinal (k a (bfinal (c d))).
Proof.
  rewrite bbind_run. destruct (bres (c d)) as [a|e]; cbn [bres bout bfinal]; intros H.
  - exists a. repeat split; assumption.
  - discriminate.
Qed.

Lemma store_events_app t1 t2 : store_events (t1 ++ t2) = store_events t1 ++ store_events t2.
Proof. apply flat_map_app. Qed.

Lemma written_app t1 t2 : written (t1 ++ t2) = written t1 ++ written t2.
Proof. unfold written. rewrite store_events_app. apply inserted_app. Qed.

Lemma requests_app t1 t2 : requests (t1 ++ t2) = requests t1 ++ requests t2.
Proof. apply filter_app. Qed.

Lemma appends_ret {A} (a : A) : appends (bret a).
Proof.
  intros d. cbn. rewrite app_nil_r. repeat split.
Qed.

Lemma appends_print line : appends (bprint line).
Proof.
  intros d. cbn. rewrite app_nil_r. repeat split.
Qed.

Lemma appends_bind_post {A C} (Q : A -> Prop) (c : B A) (k : A -> B C) :
  appends c ->
  (forall d a, bres (c d) = Ok a -> Q a) ->
  (forall a, Q a -> appends (k a)) ->
  appends (bbind c k).
Proof.
  intros Hc Hq Hk d. rewrite bbind_run.
  destruct (Hc d) as (Hb & Hv & Hd & He).
  destruct (bres (c d)) as [a|e] eqn:E; cbn [bres bfinal bout].
  - destruct (Hk a (Hq d a E) (bfinal (c d))) as (Hb' & Hv' & Hd' & He').
    rewrite Hb', Hv', Hd', He', Hb, Hv, Hd, He, written_app, app_assoc.
    repeat split.
  - repeat split; assumption.
Qed.

Lemma appends_bind {A C} (c : B A) (k : A -> B C) :
  appends c -> (forall a, appends (k a)) -> appends (bbind c k).
Proof.
  intros Hc Hk. apply (appends_bind_post (fun _ => True)); auto.
Qed.

(** One insert of the builder. *)
Lemma builder_insert translation_id book_id chapter verse_num text d :
  truthy verse_num = true ->
  let o := lift (execute_insert translation_id book_id chapter verse_num (JStr text)) d in
  books (bfinal o) = books d /\ durable (bfinal o) = durable d /\
  engine (bfinal o) = engine d /\
  (forall e, bres o = Raise e -> verses (bfinal o) = verses d /\ written (bout o) = []) /\
  (bres o = Ok tt ->
   exists verse,
     bind_param verse_num = Ok verse /\
     bout o = [BStore (EvInsert
                         (stored (engine d)
                            (mkRow translation_id book_id chapter verse (SText text)))
                         None)] /\
     verses (bfinal o)
     = verses d ++ [stored (engine d)
                      (mkRow translation_id book_id chapter verse (SText text))]).
Proof.
  intros T o. subst o. unfold lift, execute_insert.
  destruct (bind_param verse_num) as [verse|e0] eqn:Bv.
  - cbn [bind_param]. unfold insert_row.
    pose proof (next_fault_books d) as Nb. pose proof (next_fault_verses d) as Nv.
    pose proof (next_fault_durable d) as Nd. pose proof (next_fault_engine d) as Ne.
    destruct (next_fault d) as [[msg|] d1]; cbn [snd] in *.
    + cbn [res final out bres bfinal bout map written store_events inserted flat_map app].
      split; [exact Nb|]. split; [exact Nd|]. split; [exact Ne|]. split; [|discriminate].
      intros e E. split; [exact Nv | reflexivity].
    + assert (V : violates_constraint
                    (stored (engine d1)
                       (mkRow translation_id book_id chapter verse (SText text)))
                    (verses d1) = false).
      { unfold violates_constraint. rewrite key_is_unique_false.
        cbn [stored r_verse r_text text_affinity is_null].
        rewrite integer_affinity_null, (bind_param_truthy_not_null _ _ T Bv).
        reflexivity. }
      rewrite V, Ne.
      cbn [res final out bres bfinal bout map appended books verses durable engine].
      split; [exact Nb|]. split; [exact Nd|]. split; [exact Ne|]. split; [discriminate|].
      intros _. exists verse. rewrite Nv. auto.
  - cbn [res final out bres bfinal bout map raise written store_events inserted flat_map].
    split; [reflexivity|]. split; [reflexivity|]. split; [reflexivity|].
    split; [|discriminate]. intros e E. auto.
Qed.

Lemma writes_bind {A C} (P : row -> Prop) (c : B A) (k : A -> B C) :
  writes P c -> (forall a, writes P (k a)) -> writes P (bbind c k).
Proof.
  intros Hc Hk d. rewrite bbind_run. destruct (bres (c d)) as [a|e]; cbn [bout].
  - rewrite written_app. apply Forall_app. split; [apply Hc | apply Hk].
  - apply Hc.
Qed.

Lemma steady_bind {A C} (c : B A) (k : A -> B C) :
  appends c -> steady c -> (forall a, steady (k a)) -> steady (bbind c k).
Proof.
  intros Ha Hc Hk d d' b b' He E E'.
  apply bbind_ok_inv in E. destruct E as (a & E1 & E2 & Ho & _).
  apply bbind_ok_inv in E'. destruct E' as (a' & E1' & E2' & Ho' & _).
  destruct (Hc _ _ _ _ He E1 E1') as [<- H1].
  assert (He' : engine (bfinal (c d)) = engine (bfinal (c d'))).
  { destruct (Ha d) as (_ & _ & _ & ->). destruct (Ha d') as (_ & _ & _ & ->).
    exact He. }
  destruct (Hk _ _ _ _ _ He' E2 E2') as [<- H2].
  rewrite Ho, Ho', H1, H2. auto.
Qed.

Lemma asks_bind {A C} sent sent' (c : B A) (k : A -> B C) :
  asks sent c -> (forall a, asks sent' (k a)) -> asks (sent ++ sent') (bbind c k).
Proof.
  intros Hc Hk d H.
  destruct (bres (bbind c k d)) as [b|] eqn:E; [clear H|discriminate].
  apply bbind_ok_inv in E. destruct E as (a & E1 & E2 & Ho & _).
  rewrite Ho, requests_app, (Hc d), (Hk a (bfinal (c d))); [reflexivity| |];
    [rewrite E2 | rewrite E1]; reflexivity.
Qed.

Lemma counts_bind start (c : B Z) (k : Z -> B Z) :
  counts start c -> (forall a, counts a (k a)) -> counts start (bbind c k).
Proof.
  intros Hc Hk d t E.
  apply bbind_ok_inv in E. destruct E as (a & E1 & E2 & Ho & _).
  rewrite Ho, written_app, len_app, (Hk _ _ _ E2), (Hc _ _ E1). lia.
Qed.

Lemma builder_insert_appends translation_id book_id chapter verse_num text :
  truthy verse_num = true ->
  appends (lift (execute_insert translation_id book_id chapter verse_num (JStr text))).
Proof.
  intros T d.
  destruct (builder_insert translation_id book_id chapter verse_num text d T)
    as (Hb & Hd & Hg & He & Hok).
  split; [exact Hb|]. split; [|split; [exact Hd | exact Hg]].
  destruct (bres (lift _ d)) as [[]|e] eqn:E.
  - destruct (Hok eq_refl) as (verse & _ & -> & ->). reflexivity.
  - destruct (He e eq_refl) as (-> & ->). rewrite app_nil_r. reflexivity.
Qed.

(** The inserts of a chapter. *)
Lemma insert_verses_appends translation_id book_id chapter verses :
  Forall stripped_entry verses ->
  forall start, appends (insert_verses translation_id book_id chapter verses start).
Proof.
  induction 1 as [|[verse_num text] later [T _] _ IH]; intros start;
    cbn [insert_verses]; [apply appends_ret|].
  apply appends_bind; [|intros _; apply IH].
  apply builder_insert_appends, T.
Qed.

Lemma insert_verses_counts translation_id book_id chapter verses :
  Forall stripped_entry verses ->
  forall start, counts start (insert_verses translation_id book_id chapter verses start).
Proof.
  induction 1 as [|[verse_num text] later [T _] _ IH]; intros start d t;
    cbn [insert_verses].
  - cbn. intros E. inversion E. lia.
  - intros E. apply bbind_ok_inv in E. destruct E as ([] & E1 & E2 & Ho & _).
    destruct (builder_insert translation_id book_id chapter verse_num text d T)
      as (_ & _ & _ & _ & Hok).
    destruct (Hok E1) as (verse & _ & Ho1 & _).
    assert (H1 : len (written (bout (lift (execute_insert translation_id book_id chapter
                                             verse_num (JStr text)) d))) = 1)
      by (rewrite Ho1; reflexivity).
    rewrite Ho, written_app, len_app, (IH _ _ _ E2), H1. lia.
Qed.

Lemma insert_verses_writes translation_id book_id chapter verses :
  Forall stripped_entry verses ->
  forall start,
    writes (chapter_row translation_id book_id chapter)
      (insert_verses translation_id book_id chapter verses start).
Proof.
  induction 1 as [|[verse_num text] later [T S] _ IH]; intros start;
    cbn [insert_verses]; [intros d; constructor|].
  apply writes_bind; [|intros _; apply IH].
  intros d. destruct (builder_insert translation_id book_id chapter verse_num text d T)
    as (_ & _ & _ & He & Hok).
  destruct (bres (lift _ d)) as [[]|e] eqn:E.
  - destruct (Hok eq_refl) as (verse & Bv & -> & _).
    constructor; [|constructor].
    unfold chapter_row.
    cbn [stored r_translation r_book r_chapter r_verse r_text text_affinity].
    split; [reflexivity|]. split; [reflexivity|]. split; [reflexivity|].
    split; [|exists text; auto].
    intros N. pose proof (integer_affinity_null (engine d) verse) as Hn.
    rewrite N, (bind_param_truthy_not_null _ _ T Bv) in Hn. discriminate.
  - destruct (He e eq_refl) as (_ & ->). constructor.
Qed.

Lemma insert_verses_steady translation_id book_id chapter verses :
  Forall stripped_entry verses ->
  forall start, steady (insert_verses translation_id book_id chapter verses start).
Proof.
  induction 1 as [|[verse_num text] later [T _] _ IH]; intros start;
    cbn [insert_verses].
  - intros d d' a a' _ E E'. cbn in *. split; congruence.
  - apply steady_bind; [apply builder_insert_appends, T| |intros _; apply IH].
    intros d d' [] [] He E E'. split; [reflexivity|].
    destruct (builder_insert translation_id book_id chapter verse_num text d T)
      as (_ & _ & _ & _ & Hok).
    destruct (builder_insert translation_id book_id chapter verse_num text d' T)
      as (_ & _ & _ & _ & Hok').
    destruct (Hok E) as (verse & Bv & -> & _).
    destruct (Hok' E') as (verse' & Bv' & -> & _).
    congruence.
Qed.

Lemma insert_verses_asks translation_id book_id chapter verses :
  Forall stripped_entry verses ->
  forall start, asks [] (insert_verses translation_id book_id chapter verses start).
Proof.
  induction 1 as [|[verse_num text] later [T _] _ IH]; intros start;
    cbn [insert_verses]; [intros d _; reflexivity|].
  apply (asks_bind [] []); [|intros _; apply IH].
  intros d Hok.
  destruct (builder_insert translation_id book_id chapter verse_num text d T)
    as (_ & _ & _ & _ & H).
  destruct (bres (lift _ d)) as [[]|e] eqn:E; [|discriminate].
  destruct (H eq_refl) as (verse & _ & -> & _). reflexivity.
Qed.

Lemma chapter_answer_stripped helloao source book chapter :
  Forall stripped_entry (chapter_answer helloao source book chapter).
Proof.
  unfold chapter_answer. destruct (helloao _ _ _) as [| | |data]; try constructor.
  destruct (chapter_verses_of data) as [verses|] eqn:E; [|constructor].
  exact (chapter_verses_of_stripped _ _ E).
Qed.

(** What the body of the chapter loop comes to for a book of [BOOKS]. *)
Lemma download_book_chapter_run helloao translation_id source book chapter start d :
  In book BOOKS ->
  download_book_chapter helloao translation_id source book chapter start d
  = let request := BRequest source (replace_spaces (b_name book)) chapter in
    let o := insert_verses translation_id (b_id book) chapter
               (chapter_answer helloao source book chapter) start d in
    match bres o with
    | Ok book_verses =>
        mkBuild (Ok book_verses) (bfinal o)
          (request :: bout o ++
           if chapter mod 10 =? 0
           then [BPrint (BLogProgress (b_name book) chapter (b_chapters book))]
           else [])
    | Raise e => mkBuild (Raise e) (bfinal o) (request :: bout o)
    end.
Proof.
  intros Hb. unfold download_book_chapter.
  rewrite bbind_run, (fetch_bible_text_known _ _ _ _ _ _ (BOOKS_ids_identify _ Hb)).
  cbn [bres bfinal bout]. rewrite bbind_run.
  destruct (bres (insert_verses _ _ _ _ _ _)) as [book_verses|e]; [|reflexivity].
  cbn zeta. rewrite bbind_run.
  destruct (chapter mod 10 =? 0); cbn; reflexivity.
Qed.

Lemma written_progress chapter (line : build_line) :
  written (if chapter mod 10 =? 0 then [BPrint line] else []) = [].
Proof. destruct (chapter mod 10 =? 0); reflexivity. Qed.

Lemma requests_progress chapter (line : build_line) :
  requests (if chapter mod 10 =? 0 then [BPrint line] else []) = [].
Proof. destruct (chapter mod 10 =? 0); reflexivity. Qed.

Lemma written_request source name chapter t :
  written (BRequest source name chapter :: t) = written t.
Proof. reflexivity. Qed.

Section BookChapter.

Variable helloao : string -> string -> Z -> response.
Variables translation_id source : string.
Variable book : book_info.
Hypothesis known : In book BOOKS.

Lemma download_book_chapter_appends chapter start :
  appends (download_book_chapter helloao translation_id source book chapter start).
Proof.
  intros d. rewrite (download_book_chapter_run _ _ _ _ _ _ _ known). cbn zeta.
  destruct (insert_verses_appends translation_id (b_id book) chapter _
              (chapter_answer_stripped helloao source book chapter) start d)
    as (Hb & Hv & Hd & He).
  destruct (bres (insert_verses _ _ _ _ _ _)) as [book_verses|e];
    cbn [bres bfinal bout]; rewrite written_request, ?written_app, ?written_progress,
      ?app_nil_r; repeat split; assumption.
Qed.

Lemma download_book_chapter_counts chapter start :
  counts start (download_book_chapter helloao translation_id source book chapter start).
Proof.
  intros d t. rewrite (download_book_chapter_run _ _ _ _ _ _ _ known). cbn zeta.
  pose proof (insert_verses_counts translation_id (b_id book) chapter _
                (chapter_answer_stripped helloao source book chapter) start d) as Hc.
  destruct (bres (insert_verses _ _ _ _ _ _)) as [book_verses|e];
    cbn [bres bfinal bout]; [|discriminate].
  intros E. inversion E; subst.
  rewrite written_request, written_app, written_progress, app_nil_r.
  apply Hc. reflexivity.
Qed.

Lemma download_book_chapter_writes chapter start :
  writes (chapter_row translation_id (b_id book) chapter)
    (download_book_chapter helloao translation_id source book chapter start).
Proof.
  intros d. rewrite (download_book_chapter_run _ _ _ _ _ _ _ known). cbn zeta.
  pose proof (insert_verses_writes translation_id (b_id book) chapter _
                (chapter_answer_stripped helloao source book chapter) start d) as Hw.
  destruct (bres (insert_verses _ _ _ _ _ _)) as [book_verses|e];
    cbn [bres bfinal bout]; rewrite written_request, ?written_app, ?written_progress,
      ?app_nil_r; exact Hw.
Qed.

Lemma download_book_chapter_steady chapter start :
  steady (download_book_chapter helloao translation_id source book chapter start).
Proof.
  intros d d' a a'. rewrite !(download_book_chapter_run _ _ _ _ _ _ _ known). cbn zeta.
  pose proof (insert_verses_steady translation_id (b_id book) chapter _
                (chapter_answer_stripped helloao source book chapter) start d d') as Hs.
  destruct (bres (insert_verses _ _ _ _ _ d)) as [x|e]; [|discriminate].
  destruct (bres (insert_verses _ _ _ _ _ d')) as [x'|e']; [|discriminate].
  cbn [bres bout]. intros He E E'. inversion E; inversion E'; subst.
  destruct (Hs _ _ He eq_refl eq_refl) as [-> ->]. auto.
Qed.

Lemma download_book_chapter_asks chapter start :
  asks [BRequest source (replace_spaces (b_name book)) chapter]
    (download_book_chapter helloao translation_id source book chapter start).
Proof.
  intros d. rewrite (download_book_chapter_run _ _ _ _ _ _ _ known). cbn zeta.
  pose proof (insert_verses_asks translation_id (b_id book) chapter _
                (chapter_answer_stripped helloao source book chapter) start d) as Ha.
  destruct (bres (insert_verses _ _ _ _ _ _)) as [book_verses|e];
    cbn [bres bfinal bout is_ok]; [|discriminate].
  intros _. change (requests (?r :: ?t)) with (r :: requests t).
  cbn [requests filter is_request]. fold (requests (bout (insert_verses translation_id
    (b_id book) chapter (chapter_answer helloao source book chapter) start d) ++
    (if chapter mod 10 =? 0
     then [BPrint (BLogProgress (b_name book) chapter (b_chapters book))] else []))).
  rewrite requests_app, requests_progress, app_nil_r, Ha; reflexivity.
Qed.

(** The chapter loop of a book. *)
Lemma download_book_chapters_appends chapters :
  forall start,
    appends (download_book_chapters helloao translation_id source book chapters start).
Proof.
  induction chapters as [|chapter later IH]; intros start; cbn [download_book_chapters].
  - apply appends_ret.
  - apply appends_bind; [apply download_book_chapter_appends | intros a; apply IH].
Qed.

Lemma download_book_chapters_counts chapters :
  forall start,
    counts start (download_book_chapters helloao translation_id source book chapters start).
Proof.
  induction chapters as [|chapter later IH]; intros start; cbn [download_book_chapters].
  - intros d t E. cbn in *. inversion E. lia.
  - apply counts_bind; [apply download_book_chapter_counts | intros a; apply IH].
Qed.

Lemma download_book_chapters_writes chapters :
  Forall (fun chapter => 1 <= chapter <= b_chapters book) chapters ->
  forall start,
    writes (built_row translation_id)
      (download_book_chapters helloao translation_id source book chapters start).
Proof.
  induction 1 as [|chapter later Hc _ IH]; intros start; cbn [download_book_chapters].
  - intros d. constructor.
  - apply writes_bind; [|intros a; apply IH].
    intros d. eapply Forall_impl; [|apply download_book_chapter_writes].
    intros r (Ht & Hbk & Hch & Hv). split; [exact Ht|]. split; [|exact Hv].
    exists book. rewrite Hch. auto.
Qed.

Lemma download_book_chapters_steady chapters :
  forall start,
    steady (download_book_chapters helloao translation_id source book chapters start).
Proof.
  induction chapters as [|chapter later IH]; intros start; cbn [download_book_chapters].
  - intros d d' a a' _ E E'. cbn in *. split; congruence.
  - apply steady_bind; [apply download_book_chapter_appends
                       | apply download_book_chapter_steady | intros a; apply IH].
Qed.

Lemma download_book_chapters_asks chapters :
  forall start,
    asks (map (fun chapter => BRequest source (replace_spaces (b_name book)) chapter)
            chapters)
      (download_book_chapters helloao translation_id source book chapters start).
Proof.
  induction chapters as [|chapter later IH]; intros start; cbn [download_book_chapters map].
  - intros d _. reflexivity.
  - apply (asks_bind [_]); [apply download_book_chapter_asks | intros a; apply IH].
Qed.

End BookChapter.

(** The end of a loop body: a printed line, then the result. *)
Lemma print_then_ret {A} line (a : A) d :
  bbind (bprint line) (fun _ => bret a) d = mkBuild (Ok a) d [BPrint line].
Proof. reflexivity. Qed.

Section Book.

Variable helloao : string -> string -> Z -> response.
Variables translation_id source : string.

Lemma download_book_appends book total :
  In book BOOKS -> appends (download_book helloao translation_id source book total).
Proof.
  intros known. unfold download_book.
  apply appends_bind; [apply download_book_chapters_appends, known|].
  intros a. apply appends_bind; [apply appends_print | intros; apply appends_ret].
Qed.

Lemma download_book_counts book total :
  In book BOOKS -> counts total (download_book helloao translation_id source book total).
Proof.
  intros known d t E. unfold download_book in *.
  apply bbind_ok_inv in E. destruct E as (a & E1 & E2 & Ho & _).
  rewrite print_then_ret in E2, Ho. cbn [bres bout] in E2, Ho.
  assert (Et : t = total + a) by congruence.
  pose proof (download_book_chapters_counts _ _ _ _ known _ _ _ _ E1) as Hc.
  rewrite Ho, written_app, len_app.
  change (len (written [BPrint (BLogBook (b_name book) a)])) with 0. lia.
Qed.

Lemma download_book_writes book total :
  In book BOOKS ->
  writes (built_row translation_id) (download_book helloao translation_id source book total).
Proof.
  intros known. unfold download_book. apply writes_bind.
  - apply download_book_chapters_writes; [exact known|].
    apply Forall_forall. intros chapter H. apply range_bounds in H. lia.
  - intros a d. rewrite print_then_ret. constructor.
Qed.

Lemma download_book_steady book total :
  In book BOOKS -> steady (download_book helloao translation_id source book total).
Proof.
  intros known. unfold download_book.
  apply steady_bind; [apply download_book_chapters_appends, known
                     | apply download_book_chapters_steady, known|].
  intros a d d' x x' _. rewrite !print_then_ret. cbn. split; congruence.
Qed.

Lemma download_book_asks book total :
  In book BOOKS ->
  asks (map (fun chapter => BRequest source (replace_spaces (b_name book)) chapter)
          (range 1 (b_chapters book)))
    (download_book helloao translation_id source book total).
Proof.
  intros known. unfold download_book.
  rewrite <- (app_nil_r (map _ _)).
  apply asks_bind; [apply download_book_chapters_asks, known|].
  intros a d _. rewrite print_then_ret. reflexivity.
Qed.

(** The loop over the books. *)
Lemma download_books_appends todo :
  Forall (fun book => In book BOOKS) todo ->
  forall total, appends (download_books helloao translation_id source todo total).
Proof.
  induction 1 as [|book later known _ IH]; intros total; cbn [download_books].
  - apply appends_ret.
  - apply appends_bind; [apply download_book_appends, known | intros a; apply IH].
Qed.

Lemma download_books_counts todo :
  Forall (fun book => In book BOOKS) todo ->
  forall total, counts total (download_books helloao translation_id source todo total).
Proof.
  induction 1 as [|book later known _ IH]; intros total; cbn [download_books].
  - intros d t E. cbn in *. inversion E. lia.
  - apply counts_bind; [apply download_book_counts, known | intros a; apply IH].
Qed.

Lemma download_books_writes todo :
  Forall (fun book => In book BOOKS) todo ->
  forall total,
    writes (built_row translation_id)
      (download_books helloao translation_id source todo total).
Proof.
  induction 1 as [|book later known _ IH]; intros total; cbn [download_books].
  - intros d. constructor.
  - apply writes_bind; [apply download_book_writes, known | intros a; apply IH].
Qed.

Lemma download_books_steady todo :
  Forall (fun book => In book BOOKS) todo ->
  forall total, steady (download_books helloao translation_id source todo total).
Proof.
  induction 1 as [|book later known _ IH]; intros total; cbn [download_books].
  - intros d d' a a' _ E E'. cbn in *. split; congruence.
  - apply steady_bind; [apply download_book_appends, known
                       | apply download_book_steady, known | intros a; apply IH].
Qed.

Lemma download_books_asks todo :
  Forall (fun book => In book BOOKS) todo ->
  forall total,
    asks (flat_map (fun book =>
                      map (fun chapter =>
                             BRequest source (replace_spaces (b_name book)) chapter)
                        (range 1 (b_chapters book)))
            todo)
      (download_books helloao translation_id source todo total).
Proof.
  induction 1 as [|book later known _ IH]; intros total; cbn [download_books flat_map].
  - intros d _. reflexivity.
  - apply asks_bind; [apply download_book_asks, known | intros a; apply IH].
Qed.

Lemma all_books_known : Forall (fun book => In book BOOKS) BOOKS.
Proof. apply Forall_forall. auto. Qed.

(** The commit of the builder. *)
Lemma builder_commit d :
  let o := lift commit d in
  books (bfinal o) = books d /\ verses (bfinal o) = verses d /\
  written (bout o) = [] /\ requests (bout o) = [] /\
  (bres o = Ok tt -> durable (bfinal o) = verses d /\ bout o = [BStore (EvCommit None)]) /\
  (forall e, bres o = Raise e -> durable (bfinal o) = durable d).
Proof.
  unfold lift, commit.
  pose proof (next_fault_books d) as Nb. pose proof (next_fault_verses d) as Nv.
  pose proof (next_fault_durable d) as Nd.
  destruct (next_fault d) as [[msg|] d1]; cbn [snd] in *; cbn.
  - split; [exact Nb|]. split; [exact Nv|]. split; [reflexivity|].
    split; [reflexivity|]. split; [discriminate|].
    intros e E. exact Nd.
  - split; [exact Nb|]. split; [exact Nv|]. split; [reflexivity|].
    split; [reflexivity|]. split; [|discriminate].
    intros _. split; [exact Nv | reflexivity].
Qed.

Lemma builder_commit_engine d : engine (bfinal (lift commit d)) = engine d.
Proof.
  unfold lift, commit. pose proof (next_fault_engine d) as Ne.
  destruct (next_fault d) as [[msg|] d1]; cbn [snd] in *; cbn; exact Ne.
Qed.

(** What [download_translation] comes to, given the run of its loop. *)
Lemma download_translation_run d :
  download_translation helloao translation_id source d
  = let o := download_books helloao translation_id source BOOKS 0 d in
    let start := BPrint (BLogDownloading translation_id) in
    match bres o with
    | Ok total_verses =>
        let o' := lift commit (bfinal o) in
        match bres o' with
        | Ok _ => mkBuild (Ok total_verses) (bfinal o')
                    (start :: bout o ++ bout o' ++ [BPrint (BLogTotal total_verses)])
        | Raise e => mkBuild (Raise e) (bfinal o') (start :: bout o ++ bout o')
        end
    | Raise e => mkBuild (Raise e) (bfinal o) (start :: bout o)
    end.
Proof.
  unfold download_translation. rewrite bbind_run. cbn [bprint bemit bres bfinal bout].
  rewrite bbind_run.
  destruct (bres (download_books _ _ _ _ _ _)) as [total_verses|e]; [|reflexivity].
  cbn zeta. rewrite bbind_run.
  destruct (bres (lift commit _)) as [[]|e]; [|reflexivity].
  cbn zeta. rewrite print_then_ret. reflexivity.
Qed.

End Book.

Section Translation.

Variable helloao : string -> string -> Z -> response.
Variables translation_id source : string.

(** The store after [download_translation], for each way it can end. *)
Lemma download_translation_store d :
  let o := download_translation helloao translation_id source d in
  books (bfinal o) = books d /\
  verses (bfinal o) = verses d ++ written (bout o) /\
  (forall total, bres o = Ok total ->
                 durable (bfinal o) = verses (bfinal o) /\
                 total = len (written (bout o))) /\
  (forall e, bres o = Raise e -> durable (bfinal o) = durable d).
Proof.
  cbn zeta. rewrite download_translation_run. cbn zeta.
  destruct (download_books_appends helloao translation_id source BOOKS all_books_known 0 d)
    as (Hb & Hv & Hd & He).
  pose proof (download_books_counts helloao translation_id source BOOKS all_books_known 0 d)
    as Hc.
  set (o := download_books helloao translation_id source BOOKS 0 d) in *. clearbody o.
  destruct (bres o) as [t|e0].
  - destruct (builder_commit (bfinal o)) as (Cb & Cv & Cw & _ & Cok & Ce).
    set (o' := lift commit (bfinal o)) in *. clearbody o'.
    destruct (bres o') as [[]|e1]; cbn [bres bfinal bout];
      change (written (?x :: ?l)) with (written l);
      rewrite !written_app, Cw, Cb, Cv, Hb, Hv, ?app_nil_r.
    + split; [reflexivity|]. split; [reflexivity|]. split; [|discriminate].
      intros total E. inversion E; subst.
      destruct (Cok eq_refl) as [-> _]. rewrite Hv.
      split; [reflexivity|]. rewrite (Hc total eq_refl). lia.
    + split; [reflexivity|]. split; [reflexivity|]. split; [discriminate|].
      intros e E. rewrite (Ce e1 eq_refl). exact Hd.
  - cbn [bres bfinal bout]. change (written (?x :: ?l)) with (written l).
    split; [exact Hb|]. split; [exact Hv|]. split; [discriminate|].
    intros e E. exact Hd.
Qed.

Lemma download_translation_engine d :
  engine (bfinal (download_translation helloao translation_id source d)) = engine d.
Proof.
  rewrite download_translation_run. cbn zeta.
  destruct (download_books_appends helloao translation_id source BOOKS all_books_known 0 d)
    as (_ & _ & _ & He).
  set (o := download_books helloao translation_id source BOOKS 0 d) in *. clearbody o.
  destruct (bres o) as [t|e0]; [|exact He].
  pose proof (builder_commit_engine (bfinal o)) as Ce.
  set (o' := lift commit (bfinal o)) in *. clearbody o'.
  destruct (bres o') as [[]|e1]; cbn [bfinal]; congruence.
Qed.

Lemma download_translation_writes d :
  Forall (built_row translation_id)
    (written (bout (download_translation helloao translation_id source d))).
Proof.
  rewrite download_translation_run. cbn zeta.
  pose proof (download_books_writes helloao translation_id source BOOKS
                all_books_known 0 d) as Hw.
  set (o := download_books helloao translation_id source BOOKS 0 d) in *. clearbody o.
  destruct (bres o) as [t|e0];
    [|cbn [bout]; change (written (?x :: ?l)) with (written l); exact Hw].
  destruct (builder_commit (bfinal o)) as (_ & _ & Cw & _).
  set (o' := lift commit (bfinal o)) in *. clearbody o'.
  destruct (bres o') as [[]|e1]; cbn [bout];
    change (written (?x :: ?l)) with (written l);
    rewrite !written_app, Cw, ?app_nil_r; exact Hw.
Qed.

Lemma download_translation_steady : steady (download_translation helloao translation_id source).
Proof.
  intros d d' a a' He. rewrite !download_translation_run. cbn zeta.
  pose proof (download_books_steady helloao translation_id source BOOKS
                all_books_known 0 d d') as Hs.
  set (o := download_books helloao translation_id source BOOKS 0 d) in *. clearbody o.
  set (o' := download_books helloao translation_id source BOOKS 0 d') in *. clearbody o'.
  destruct (bres o) as [t|e0]; [|discriminate].
  destruct (bres o') as [t'|e0']; [|discriminate].
  destruct (Hs _ _ He eq_refl eq_refl) as [<- Ho].
  destruct (builder_commit (bfinal o)) as (_ & _ & _ & _ & Cok & _).
  destruct (builder_commit (bfinal o')) as (_ & _ & _ & _ & Cok' & _).
  set (c := lift commit (bfinal o)) in *. clearbody c.
  set (c' := lift commit (bfinal o')) in *. clearbody c'.
  destruct (bres c) as [[]|e1]; [|discriminate].
  destruct (bres c') as [[]|e1']; [|discriminate].
  destruct (Cok eq_refl) as [_ ->]. destruct (Cok' eq_refl) as [_ ->].
  cbn [bres bout]. intros E E'. inversion E; inversion E'; subst.
  rewrite Ho. auto.
Qed.

Lemma download_translation_asks :
  asks (all_chapters source) (download_translation helloao translation_id source).
Proof.
  intros d. rewrite download_translation_run. cbn zeta.
  pose proof (download_books_asks helloao translation_id source BOOKS
                all_books_known 0 d) as Ha.
  fold (all_chapters source) in Ha.
  set (o := download_books helloao translation_id source BOOKS 0 d) in *. clearbody o.
  generalize dependent (all_chapters source). intros sent Ha.
  destruct (bres o) as [t|e0]; [|discriminate].
  destruct (builder_commit (bfinal o)) as (_ & _ & _ & Cr & _).
  set (c := lift commit (bfinal o)) in *. clearbody c.
  destruct (bres c) as [[]|e1]; [|discriminate].
  cbn [bout]. intros _.
  change (requests (?x :: ?l)) with (requests l).
  rewrite !requests_app, Cr, (Ha eq_refl).
  change (requests [BPrint (BLogTotal t)]) with (@nil build_event).
  rewrite !app_nil_r. reflexivity.
Qed.

End Translation.

(** X15.  When [download_translation] returns, the total it returns is
    the number of rows it wrote: the table of verses is the former table
    followed by those rows, all of them are durable, and the books table
    is as it was. *)
Theorem X15_download_total_is_the_number_of_rows_written
    (helloao : string -> string -> Z -> response) (translation_id source : string)
    (d : db) (total : Z) :
  let o := download_translation helloao translation_id source d in
  bres o = Ok total ->
  total = len (written (bout o)) /\
  books (bfinal o) = books d /\
  verses (bfinal o) = verses d ++ written (bout o) /\
  durable (bfinal o) = verses (bfinal o).
Proof.
  intros o E.
  destruct (download_translation_store helloao translation_id source d)
    as (Hb & Hv & Hok & _).
  destruct (Hok total E) as [Hd Ht]. auto.
Qed.

Lemma X15_download_total_is_the_number_of_rows_written_witness :
  let o := download_translation (genesis_helloao (JNum 1)) "KJV" "KJV" empty_store in
  bres o = Ok 2 /\
  2 = len (written (bout o)) /\
  verses (bfinal o)
  = [mkRow "KJV" 1 1 (SInt 1) (SText "In the beginning");
     mkRow "KJV" 1 1 (SInt 2) (SText "And the earth was without form")] /\
  durable (bfinal o) = verses (bfinal o).
Proof.
  split; [vm_compute; reflexivity|].
  destruct (X15_download_total_is_the_number_of_rows_written
              (genesis_helloao (JNum 1)) "KJV" "KJV" empty_store 2)
    as (H1 & _ & _ & H4); [vm_compute; reflexivity|].
  split; [exact H1|]. split; [vm_compute; reflexivity | exact H4].
Defined.

(** X16.  When [download_translation] fails, whatever the error, nothing
    of the run is durable: the rows it wrote are in the table of the
    connection, after the former rows, but the durable rows are those of
    the start, since the only commit is the last statement. *)
Theorem X16_failed_download_commits_nothing
    (helloao : string -> string -> Z -> response) (translation_id source : string)
    (d : db) (e : exn) :
  let o := download_translation helloao translation_id source d in
  bres o = Raise e ->
  durable (bfinal o) = durable d /\
  verses (bfinal o) = verses d ++ written (bout o).
Proof.
  intros o E.
  destruct (download_translation_store helloao translation_id source d)
    as (_ & Hv & _ & He).
  split; [exact (He e E) | exact Hv].
Qed.

Lemma X16_failed_download_commits_nothing_witness :
  let o := download_translation (genesis_helloao (JArr [JNum 1])) "KJV" "KJV" empty_store in
  bres o = Raise InterfaceError /\
  durable (bfinal o) = durable empty_store /\
  verses (bfinal o) = verses empty_store ++ written (bout o).
Proof.
  split; [vm_compute; reflexivity|].
  apply (X16_failed_download_commits_nothing
           (genesis_helloao (JArr [JNum 1])) "KJV" "KJV" empty_store InterfaceError).
  vm_compute; reflexivity.
Defined.

(** X17.  Every row that [download_translation] writes carries the
    translation id of the call, the id of a book of [BOOKS] and a chapter
    between 1 and the chapter count of that book; its verse number is
    not null, and its text is a string without white space at either
    end.  The rows of the table after the call are the former rows and
    such rows. *)
Theorem X17_download_writes_rows_of_the_books
    (helloao : string -> string -> Z -> response) (translation_id source : string)
    (d : db) :
  let o := download_translation helloao translation_id source d in
  Forall (built_row translation_id) (written (bout o)) /\
  (forall r, In r (verses (bfinal o)) -> In r (verses d) \/ built_row translation_id r).
Proof.
  intros o.
  pose proof (download_translation_writes helloao translation_id source d) as W.
  split; [exact W|].
  destruct (download_translation_store helloao translation_id source d) as (_ & V & _).
  intros r Hr. subst o. rewrite V in Hr. apply in_app_or in Hr.
  destruct Hr as [Hr|Hr]; [auto|].
  right. rewrite Forall_forall in W. auto.
Qed.

(** X18.  A call of [download_translation] that returns has requested
    every chapter of every book of [BOOKS] exactly once, book after book
    and chapter after chapter, from the source it was given: 1189
    requests; it sends no other request. *)
Theorem X18_download_requests_every_chapter_once
    (helloao : string -> string -> Z -> response) (translation_id source : string)
    (d : db) :
  let o := download_translation helloao translation_id source d in
  is_ok (bres o) = true ->
  requests (bout o) = all_chapters source /\
  List.length (requests (bout o)) = 1189%nat.
Proof.
  intros o E.
  pose proof (download_translation_asks helloao translation_id source d E) as H.
  split; [exact H|]. subst o. rewrite H.
  unfold all_chapters. rewrite length_flat_map.
  erewrite map_ext; [|intros book; apply length_map].
  vm_compute. reflexivity.
Qed.

Lemma X18_download_requests_every_chapter_once_witness :
  let o := download_translation (genesis_helloao (JNum 1)) "KJV" "KJV" empty_store in
  is_ok (bres o) = true /\
  List.length (requests (bout o)) = 1189%nat.
Proof.
  split; [vm_compute; reflexivity|].
  apply (X18_download_requests_every_chapter_once
           (genesis_helloao (JNum 1)) "KJV" "KJV" empty_store).
  vm_compute. reflexivity.
Defined.

(** X19.  [download_translation] does not look at what the table holds:
    a second call that returns, with the same provider answers, writes
    the same rows again and returns the same total, so the table ends
    with every row of the first call twice. *)
Theorem X19_second_download_duplicates_the_rows
    (helloao : string -> string -> Z -> response) (translation_id source : string)
    (d : db) (total total' : Z) :
  let o := download_translation helloao translation_id source d in
  let o' := download_translation helloao translation_id source (bfinal o) in
  bres o = Ok total ->
  bres o' = Ok total' ->
  total' = total /\
  written (bout o') = written (bout o) /\
  verses (bfinal o') = verses d ++ written (bout o) ++ written (bout o).
Proof.
  intros o o' E E'.
  assert (He : engine d = engine (bfinal o)).
  { destruct (download_translation_engine helloao translation_id source d) as [].
    reflexivity. }
  destruct (download_translation_steady helloao translation_id source _ _ _ _ He E E')
    as [Ht Ho].
  destruct (download_translation_store helloao translation_id source d) as (_ & V & _).
  destruct (download_translation_store helloao translation_id source (bfinal o))
    as (_ & V' & _).
  fold o in V, V', Ho. fold o' in V', Ho.
  split; [auto|]. split; [rewrite Ho; reflexivity|].
  rewrite V', V, Ho, app_assoc. reflexivity.
Qed.

Lemma X19_second_download_duplicates_the_rows_witness :
  let o := download_translation (genesis_helloao (JNum 1)) "KJV" "KJV" empty_store in
  let o' := download_translation (genesis_helloao (JNum 1)) "KJV" "KJV" (bfinal o) in
  bres o = Ok 2 /\ bres o' = Ok 2 /\
  verses (bfinal o')
  = verses empty_store ++ written (bout o) ++ written (bout o) /\
  len (verses (bfinal o')) = 4.
Proof.
  split; [vm_compute; reflexivity|]. split; [vm_compute; reflexivity|].
  destruct (X19_second_download_duplicates_the_rows
              (genesis_helloao (JNum 1)) "KJV" "KJV" empty_store 2 2)
    as (_ & _ & H); [vm_compute; reflexivity | vm_compute; reflexivity |].
  split; [exact H | vm_compute; reflexivity].
Defined.

(* ===================================================================== *)
(** ** The chapter of the simple builder *)

Lemma verse_pair_complete v :
  Simple.verse_pair v = if complete_item v then Some (item_pair v) else None.
Proof.
  destruct v as [| | | |items|fields]; try reflexivity.
  unfold Simple.verse_pair, complete_item, item_pair, dict_get. cbn [py_getitem].
  destruct (lookup "verse" fields) as [verse|]; [|reflexivity].
  destruct (lookup "text" fields) as [[]|]; reflexivity.
Qed.

Lemma verse_pairs_complete items :
  Simple.verse_pairs items
  = if forallb complete_item items then Some (map item_pair items) else None.
Proof.
  induction items as [|v later IH]; [reflexivity|].
  cbn [Simple.verse_pairs forallb map]. rewrite verse_pair_complete, IH.
  destruct (complete_item v); [|reflexivity].
  destruct (forallb complete_item later); reflexivity.
Qed.

Lemma verse_pairs_stripped items :
  forall verses, Simple.verse_pairs items = Some verses ->
                 Forall (fun entry => strip (snd entry) = snd entry) verses.
Proof.
  intros verses. rewrite verse_pairs_complete.
  destruct (forallb complete_item items) eqn:E; [|discriminate].
  intros H. inversion H. subst. clear H.
  induction items as [|v later IH]; [constructor|].
  cbn [forallb] in E. apply andb_true_iff in E. destruct E as [Ev El].
  cbn [map]. constructor; [|apply IH, El].
  destruct v as [| | | |?|fields]; try discriminate.
  cbn [complete_item item_pair snd] in *.
  destruct (lookup "verse" fields); [|discriminate].
  destruct (lookup "text" fields) as [[]|]; try discriminate. apply strip_idem.
Qed.

(** X20.  [fetch_chapter] of the simple builder never raises and never
    touches the store: it sends exactly one request, for the book name
    with each space replaced by [%20], the chapter and the translation;
    and every text it returns is without white space at either end. *)
Theorem X20_fetch_chapter_never_raises
    (bible_api : string -> Z -> string -> response) (api_id book_name : string)
    (chapter : Z) (d : db) :
  let o := Simple.fetch_chapter bible_api api_id book_name chapter d in
  exists verses,
    bres o = Ok verses /\ bfinal o = d /\
    bout o = [BFetchChapter (replace_spaces book_name) chapter api_id] /\
    contains " " (replace_spaces book_name) = false /\
    Forall (fun entry => strip (snd entry) = snd entry) verses.
Proof.
  intros o. subst o. unfold Simple.fetch_chapter, bbind, bemit. cbn [bres bfinal bout].
  assert (S := replace_spaces_no_space book_name).
  destruct (bible_api (replace_spaces book_name) chapter api_id) as [| | |data];
    try (exists []; cbn; repeat split; try assumption; constructor).
  destruct (Simple.chapter_pairs_of data) as [verses|] eqn:E;
    [|exists []; cbn; repeat split; try assumption; constructor].
  exists verses. cbn. repeat split; try assumption.
  unfold Simple.chapter_pairs_of in E.
  destruct (py_in "verses" data) as [[]|]; try discriminate;
    [|inversion E; constructor].
  destruct (py_getitem data "verses") as [vs|]; [|discriminate].
  destruct (py_iter vs) as [items|]; [|discriminate].
  exact (verse_pairs_stripped _ _ E).
Qed.

(** X21.  [fetch_chapter] of the simple builder takes a chapter whole or
    not at all, and does not select: when every item of ["verses"] is a
    dict with a ["verse"] and a string ["text"], it returns one entry for
    each item, in order, whatever the number and the text are (a number
    that is 0 or null, an empty text); when one item is not, it returns
    the empty list. *)
Theorem X21_fetch_chapter_takes_all_items_or_none
    (bible_api : string -> Z -> string -> response) (api_id book_name : string)
    (chapter : Z) (d : db) (fields : list (string * json)) (items : list json) :
  bible_api (replace_spaces book_name) chapter api_id = Payload (JObj fields) ->
  lookup "verses" fields = Some (JArr items) ->
  bres (Simple.fetch_chapter bible_api api_id book_name chapter d)
  = Ok (if forallb complete_item items then map item_pair items else []).
Proof.
  intros Hp Hv. unfold Simple.fetch_chapter, bbind, bemit. cbn [bres bfinal bout].
  rewrite Hp. unfold Simple.chapter_pairs_of. cbn [py_in py_getitem]. rewrite Hv.
  cbn [py_iter]. rewrite verse_pairs_complete.
  destruct (forallb complete_item items); reflexivity.
Qed.

Lemma X21_fetch_chapter_takes_all_items_or_none_witness :
  let items := [JObj [("verse", JNum 1); ("text", JStr " In the beginning ")];
                JObj [("verse", JNull); ("text", JStr "")]] in
  let bible_api := fun (_ : string) (_ : Z) (_ : string) =>
                     Payload (JObj [("reference", JStr "Song of Solomon 1");
                                    ("verses", JArr items)]) in
  bres (Simple.fetch_chapter bible_api "kjv" "Song of Solomon" 1 empty_store)
  = Ok [(JNum 1, "In the beginning"); (JNull, "")].
Proof.
  apply (X21_fetch_chapter_takes_all_items_or_none
           (fun _ _ _ =>
              Payload (JObj [("reference", JStr "Song of Solomon 1");
                             ("verses",
                              JArr [JObj [("verse", JNum 1);
                                          ("text", JStr " In the beginning ")];
                                    JObj [("verse", JNull); ("text", JStr "")]])]))
           "kjv" "Song of Solomon" 1 empty_store
           [("reference", JStr "Song of Solomon 1");
            ("verses",
             JArr [JObj [("verse", JNum 1); ("text", JStr " In the beginning ")];
                   JObj [("verse", JNull); ("text", JStr "")]])]
           [JObj [("verse", JNum 1); ("text", JStr " In the beginning ")];
            JObj [("verse", JNull); ("text", JStr "")]]);
    reflexivity.
Defined.

(* ===================================================================== *)
(** ** The pass over a store that the builder made *)

Lemma BOOKS_repairable : forall book, In book BOOKS -> repairable book = true.
Proof. apply forallb_forall. vm_compute. reflexivity. Qed.

Lemma emits_commit_attempts_locked P attempts :
  (forall failure, P (EvCommit failure)) ->
  (forall ms, P (EvSleep ms)) -> P (EvPrint LogCommitLocked) ->
  emits P (commit_attempts attempts).
Proof.
  intros Hc Hs Hp. induction attempts as [|a later IH]; cbn [commit_attempts].
  - apply emits_ret.
  - apply emits_try.
    + intros d. unfold commit.
      destruct (next_fault d) as [[msg|] d']; repeat constructor; apply Hc.
    + intros [|msg| | | |]; try apply emits_raise.
      destruct (contains "locked" msg && (a <? 4)); [|apply emits_raise].
      apply emits_bind; [apply emits_emit, Hp|]. intros _.
      apply emits_bind; [apply emits_emit, Hs | intros; exact IH].
Qed.

Lemma emits_repair_chapters_of P cdn tid code bid api existing chapters :
  (forall r failure, P (EvInsert r failure)) ->
  (forall ms, P (EvSleep ms)) ->
  (forall chapter, In chapter chapters -> P (EvFetchChapter code api chapter)) ->
  forall c, emits P (repair_chapters cdn tid code bid api existing chapters c).
Proof.
  intros Hi Hs Hf. induction chapters as [|chapter later IH]; intros c;
    cbn [repair_chapters].
  - apply emits_ret.
  - apply emits_bind.
    + unfold repair_chapter.
      apply emits_bind.
      { unfold download_chapter. apply emits_bind.
        - apply emits_emit, Hf. left. reflexivity.
        - intros _. destruct (cdn code api chapter) as [| | |[]]; apply emits_ret. }
      intros cv. apply emits_bind.
      * destruct (truthy cv); [|apply emits_ret].
        destruct (py_iter cv); [|apply emits_raise].
        apply emits_write_entries; [|exact Hs]. intros. apply Hi.
      * intros c'. apply emits_bind; [apply emits_emit, Hs | intros; apply emits_ret].
    + intros c'. apply IH. intros. apply Hf. right. assumption.
Qed.

Lemma emits_repair_built_book cdn tid code book t :
  In book BOOKS ->
  emits built_event (repair_book cdn tid code (b_id book, b_name book) t).
Proof.
  intros Hin. pose proof (BOOKS_repairable _ Hin) as Hr. unfold repairable in Hr.
  unfold repair_book.
  destruct (lookup (b_name book) BOOK_NAMES) as [[|a api]|] eqn:Hb; try discriminate.
  destruct (lookup (b_name book) VERSE_COUNTS) as [expected|]; [|discriminate].
  apply Z.eqb_eq in Hr.
  apply emits_bind; [apply emits_get_existing; intros; exact I|].
  intros existing.
  destruct (is_complete _ _).
  { apply emits_bind; [apply emits_emit; exact I | intros; apply emits_ret]. }
  unfold repair_incomplete.
  apply emits_bind; [apply emits_emit; exact I|]. intros _.
  apply emits_bind.
  - apply emits_repair_chapters_of; try (intros; exact I).
    intros chapter Hc. apply range_bounds in Hc. cbn [built_event].
    exists book. split; [exact Hin|]. split; [exact Hb | lia].
  - intros c. apply emits_bind.
    + apply emits_commit_attempts_locked; intros; exact I.
    + intros _. apply emits_bind; [|intros; apply emits_ret].
      destruct (fst c >? 0); [apply emits_emit; exact I | apply emits_ret].
Qed.

Lemma emits_repair_built_books cdn tid code todo :
  incl todo built_books ->
  forall t, emits built_event (repair_books cdn tid code todo t).
Proof.
  induction todo as [|book later IH]; intros Hi t; cbn [repair_books].
  - apply emits_ret.
  - apply emits_bind.
    + assert (Hb : In book built_books) by (apply Hi; left; reflexivity).
      unfold built_books in Hb. apply in_map_iff in Hb.
      destruct Hb as (b & <- & Hb). apply emits_repair_built_book, Hb.
    + intros t'. apply IH. intros b Hb. apply Hi. right. exact Hb.
Qed.

(** X22.  A store that the builder made can be repaired in full: when the
    books table holds the ids and names of [BOOKS], a pass of
    [repair_translation] prints no warning of an unknown book, and every
    chapter it requests is a chapter between 1 and the chapter count that
    the builder has for a book of [BOOKS], asked under the provider name
    of that book: [BOOK_NAMES], [VERSE_COUNTS] and [CHAPTERS] of the
    repair script cover the books of the builder. *)
Theorem X22_built_books_are_known_to_the_repair
    (cdn_chapter : string -> string -> Z -> response) (translation_id : string)
    (d : db) :
  books d = built_books ->
  Forall built_event (out (repair_translation cdn_chapter translation_id d)).
Proof.
  intros Hd. unfold repair_translation.
  destruct (lookup translation_id TRANSLATIONS) as [[|a code]|];
    try (repeat constructor).
  unfold bind at 1.
  destruct (res (select_books d)) as [todo|e] eqn:Hs.
  - destruct (select_books_ok _ _ Hs) as [-> _]. cbn [out].
    apply Forall_app. split.
    + unfold select_books. destruct (next_fault d) as [[msg|] d'];
        repeat constructor.
    + apply emits_bind.
      * apply emits_repair_built_books. intros b Hb.
        rewrite order_by_id_in in Hb. rewrite <- Hd. exact Hb.
      * intros t. apply emits_bind; [apply emits_emit; exact I|].
        intros; apply emits_ret.
  - cbn [out]. unfold select_books. destruct (next_fault d) as [[msg|] d'];
      repeat constructor.
Qed.

Lemma X22_built_books_are_known_to_the_repair_witness :
  let d := mkDb built_books [] [] [] sqlite_digits in
  books d = built_books /\
  Forall built_event (out (repair_translation (fun _ _ _ => UrlError) "KJV" d)).
Proof.
  split; [reflexivity|].
  apply (X22_built_books_are_known_to_the_repair
           (fun _ _ _ => UrlError) "KJV" (mkDb built_books [] [] [] sqlite_digits)).
  reflexivity.
Defined.

(* ===================================================================== *)
(** ** The errors of a pass *)

Lemma raises_only_ret {A} P (a : A) : raises_only P (ret a).
Proof. intros d e H. discriminate. Qed.

Lemma raises_only_raise {A} (P : exn -> Prop) e : P e -> raises_only P (@raise A e).
Proof. intros H d e' E. cbn in E. inversion E. subst. exact H. Qed.

Lemma raises_only_emit P e : raises_only P (emit e).
Proof. intros d e' H. discriminate. Qed.

Lemma raises_only_bind {A B} P (c : M A) (k : A -> M B) :
  raises_only P c -> (forall a, raises_only P (k a)) -> raises_only P (bind c k).
Proof.
  intros Hc Hk d e. unfold bind.
  destruct (res (c d)) as [a|e0] eqn:E; cbn [res].
  - apply Hk.
  - intros H. inversion H. subst. apply (Hc d), E.
Qed.

Lemma raises_only_try {A} P (c : M A) (h : exn -> M A) :
  (forall e, raises_only P (h e)) -> raises_only P (try_except c h).
Proof.
  intros Hh d e. unfold try_except.
  destruct (res (c d)) as [a|e0] eqn:E; cbn [res].
  - rewrite E. discriminate.
  - apply Hh.
Qed.

Lemma raises_only_store_fault {A} (c : M A) :
  (forall d e, res (c d) = Raise e -> exists msg, e = OperationalError msg) ->
  raises_only (fun e => e <> IntegrityError) c.
Proof.
  intros H d e E. destruct (H d e E) as [msg ->]. discriminate.
Qed.

Lemma insert_attempts_raises attempts tid bid chapter v t c :
  raises_only (fun e => e <> IntegrityError)
    (insert_attempts attempts tid bid chapter v t c).
Proof.
  induction attempts as [|a later IH]; cbn [insert_attempts].
  - apply raises_only_ret.
  - apply raises_only_try.
    intros [|msg| | | |]; try (apply raises_only_raise; discriminate).
    + apply raises_only_ret.
    + destruct (contains "locked" msg && (a <? 2));
        [|apply raises_only_raise; discriminate].
      apply raises_only_bind; [apply raises_only_emit | intros; exact IH].
Qed.

Lemma commit_attempts_raises attempts :
  raises_only (fun e => e <> IntegrityError) (commit_attempts attempts).
Proof.
  induction attempts as [|a later IH]; cbn [commit_attempts].
  - apply raises_only_ret.
  - intros d e. unfold try_except, commit.
    destruct (next_fault d) as [[msg|] d']; cbn [res final]; [|discriminate].
    destruct (contains "locked" msg && (a <? 4)).
    + apply (raises_only_bind (fun e => e <> IntegrityError));
        [apply raises_only_emit|].
      intros _. apply raises_only_bind; [apply raises_only_emit | intros; exact IH].
    + cbn. intros E. inversion E. discriminate.
Qed.

Lemma write_entries_raises tid bid chapter existing entries :
  forall c, raises_only (fun e => e <> IntegrityError)
              (write_entries tid bid chapter existing entries c).
Proof.
  induction entries as [|v later IH]; intros c; cbn [write_entries].
  - apply raises_only_ret.
  - apply raises_only_bind; [|intros; apply IH].
    unfold write_entry. destruct v; try (apply raises_only_raise; discriminate).
    destruct (negb _ || negb _); [apply raises_only_ret|].
    destruct (negb (hashable _)); [apply raises_only_raise; discriminate|].
    destruct (negb (in_existing _ _ _)); [|apply raises_only_ret].
    apply insert_attempts_raises.
Qed.

Lemma repair_chapters_raises cdn tid code bid api existing chapters :
  forall c, raises_only (fun e => e <> IntegrityError)
              (repair_chapters cdn tid code bid api existing chapters c).
Proof.
  induction chapters as [|chapter later IH]; intros c; cbn [repair_chapters].
  - apply raises_only_ret.
  - apply raises_only_bind; [|intros; apply IH].
    unfold repair_chapter. apply raises_only_bind.
    { unfold download_chapter. apply raises_only_bind; [apply raises_only_emit|].
      intros _. destruct (cdn code api chapter) as [| | |[]]; apply raises_only_ret. }
    intros cv. apply raises_only_bind.
    + destruct (truthy cv); [|apply raises_only_ret].
      destruct (py_iter cv); [|apply raises_only_raise; discriminate].
      apply write_entries_raises.
    + intros c'. apply raises_only_bind; [apply raises_only_emit|].
      intros; apply raises_only_ret.
Qed.

Lemma repair_book_raises cdn tid code book t :
  raises_only (fun e => e <> IntegrityError) (repair_book cdn tid code book t).
Proof.
  destruct book as [bid name]. unfold repair_book.
  assert (skip : forall line, raises_only (fun e => e <> IntegrityError)
                                (print line ;; ret t)).
  { intros line. apply raises_only_bind; [apply raises_only_emit|].
    intros; apply raises_only_ret. }
  destruct (lookup name BOOK_NAMES) as [[|a api]|]; try apply skip.
  apply raises_only_bind.
  { unfold get_existing_verses. apply raises_only_bind; [|intros; apply raises_only_ret].
    apply raises_only_store_fault. intros d e. unfold select_chapter_verse.
    destruct (next_fault d) as [[msg|] d']; cbn; [|discriminate].
    intros E. inversion E. eauto. }
  intros existing. destruct (is_complete _ _); [apply skip|].
  unfold repair_incomplete.
  apply raises_only_bind; [apply raises_only_emit|]. intros _.
  apply raises_only_bind; [apply repair_chapters_raises|]. intros c.
  apply raises_only_bind; [apply commit_attempts_raises|]. intros _.
  apply raises_only_bind; [|intros; apply raises_only_ret].
  destruct (fst c >? 0); [apply raises_only_emit | apply raises_only_ret].
Qed.

Lemma repair_books_raises cdn tid code todo :
  forall t, raises_only (fun e => e <> IntegrityError) (repair_books cdn tid code todo t).
Proof.
  induction todo as [|book later IH]; intros t; cbn [repair_books].
  - apply raises_only_ret.
  - apply raises_only_bind; [apply repair_book_raises | intros; apply IH].
Qed.

(** X23.  A violated constraint never ends a pass: whatever the CDN
    answers and whatever the store holds, an exception that leaves
    [repair_translation] is not an [IntegrityError], since the only
    statement that can raise one is the insert, whose handler takes it
    for an existing row and goes on. *)
Theorem X23_integrity_error_never_leaves_the_pass
    (cdn_chapter : string -> string -> Z -> response) (translation_id : string)
    (d : db) (e : exn) :
  res (repair_translation cdn_chapter translation_id d) = Raise e ->
  e <> IntegrityError.
Proof.
  revert d e. change (raises_only (fun e => e <> IntegrityError)
                        (repair_translation cdn_chapter translation_id)).
  unfold repair_translation.
  destruct (lookup translation_id TRANSLATIONS) as [[|a code]|];
    try (apply raises_only_bind; [apply raises_only_emit|];
         intros; apply raises_only_ret).
  apply raises_only_bind.
  { apply raises_only_store_fault. intros d e. unfold select_books.
    destruct (next_fault d) as [[msg|] d']; cbn; [|discriminate].
    intros E. inversion E. eauto. }
  intros todo. apply raises_only_bind; [apply repair_books_raises|].
  intros t. apply raises_only_bind; [apply raises_only_emit|].
  intros; apply raises_only_ret.
Qed.

Lemma X23_integrity_error_never_leaves_the_pass_witness :
  res (repair_translation ruth_cdn "KJV" (ruth_store [None; Some "disk I/O error"]))
  = Raise (OperationalError "disk I/O error") /\
  OperationalError "disk I/O error" <> IntegrityError.
Proof.
  split; [vm_compute; reflexivity|].
  apply (X23_integrity_error_never_leaves_the_pass ruth_cdn "KJV"
           (ruth_store [None; Some "disk I/O error"])).
  vm_compute. reflexivity.
Defined.

(* ===================================================================== *)
(** ** A pass that returns has read sound chapters *)

Lemma when_ok_of_emits {A} P (c : M A) : emits P c -> when_ok P c.
Proof. intros H d _. apply H. Qed.

Lemma when_ok_bind {A B} P (c : M A) (k : A -> M B) :
  when_ok P c -> (forall a, when_ok P (k a)) -> when_ok P (bind c k).
Proof.
  intros Hc Hk d H.
  destruct (res (bind c k d)) as [b|] eqn:E; [clear H|discriminate].
  apply bind_ok_inv in E. destruct E as (a & E1 & E2 & -> & _).
  apply Forall_app. split.
  - apply Hc. rewrite E1. reflexivity.
  - apply Hk. rewrite E2. reflexivity.
Qed.

Lemma write_entry_ok_entry tid bid chapter existing v c d c' :
  res (write_entry tid bid chapter existing v c d) = Ok c' -> entry_ok v = true.
Proof.
  unfold write_entry, entry_ok. destruct v; try discriminate.
  destruct (negb _ || negb _); [reflexivity|].
  destruct (hashable _); [reflexivity | discriminate].
Qed.

Lemma write_entries_ok_entries tid bid chapter existing entries :
  forall c d c',
    res (write_entries tid bid chapter existing entries c d) = Ok c' ->
    forallb entry_ok entries = true.
Proof.
  induction entries as [|v later IH]; intros c d c' E; [reflexivity|].
  cbn [write_entries] in E. apply bind_ok_inv in E.
  destruct E as (c1 & E1 & E2 & _). cbn [forallb].
  rewrite (write_entry_ok_entry _ _ _ _ _ _ _ _ E1), (IH _ _ _ E2). reflexivity.
Qed.

Lemma sound_request_other cdn e : is_fetch_chapter e = false -> sound_request cdn e.
Proof. destruct e; cbn; intros; try exact I. discriminate. Qed.

Lemma when_ok_repair_chapter cdn tid code bid api existing chapter c :
  when_ok (sound_request cdn) (repair_chapter cdn tid code bid api existing chapter c).
Proof.
  intros d H.
  assert (other : forall e, is_fetch_chapter e = false -> sound_request cdn e)
    by (intros; apply sound_request_other; assumption).
  destruct (res (repair_chapter cdn tid code bid api existing chapter c d)) as [c'|] eqn:E;
    [clear H|discriminate].
  unfold repair_chapter in *.
  apply bind_ok_inv in E. destruct E as (cv & E1 & E2 & -> & _).
  assert (Hd : download_chapter cdn code api chapter d
               = mkOutcome (Ok cv) d [EvFetchChapter code api chapter] /\
               cv = match cdn code api chapter with
                    | Payload (JObj data) =>
                        dict_get data "verses" (dict_get data "data" (JArr []))
                    | _ => JNull
                    end).
  { revert E1. unfold download_chapter, bind, emit. cbn [res final out].
    destruct (cdn code api chapter) as [| | |[]]; cbn; intros E; inversion E;
      split; reflexivity. }
  destruct Hd as [Hd Hcv]. clear E1.
  rewrite Hd in *. cbn [final out] in *.
  apply bind_ok_inv in E2. destruct E2 as (c1 & E2 & _ & -> & _).
  constructor.
  - cbn [sound_request]. unfold payload_ok.
    destruct (cdn code api chapter) as [| | |[| | | | |data]]; try reflexivity.
    rewrite <- Hcv.
    destruct (truthy cv); [|reflexivity].
    destruct (py_iter cv) as [entries|]; [|discriminate].
    exact (write_entries_ok_entries _ _ _ _ _ _ _ _ E2).
  - apply Forall_app. split.
    + destruct (truthy cv); [|constructor].
      destruct (py_iter cv) as [entries|]; [|constructor].
      apply emits_write_entries; intros; apply other; reflexivity.
    + repeat constructor.
Qed.

Lemma when_ok_repair_chapters cdn tid code bid api existing chapters :
  forall c, when_ok (sound_request cdn)
              (repair_chapters cdn tid code bid api existing chapters c).
Proof.
  induction chapters as [|chapter later IH]; intros c; cbn [repair_chapters].
  - apply when_ok_of_emits, emits_ret.
  - apply when_ok_bind; [apply when_ok_repair_chapter | intros; apply IH].
Qed.

Lemma when_ok_repair_book cdn tid code book t :
  when_ok (sound_request cdn) (repair_book cdn tid code book t).
Proof.
  destruct book as [bid name]. unfold repair_book.
  assert (other : forall e, is_fetch_chapter e = false -> sound_request cdn e)
    by (intros; apply sound_request_other; assumption).
  assert (skip : forall line, when_ok (sound_request cdn) (print line ;; ret t)).
  { intros line. apply when_ok_of_emits.
    apply emits_bind; [apply emits_emit, other; reflexivity|].
    intros; apply emits_ret. }
  destruct (lookup name BOOK_NAMES) as [[|a api]|]; try apply skip.
  apply when_ok_bind.
  { apply when_ok_of_emits, emits_get_existing. intros; apply other; reflexivity. }
  intros existing. destruct (is_complete _ _); [apply skip|].
  unfold repair_incomplete.
  apply when_ok_bind; [apply when_ok_of_emits, emits_emit, other; reflexivity|].
  intros _. apply when_ok_bind; [apply when_ok_repair_chapters|].
  intros c. apply when_ok_of_emits. apply emits_bind.
  - apply emits_commit_attempts; intros; apply other; reflexivity.
  - intros _. apply emits_bind; [|intros; apply emits_ret].
    destruct (fst c >? 0); [apply emits_emit, other; reflexivity | apply emits_ret].
Qed.

Lemma when_ok_repair_books cdn tid code todo :
  forall t, when_ok (sound_request cdn) (repair_books cdn tid code todo t).
Proof.
  induction todo as [|book later IH]; intros t; cbn [repair_books].
  - apply when_ok_of_emits, emits_ret.
  - apply when_ok_bind; [apply when_ok_repair_book | intros; apply IH].
Qed.

(** X24.  An answer of the CDN that cannot be worked through is fatal: a
    pass of [repair_translation] that returns has received, for every
    chapter it requested, a failure, a document that is not an object,
    verses that count as false, or a list of verses all of which are
    dicts whose number, when number and text are present, can be looked
    up in the existing-state set.  So an entry that is not a dict, or
    verses that are a number, end the pass with an exception. *)
Theorem X24_returning_pass_has_read_sound_chapters
    (cdn_chapter : string -> string -> Z -> response) (translation_id : string)
    (d : db) :
  let o := repair_translation cdn_chapter translation_id d in
  is_ok (res o) = true ->
  Forall (sound_request cdn_chapter) (out o).
Proof.
  cbn zeta. revert d.
  change (when_ok (sound_request cdn_chapter)
            (repair_translation cdn_chapter translation_id)).
  assert (other : forall e, is_fetch_chapter e = false -> sound_request cdn_chapter e)
    by (intros; apply sound_request_other; assumption).
  unfold repair_translation.
  destruct (lookup translation_id TRANSLATIONS) as [[|a code]|];
    try (apply when_ok_of_emits;
         apply emits_bind; [apply emits_emit, other; reflexivity|];
         intros; apply emits_ret).
  apply when_ok_bind.
  { apply when_ok_of_emits. intros d0. unfold select_books.
    destruct (next_fault d0) as [[msg|] d']; repeat constructor. }
  intros todo. apply when_ok_bind; [apply when_ok_repair_books|].
  intros t. apply when_ok_of_emits.
  apply emits_bind; [apply emits_emit, other; reflexivity|].
  intros; apply emits_ret.
Qed.

Lemma X24_returning_pass_has_read_sound_chapters_witness :
  let o := repair_translation ruth_cdn "KJV" (ruth_store []) in
  is_ok (res o) = true /\ Forall (sound_request ruth_cdn) (out o).
Proof.
  split; [vm_compute; reflexivity|].
  apply (X24_returning_pass_has_read_sound_chapters ruth_cdn "KJV" (ruth_store [])).
  vm_compute. reflexivity.
Defined.

(* ===================================================================== *)
(** ** The order of the documents *)

Lemma insert_by_id_perm b l : Permutation (insert_by_id b l) (b :: l).
Proof.
  induction l as [|b' l IH]; cbn [insert_by_id]; [reflexivity|].
  destruct (fst b <=? fst b'); [reflexivity|].
  rewrite IH. apply perm_swap.
Qed.

Lemma order_by_id_perm l : Permutation (order_by_id l) l.
Proof.
  induction l as [|b l IH]; [reflexivity|].
  cbn [order_by_id fold_right]. fold (order_by_id l).
  rewrite insert_by_id_perm. constructor. exact IH.
Qed.

Lemma insert_by_id_sorted b l :
  StronglySorted (fun x y => fst x <= fst y) l ->
  StronglySorted (fun x y => fst x <= fst y) (insert_by_id b l).
Proof.
  induction 1 as [|b' l Hs IH Hf]; cbn [insert_by_id]; [repeat constructor|].
  destruct (fst b <=? fst b') eqn:E.
  - apply Z.leb_le in E. constructor; [constructor; assumption|].
    constructor; [exact E|]. eapply Forall_impl; [|exact Hf]. cbn. intros; lia.
  - apply Z.leb_gt in E. constructor; [exact IH|].
    apply Forall_forall. intros x Hx. apply insert_by_id_in in Hx.
    destruct Hx as [->|Hx]; [lia|]. rewrite Forall_forall in Hf. auto.
Qed.

Lemma order_by_id_sorted l : StronglySorted (fun x y => fst x <= fst y) (order_by_id l).
Proof.
  induction l as [|b l IH]; [constructor|].
  cbn [order_by_id fold_right]. apply insert_by_id_sorted, IH.
Qed.

Lemma scans_app t1 t2 : scans (t1 ++ t2) = scans t1 ++ scans t2.
Proof. apply filter_app. Qed.

Lemma scans_none t : Forall (fun e => is_scan e = false) t -> scans t = [].
Proof.
  induction 1 as [|e t He _ IH]; [reflexivity|].
  cbn [scans filter]. rewrite He. exact IH.
Qed.

Lemma repair_book_scans cdn tid code book t d t' :
  res (repair_book cdn tid code book t d) = Ok t' ->
  scans (out (repair_book cdn tid code book t d))
  = if mapped book then [EvScan tid (fst book) None] else [].
Proof.
  destruct book as [bid name]. unfold repair_book, mapped. cbn [fst snd].
  destruct (lookup name BOOK_NAMES) as [[|a api]|]; try reflexivity.
  intros E. apply bind_ok_inv in E. destruct E as (existing & E1 & E2 & -> & _).
  rewrite scans_app.
  assert (Hs : out (get_existing_verses tid bid d) = [EvScan tid bid None]).
  { revert E1. unfold get_existing_verses, bind, select_chapter_verse.
    destruct (next_fault d) as [[msg|] d']; cbn; [discriminate | reflexivity]. }
  rewrite Hs. cbn [scans filter is_scan app]. f_equal.
  apply scans_none.
  assert (skip : forall line, emits (fun e => is_scan e = false) (print line ;; ret t)).
  { intros line. apply emits_bind; [apply emits_emit; reflexivity|].
    intros; apply emits_ret. }
  destruct (is_complete _ _); [apply skip|].
  unfold repair_incomplete.
  apply emits_bind; [apply emits_emit; reflexivity|]. intros _.
  apply emits_bind.
  - apply emits_repair_chapters; intros; reflexivity.
  - intros c. apply emits_bind.
    + apply emits_commit_attempts; intros; reflexivity.
    + intros _. apply emits_bind; [|intros; apply emits_ret].
      destruct (fst c >? 0); [apply emits_emit; reflexivity | apply emits_ret].
Qed.

Lemma repair_books_scans cdn tid code todo :
  forall t d t',
    res (repair_books cdn tid code todo t d) = Ok t' ->
    scans (out (repair_books cdn tid code todo t d))
    = map (fun book => EvScan tid (fst book) None) (filter mapped todo).
Proof.
  induction todo as [|book later IH]; intros t d t'; cbn [repair_books]; [reflexivity|].
  intros E. apply bind_ok_inv in E. destruct E as (t1 & E1 & E2 & -> & _).
  rewrite scans_app, (repair_book_scans _ _ _ _ _ _ _ E1), (IH _ _ _ E2).
  cbn [filter]. destruct (mapped book); reflexivity.
Qed.

(** X25.  A pass that returns has scanned every row of the books table
    whose name has a provider name exactly once, in ascending order of
    book id, whatever the order of the rows in the table; it has scanned
    nothing else. *)
Theorem X25_mapped_books_are_scanned_once_in_id_order
    (cdn_chapter : string -> string -> Z -> response) (translation_id : string)
    (d : db) (t : tally) :
  let o := repair_translation cdn_chapter translation_id d in
  res o = Ok (Some t) ->
  exists todo,
    Permutation todo (books d) /\
    StronglySorted (fun a b => fst a <= fst b) todo /\
    scans (out o) = map (fun book => EvScan translation_id (fst book) None)
                      (filter mapped todo).
Proof.
  cbn zeta. intros Hok. exists (order_by_id (books d)).
  split; [apply order_by_id_perm|]. split; [apply order_by_id_sorted|].
  unfold repair_translation in *.
  destruct (lookup translation_id TRANSLATIONS) as [[|a code]|];
    try (cbn in Hok; discriminate).
  apply bind_ok_inv in Hok. destruct Hok as (todo & Es & E & -> & _).
  destruct (select_books_ok _ _ Es) as [-> _].
  apply bind_ok_inv in E. destruct E as (t1 & E1 & _ & -> & _).
  rewrite !scans_app, (repair_books_scans _ _ _ _ _ _ _ E1).
  assert (Hs : scans (out (select_books d)) = []).
  { unfold select_books. destruct (next_fault d) as [[msg|] d']; reflexivity. }
  rewrite Hs. cbn [app]. rewrite <- app_nil_r. f_equal.
Qed.

Lemma X25_mapped_books_are_scanned_once_in_id_order_witness :
  let d := mkDb [(40, "Matthew"); (8, "Ruth"); (67, "Tobit")] ruth_80 ruth_80 [] sqlite_digits in
  let o := repair_translation (fun _ _ _ => UrlError) "KJV" d in
  res o = Ok (Some (mkTally 0 1076
                      [mkStats "Ruth" 80 85 0; mkStats "Matthew" 0 1071 0])) /\
  exists todo,
    Permutation todo (books d) /\
    StronglySorted (fun a b => fst a <= fst b) todo /\
    scans (out o) = map (fun book => EvScan "KJV" (fst book) None) (filter mapped todo).
Proof.
  split; [vm_compute; reflexivity|].
  apply (X25_mapped_books_are_scanned_once_in_id_order
           (fun _ _ _ => UrlError) "KJV"
           (mkDb [(40, "Matthew"); (8, "Ruth"); (67, "Tobit")] ruth_80 ruth_80 [] sqlite_digits)
           (mkTally 0 1076 [mkStats "Ruth" 80 85 0; mkStats "Matthew" 0 1071 0])).
  vm_compute. reflexivity.
Defined.
